(** * CRS Invaders: the simulation core of Physics.js, UI.js and Main.js

    A shallow embedding of the game's simulation core and the properties
    its specification states about it.

    Numbers.  JavaScript numbers are modelled as exact rationals [Q]
    (rounding of IEEE doubles is outside the model); counters that only
    ever hold integers ([score], [combo], [level], ...) are [Z].
    Equality of rationals is [==] ([Qeq]).  The exported [CRSCalculator],
    which takes its numbers from any caller, is also read over numbers
    with the special values [Infinity], [-Infinity] and [NaN] (module
    [IEEE]).

    Randomness.  Every [Math.random()] call whose value reaches the
    modelled state is an explicit input (see [ClotRand], [FrameRand],
    [ParticleRand]).

    Left out.  Canvas and DOM access, the wobble and rotation of entities
    (sines, cosines and multiples of pi) and the purely decorative entity
    fields (pulse trail, fibrin strands, platelets): none of them is read
    back by the simulation.  Of the drawing code, the computations that
    decide what is drawn are modelled (the fill and colours of the CRS
    bar, the clock, the opacity of the level transition). *)

From Stdlib Require Import QArith Qminmax Qround Qabs Qreals ZArith Reals Lia Psatz Bool.
From Stdlib Require String.
From stdpp Require Import base list gmap.

Open Scope Q_scope.

(** ** Comparisons on numbers *)

Definition Qltb (x y : Q) : bool := negb (Qle_bool y x).
Definition Qgtb (x y : Q) : bool := Qltb y x.
Definition Qgeb (x y : Q) : bool := Qle_bool y x.


(** [Math.sqrt(dx*dx + dy*dy) < r] over exact numbers: the square root of
    a non-negative number is below [r] exactly when [r] is positive and
    the number is below [r*r] (see [sqrt_lt_real]).  On doubles the two
    tests can differ when the distance is within a rounding step of [r]. *)
Definition sqrt_lt (dx dy r : Q) : bool :=
  Qltb 0 r && Qltb (dx * dx + dy * dy) (r * r).

(** * Physics.js *)

(** ** CRS algorithm *)

(** What [CRSCalculator.update] reads of an element of [clots]: an object
    with a [getScale] method (its result), or only its [radius]. *)
Inductive ClotLike :=
| HasGetScale (scale : Q)
| RadiusOnly (radius : Q).

(** [maxCRS] and [recoveryRate] are written by the constructor only. *)
Definition maxCRS : Q := 100.
Definition recoveryRate : Q := 5.

Record CRSCalculator := { crsValue : Q }.

Definition newCRSCalculator : CRSCalculator := {| crsValue := 0 |}.

Definition residenceContribution (deltaTime : Q) (clot : ClotLike) : Q :=
  let scale := match clot with
               | HasGetScale sc => sc
               | RadiusOnly r => r / 50
               end in
  let mass := scale * scale in
  mass * (deltaTime / 1000) * 2.

(** [update] over exact numbers, as the game drives it (scales in (0, 1]
    and a frame time of at most 32 ms); [IEEE.update] has the special
    values. *)
Definition crs_update (clots : list ClotLike) (deltaTime : Q)
    (c : CRSCalculator) : CRSCalculator :=
  let crsIncrease :=
    fold_left (fun acc clot => acc + residenceContribution deltaTime clot)
              clots 0 in
  {| crsValue := Qmin maxCRS (crsValue c + crsIncrease) |}.

Definition onClotDestroyed (clotScale : Q) (c : CRSCalculator) : CRSCalculator :=
  let reduction := recoveryRate * clotScale in
  {| crsValue := Qmax 0 (crsValue c - reduction) |}.

Definition getCRS (c : CRSCalculator) : Q := crsValue c.
Definition getCRSPercentage (c : CRSCalculator) : Q := (crsValue c / maxCRS) * 100.
Definition isCritical (c : CRSCalculator) : bool := Qgeb (crsValue c) 70.
Definition isFailed (c : CRSCalculator) : bool := Qgeb (crsValue c) maxCRS.
Definition crs_reset (c : CRSCalculator) : CRSCalculator := {| crsValue := 0 |}.

(** ** The calculator on numbers with their special values *)

(** [CRSCalculator] is exported, and its callers may hand it any number.
    This module reads the class over JavaScript numbers with the special
    values of IEEE 754: a finite value, [Infinity], [-Infinity] or [NaN].
    A finite result is exact unless it leaves the range of a double: at
    [2^1024 - 2^970] or beyond it is an infinity, and at [2^-1075] or
    closer to zero it is 0.  The rounding of the other finite results and
    the sign of zero are not modelled (the class divides by the constants
    1000 and 50 only). *)
Module IEEE.

Inductive Number :=
| Finite (q : Q)
| PosInfinity
| NegInfinity
| NaN.

Definition overflowAt : Q := inject_Z (2 ^ 1024 - 2 ^ 970).
Definition underflowAt : Q := 1 # (2 ^ 1075).

Definition rounded (q : Q) : Number :=
  if Qle_bool overflowAt q then PosInfinity
  else if Qle_bool q (- overflowAt) then NegInfinity
  else if Qle_bool (Qabs q) underflowAt then Finite 0
  else Finite q.

Definition infinity (negative : bool) : Number :=
  if negative then NegInfinity else PosInfinity.

Definition neg (a : Number) : Number :=
  match a with
  | Finite q => Finite (- q)
  | PosInfinity => NegInfinity
  | NegInfinity => PosInfinity
  | NaN => NaN
  end.

Definition add (a b : Number) : Number :=
  match a, b with
  | NaN, _ | _, NaN => NaN
  | Finite x, Finite y => rounded (x + y)
  | PosInfinity, NegInfinity | NegInfinity, PosInfinity => NaN
  | PosInfinity, _ | _, PosInfinity => PosInfinity
  | NegInfinity, _ | _, NegInfinity => NegInfinity
  end.

Definition sub (a b : Number) : Number := add a (neg b).

(** An infinity times a finite number. *)
Definition mulInfinity (negative : bool) (x : Q) : Number :=
  if Qeq_bool x 0 then NaN else infinity (xorb negative (Qltb x 0)).

Definition mul (a b : Number) : Number :=
  match a, b with
  | NaN, _ | _, NaN => NaN
  | Finite x, Finite y => rounded (x * y)
  | Finite x, PosInfinity | PosInfinity, Finite x => mulInfinity false x
  | Finite x, NegInfinity | NegInfinity, Finite x => mulInfinity true x
  | PosInfinity, PosInfinity | NegInfinity, NegInfinity => PosInfinity
  | PosInfinity, NegInfinity | NegInfinity, PosInfinity => NegInfinity
  end.

Definition div (a b : Number) : Number :=
  match a, b with
  | NaN, _ | _, NaN => NaN
  | Finite x, Finite y =>
      if Qeq_bool y 0
      then if Qeq_bool x 0 then NaN else infinity (Qltb x 0)
      else rounded (x / y)
  | Finite _, _ => Finite 0
  | PosInfinity, Finite y => infinity (Qltb y 0)
  | NegInfinity, Finite y => infinity (negb (Qltb y 0))
  | _, _ => NaN
  end.

(** [Math.min] and [Math.max] of two numbers. *)
Definition Math_min (a b : Number) : Number :=
  match a, b with
  | NaN, _ | _, NaN => NaN
  | NegInfinity, _ | _, NegInfinity => NegInfinity
  | PosInfinity, x | x, PosInfinity => x
  | Finite x, Finite y => Finite (Qmin x y)
  end.

Definition Math_max (a b : Number) : Number :=
  match a, b with
  | NaN, _ | _, NaN => NaN
  | PosInfinity, _ | _, PosInfinity => PosInfinity
  | NegInfinity, x | x, NegInfinity => x
  | Finite x, Finite y => Finite (Qmax x y)
  end.

Inductive ClotLike :=
| HasGetScale (scale : Number)
| RadiusOnly (radius : Number).

Definition maxCRS : Number := Finite 100.
Definition recoveryRate : Number := Finite 5.

Record CRSCalculator := { crsValue : Number }.

Definition newCRSCalculator : CRSCalculator := {| crsValue := Finite 0 |}.

(** The [scale] constant of the loop body of [update]. *)
Definition scaleOf (clot : ClotLike) : Number :=
  match clot with
  | HasGetScale sc => sc
  | RadiusOnly r => div r (Finite 50)
  end.

Definition residenceContribution (deltaTime : Number) (clot : ClotLike) : Number :=
  let scale := scaleOf clot in
  let mass := mul scale scale in
  mul (mul mass (div deltaTime (Finite 1000))) (Finite 2).

Definition update (clots : list ClotLike) (deltaTime : Number)
    (c : CRSCalculator) : CRSCalculator :=
  let crsIncrease :=
    fold_left (fun acc clot => add acc (residenceContribution deltaTime clot))
              clots (Finite 0) in
  {| crsValue := Math_min maxCRS (add (crsValue c) crsIncrease) |}.

Definition onClotDestroyed (clotScale : Number) (c : CRSCalculator) : CRSCalculator :=
  let reduction := mul recoveryRate clotScale in
  {| crsValue := Math_max (Finite 0) (sub (crsValue c) reduction) |}.

Definition reset (c : CRSCalculator) : CRSCalculator := {| crsValue := Finite 0 |}.

(** A call on a [CRSCalculator], for sequences of calls. *)
Inductive CRSCall :=
| CallUpdate (clots : list ClotLike) (deltaTime : Number)
| CallOnClotDestroyed (clotScale : Number).

Definition call (k : CRSCall) (c : CRSCalculator) : CRSCalculator :=
  match k with
  | CallUpdate clots deltaTime => update clots deltaTime c
  | CallOnClotDestroyed clotScale => onClotDestroyed clotScale c
  end.

(** The calculator after each call of the sequence, in order. *)
Fixpoint trace (ks : list CRSCall) (c : CRSCalculator) : list CRSCalculator :=
  match ks with
  | [] => []
  | k :: ks' => let c' := call k c in c' :: trace ks' c'
  end.

(** *** Predicates *)

(** A number that is not negative: a finite one from 0 on, or [Infinity]. *)
Definition nonneg (a : Number) : Prop :=
  match a with
  | Finite q => 0 <= q
  | PosInfinity => True
  | _ => False
  end.

(** A finite number within the range of a double. *)
Definition finite (a : Number) : Prop :=
  match a with
  | Finite q => - overflowAt < q /\ q < overflowAt
  | _ => False
  end.

(** A finite number whose square is within the range of a double, that
    is, one of magnitude below about [1.34e154]. *)
Definition squareFinite (a : Number) : Prop :=
  match a with
  | Finite q => q * q < overflowAt
  | _ => False
  end.

Definition in_range (c : CRSCalculator) : Prop :=
  match crsValue c with
  | Finite v => 0 <= v /\ v <= 100
  | _ => False
  end.

(** A call as the claim has it: the elapsed time, the scales and the
    radii are not negative. *)
Definition nonneg_call (k : CRSCall) : Prop :=
  match k with
  | CallUpdate clots deltaTime =>
      nonneg deltaTime /\
      Forall (fun clot => match clot with
                          | HasGetScale sc => nonneg sc
                          | RadiusOnly r => nonneg r
                          end) clots
  | CallOnClotDestroyed clotScale => nonneg clotScale
  end.

(** A call that cannot produce [NaN]: an update with a finite elapsed
    time that is not negative, over clots whose scale has a finite square;
    or a destroyed clot of any scale that is not negative. *)
Definition valid_call (k : CRSCall) : Prop :=
  match k with
  | CallUpdate clots deltaTime =>
      finite deltaTime /\ nonneg deltaTime /\
      Forall (fun clot => squareFinite (scaleOf clot)) clots
  | CallOnClotDestroyed clotScale => nonneg clotScale
  end.

End IEEE.

(** ** Collision detection and lerp *)

Definition circleCollision (x1 y1 r1 x2 y2 r2 : Q) : bool :=
  let dx := x2 - x1 in
  let dy := y2 - y1 in
  sqrt_lt dx dy (r1 + r2).

Definition lerp (start end_ factor : Q) : Q := start + (end_ - start) * factor.

(** ** Other geometry and easing helpers *)

Definition pointInCircle (px py cx cy r : Q) : bool :=
  let dx := px - cx in
  let dy := py - cy in
  Qltb (dx * dx + dy * dy) (r * r).

Definition isInStagnationZone (x canvasWidth : Q) : bool :=
  let zoneWidth := canvasWidth * 0.15 in (* 15% on each side *)
  Qltb x zoneWidth || Qgtb x (canvasWidth - zoneWidth).

Definition smoothStep (x : Q) : Q := x * x * (3 - 2 * x).

Definition easeOutQuad (t : Q) : Q := t * (2 - t).

(** ** Particle system *)

(** A particle without its [rotation] and [rotationSpeed], which are
    multiples of [Math.PI] read by [draw] only. *)
Record Particle := {
  particle_x : Q;
  particle_y : Q;
  particle_vx : Q;
  particle_vy : Q;
  life : Q;
  particle_decay : Q;
  particle_size : Q;
  particle_color : option String.string
}.

(** The draws of [emit] for one particle: the colour index, then the
    constructor's draws. *)
Record ParticleRand := {
  rnd_color : Q;
  rnd_pvx : Q;
  rnd_pvy : Q;
  rnd_decay : Q;
  rnd_size : Q
}.

Definition newParticle (x y : Q) (color : option String.string) (r : ParticleRand)
    : Particle :=
  {| particle_x := x;
     particle_y := y;
     particle_vx := (rnd_pvx r - 0.5) * 8;
     particle_vy := (rnd_pvy r - 0.5) * 8 - 3;
     life := 1.0;
     particle_decay := 0.02 + rnd_decay r * 0.02;
     particle_size := 3 + rnd_size r * 5;
     particle_color := color |}.

Definition particle_update (p : Particle) : Particle :=
  {| particle_x := particle_x p + particle_vx p;
     particle_y := particle_y p + particle_vy p;
     particle_vx := particle_vx p;
     particle_vy := particle_vy p + 0.15; (* Gravity *)
     life := life p - particle_decay p;
     particle_decay := particle_decay p;
     particle_size := particle_size p * 0.97;
     particle_color := particle_color p |}.

Definition isDead (p : Particle) : bool := Qle_bool (life p) 0.

(** [ParticleSystem]: its [particles] array. *)
Abbreviation ParticleSystem := (list Particle).

(** [colors[Math.floor(r * colors.length)]], [None] for [undefined]. *)
Definition pickColor (colors : list String.string) (r : Q) : option String.string :=
  let i := Qfloor (r * inject_Z (Z.of_nat (length colors))) in
  if (0 <=? i)%Z then colors !! Z.to_nat i else None.

(** [emit]: [rnd i] holds the draws of the [i]-th particle of the call. *)
Definition emit (x y : Q) (count : nat) (colors : list String.string)
    (rnd : nat -> ParticleRand) (ps : ParticleSystem) : ParticleSystem :=
  ps ++ map (fun i => newParticle x y (pickColor colors (rnd_color (rnd i))) (rnd i))
            (seq 0 count).

(** [update]: the filter callback updates each particle, then keeps it
    unless it is dead. *)
Definition particles_update (ps : ParticleSystem) : ParticleSystem :=
  List.filter (fun p => negb (isDead p)) (map particle_update ps).

(** * UI.js *)

(** ** Screen shake *)

Definition shake_decay : Q := 0.9.

Record ScreenShake := { intensity : Q; offsetX : Q; offsetY : Q }.

Definition newScreenShake : ScreenShake :=
  {| intensity := 0; offsetX := 0; offsetY := 0 |}.

(** [trigger(intensity = 10)]: [None] is a call without argument. *)
Definition shake_trigger (i : option Q) (s : ScreenShake) : ScreenShake :=
  {| intensity := match i with Some v => v | None => 10 end;
     offsetX := offsetX s; offsetY := offsetY s |}.

(** [update], with its two draws. *)
Definition shake_update (r1 r2 : Q) (s : ScreenShake) : ScreenShake :=
  if Qgtb (intensity s) 0.5 then
    {| intensity := intensity s * shake_decay;
       offsetX := (r1 - 0.5) * intensity s * 2;
       offsetY := (r2 - 0.5) * intensity s * 2 |}
  else
    {| intensity := 0; offsetX := 0; offsetY := 0 |}.

(** [n] updates, the [k]-th with the draws [rnd k]. *)
Fixpoint shake_updates (rnd : nat -> Q * Q) (n : nat) (s : ScreenShake) : ScreenShake :=
  match n with
  | O => s
  | S n' => let s' := shake_updates rnd n' s in
            shake_update (fst (rnd n')) (snd (rnd n')) s'
  end.

(** ** Level transition *)

Record LevelTransition := { active : bool; progress : Q; fadeIn : bool }.

Definition newLevelTransition : LevelTransition :=
  {| active := false; progress := 0; fadeIn := true |}.

Definition transition_start (t : LevelTransition) : LevelTransition :=
  {| active := true; progress := 0; fadeIn := true |}.

(** [update(deltaTime)] over exact numbers: the comparison [progress >= 1]
    is on the exact sum, where the code compares a sum of doubles. *)
Definition transition_update (deltaTime : Q) (t : LevelTransition) : LevelTransition :=
  if negb (active t) then t else
  let p := progress t + deltaTime * 0.002 in
  if Qgeb p 1 then {| active := false; progress := 0; fadeIn := fadeIn t |}
  else {| active := active t; progress := p; fadeIn := fadeIn t |}.

(** The opacity [draw] paints with; [None] when it returns at once. *)
Definition transition_alpha (t : LevelTransition) : option Q :=
  if negb (active t) then None
  else if Qltb (progress t) 0.5 then Some (progress t * 2)
  else Some (1 - (progress t - 0.5) * 2).

(** ** Overlays *)

(** The four overlay elements: [None] when [getElementById] found none,
    else whether the element carries the class [active]. *)
Record OverlayController := {
  startScreen : option bool;
  gameOverScreen : option bool;
  levelCompleteScreen : option bool;
  scienceModal : option bool
}.

(** [el?.classList.remove('active')] and [el?.classList.add('active')]. *)
Definition classRemove (el : option bool) : option bool :=
  match el with Some _ => Some false | None => None end.

Definition classAdd (el : option bool) : option bool :=
  match el with Some _ => Some true | None => None end.

Definition hideAll (o : OverlayController) : OverlayController :=
  {| startScreen := classRemove (startScreen o);
     gameOverScreen := classRemove (gameOverScreen o);
     levelCompleteScreen := classRemove (levelCompleteScreen o);
     scienceModal := classRemove (scienceModal o) |}.

Definition showStart (o : OverlayController) : OverlayController :=
  let o := hideAll o in
  {| startScreen := classAdd (startScreen o);
     gameOverScreen := gameOverScreen o;
     levelCompleteScreen := levelCompleteScreen o;
     scienceModal := scienceModal o |}.

Definition showGameOver (o : OverlayController) : OverlayController :=
  let o := hideAll o in
  {| startScreen := startScreen o;
     gameOverScreen := classAdd (gameOverScreen o);
     levelCompleteScreen := levelCompleteScreen o;
     scienceModal := scienceModal o |}.

Definition showLevelComplete (o : OverlayController) : OverlayController :=
  let o := hideAll o in
  {| startScreen := startScreen o;
     gameOverScreen := gameOverScreen o;
     levelCompleteScreen := classAdd (levelCompleteScreen o);
     scienceModal := scienceModal o |}.

Definition showScienceModal (o : OverlayController) : OverlayController :=
  let o := hideAll o in
  {| startScreen := startScreen o;
     gameOverScreen := gameOverScreen o;
     levelCompleteScreen := levelCompleteScreen o;
     scienceModal := classAdd (scienceModal o) |}.

(** The calls the game makes on its overlays. *)
Inductive OverlayCall :=
| HideAll | ShowStart | ShowGameOver | ShowLevelComplete | ShowScienceModal.

Definition overlay_call (k : OverlayCall) (o : OverlayController) : OverlayController :=
  match k with
  | HideAll => hideAll o
  | ShowStart => showStart o
  | ShowGameOver => showGameOver o
  | ShowLevelComplete => showLevelComplete o
  | ShowScienceModal => showScienceModal o
  end.

(** ** HUD *)

(** [drawCRSBar(percentage)] on a bar [barWidth] wide: the width of the
    fill, the gradient of the fill (none is chosen when the fill is
    empty), whether the critical glow is painted over it, and the colour
    of the percentage text, which is set outside the [fillWidth > 0]
    block. *)
Inductive BarGradient := LightToPrimary | PrimaryToWarning | WarningToDanger.

Inductive TextColor := DangerText | LightText.

Definition fillWidth (barWidth percentage : Q) : Q :=
  (barWidth * Qmin percentage 100) / 100.

Definition barGradient (barWidth percentage : Q) : option BarGradient :=
  if Qgtb (fillWidth barWidth percentage) 0 then
    Some (if Qltb percentage 50 then LightToPrimary
          else if Qltb percentage 70 then PrimaryToWarning
          else WarningToDanger)
  else None.

Definition barGlow (barWidth percentage : Q) : bool :=
  if Qgtb (fillWidth barWidth percentage) 0 then Qgeb percentage 70 else false.

Definition percentageColor (percentage : Q) : TextColor :=
  if Qgeb percentage 70 then DangerText else LightText.

(** [drawTime] and [showGameOver]: the minutes and seconds shown for a
    whole number of seconds ([%] is the truncated remainder). *)
Definition formatTime (seconds : Z) : Z * Z :=
  (Qfloor (inject_Z seconds / 60), Z.rem seconds 60).

(** * Main.js *)

Inductive PowerUpKey := RAPID_FIRE | HEAL | MULTI_SHOT | SHIELD.

(** [Object.keys(POWERUP_TYPES)], in insertion order. *)
Definition POWERUP_KEYS : list PowerUpKey := [RAPID_FIRE; HEAL; MULTI_SHOT; SHIELD].

Definition duration (k : PowerUpKey) : Q :=
  match k with
  | RAPID_FIRE => 5000
  | HEAL => 0
  | MULTI_SHOT => 6000
  | SHIELD => 4000
  end.

Inductive GAME_STATES := MENU | PLAYING | PAUSED | LEVEL_COMPLETE | GAME_OVER | SCIENCE_MODAL.

Definition state_eqb (a b : GAME_STATES) : bool :=
  match a, b with
  | MENU, MENU | PLAYING, PLAYING | PAUSED, PAUSED
  | LEVEL_COMPLETE, LEVEL_COMPLETE | GAME_OVER, GAME_OVER
  | SCIENCE_MODAL, SCIENCE_MODAL => true
  | _, _ => false
  end.

(** [LEVELS.length] *)
Definition LEVELS_length : Z := 3.

(** ** Player *)

Definition player_width : Q := 50.
Definition player_height : Q := 30.
Definition lerpFactor : Q := 0.12.

Record Player := { player_x : Q; player_y : Q; targetX : Q; pulseTime : Q }.

Definition newPlayer (canvas_width canvas_height : Q) : Player :=
  {| player_x := canvas_width / 2;
     player_y := canvas_height - 80;
     targetX := canvas_width / 2;
     pulseTime := 0 |}.

Definition player_update (deltaTime canvas_width : Q) (p : Player) : Player :=
  let x := lerp (player_x p) (targetX p) lerpFactor in
  let halfWidth := player_width / 2 in
  {| player_x := Qmax halfWidth (Qmin (canvas_width - halfWidth) x);
     player_y := player_y p;
     targetX := targetX p;
     pulseTime := pulseTime p + deltaTime |}.

Definition setTarget (x : Q) (p : Player) : Player :=
  {| player_x := player_x p; player_y := player_y p; targetX := x;
     pulseTime := pulseTime p |}.

(** ** Pulse (projectile) *)

Definition pulse_speed : Q := 12.
Definition pulse_radius : Q := 8.

Record Pulse := { pulse_x : Q; pulse_y : Q }.

Definition newPulse (x y : Q) : Pulse := {| pulse_x := x; pulse_y := y |}.

(** [Pulse.update]: the moved pulse and the returned "still alive" flag. *)
Definition pulse_update (p : Pulse) : Pulse * bool :=
  let y := pulse_y p - pulse_speed in
  ({| pulse_x := pulse_x p; pulse_y := y |}, Qgtb y (- pulse_radius)).

(** ** Clot (enemy) *)

Record Clot := {
  clot_x : Q;
  clot_y : Q;
  baseRadius : Q;
  radius : Q;
  minRadius : Q;
  shrinkAmount : Q;
  speed : Q;
  residenceTime : Q;
  hitFlash : Q;
  clot_difficultyMultiplier : Q;
  vx : Q;
  dropsPowerUp : bool
}.

(** The [Math.random()] draws of one [spawnClot]: the spawn abscissa and
    the draws of the [Clot] constructor that reach simulation fields. *)
Record ClotRand := {
  rnd_x : Q;
  rnd_baseRadius : Q;
  rnd_shrinkAmount : Q;
  rnd_speed : Q;
  rnd_vx : Q;
  rnd_drop : Q
}.

Definition newClot (x y difficultyMultiplier : Q) (r : ClotRand) : Clot :=
  let base := 45 + rnd_baseRadius r * 35 in
  {| clot_x := x;
     clot_y := y;
     baseRadius := base;
     radius := base;
     minRadius := 10;
     shrinkAmount := 5 + rnd_shrinkAmount r * 3;
     speed := (0.4 + rnd_speed r * 0.4) * (1 + (difficultyMultiplier - 1) * 0.7);
     residenceTime := 0;
     hitFlash := 0;
     clot_difficultyMultiplier := difficultyMultiplier;
     vx := (rnd_vx r - 0.5) * 0.5;
     dropsPowerUp := Qltb (rnd_drop r) 0.15 |}.

Definition clot_update (deltaTime canvasWidth : Q) (c : Clot) : Clot :=
  let y := clot_y c + speed c in
  let x := clot_x c + vx c in
  let vx' := if Qltb x (radius c) || Qgtb x (canvasWidth - radius c)
             then vx c * -1 else vx c in
  {| clot_x := Qmax (radius c) (Qmin (canvasWidth - radius c) x);
     clot_y := y;
     baseRadius := baseRadius c;
     radius := radius c;
     minRadius := minRadius c;
     shrinkAmount := shrinkAmount c;
     speed := speed c;
     residenceTime := residenceTime c + deltaTime;
     hitFlash := if Qgtb (hitFlash c) 0 then hitFlash c - deltaTime * 0.01
                 else hitFlash c;
     clot_difficultyMultiplier := clot_difficultyMultiplier c;
     vx := vx';
     dropsPowerUp := dropsPowerUp c |}.

(** [Clot.hit]: the shrunken clot and the returned "destroyed" flag. *)
Definition hit (c : Clot) : Clot * bool :=
  let r := radius c - shrinkAmount c in
  ({| clot_x := clot_x c;
      clot_y := clot_y c;
      baseRadius := baseRadius c;
      radius := r;
      minRadius := minRadius c;
      shrinkAmount := shrinkAmount c;
      speed := speed c;
      residenceTime := residenceTime c;
      hitFlash := 1;
      clot_difficultyMultiplier := clot_difficultyMultiplier c;
      vx := vx c;
      dropsPowerUp := dropsPowerUp c |},
   Qle_bool r (minRadius c)).

Definition getScale (c : Clot) : Q := radius c / baseRadius c.

(** [n] successive [hit()] calls: the clot afterwards and the flags
    returned, oldest first. *)
Fixpoint hits (n : nat) (c : Clot) : Clot * list bool :=
  match n with
  | O => (c, [])
  | S n' => let '(c1, d) := hit c in
            let '(c2, ds) := hits n' c1 in
            (c2, d :: ds)
  end.

(** ** PowerUp *)

Definition powerup_radius : Q := 18.
Definition powerup_speed : Q := 1.5.

(** [typeKey] is [None] when the index computed from the draw is outside
    the key table (JavaScript's [undefined]). *)
Record PowerUp := { powerup_x : Q; powerup_y : Q; typeKey : option PowerUpKey }.

Definition newPowerUp (x y rnd : Q) : PowerUp :=
  let i := Qfloor (rnd * 4) in
  {| powerup_x := x;
     powerup_y := y;
     typeKey := if (0 <=? i)%Z then POWERUP_KEYS !! Z.to_nat i else None |}.

Definition powerup_update (deltaTime : Q) (p : PowerUp) : PowerUp * bool :=
  let y := powerup_y p + powerup_speed in
  ({| powerup_x := powerup_x p; powerup_y := y; typeKey := typeKey p |},
   Qltb y 1000).

(** ** Game *)

(** [this.activePowerUps]: an object with exactly these three keys. *)
Record ActivePowerUps := { rapidFire : Q; multiShot : Q; shield : Q }.

(** The fields of [Game] the simulation reads or writes.  The canvas is
    represented by its size; [autoFireTimer] is [None] until [update]
    first assigns it (the constructor does not declare it). *)
Record Game := {
  canvas_width : Q;
  canvas_height : Q;
  player : Player;
  pulses : list Pulse;
  clots : list Clot;
  powerUps : list PowerUp;
  crs : CRSCalculator;
  state : GAME_STATES;
  level : Z;
  score : Z;
  pulseCooldown : Q;
  spawnTimer : Q;
  lastTime : Q;
  gameTime : Q;
  wasCritical : bool;
  difficultyTimer : Q;
  difficultyLevel : Z;
  difficultyMultiplier : Q;
  combo : Z;
  comboTimer : Q;
  maxCombo : Z;
  activePowerUps : ActivePowerUps;
  autoFireTimer : option Q
}.

(** Field assignments [this.f = v]. *)
Definition set_canvas_width (v : Q) (g : Game) : Game :=
  {| canvas_width := v; canvas_height := canvas_height g; player := player g;
     pulses := pulses g; clots := clots g; powerUps := powerUps g;
     crs := crs g; state := state g; level := level g; score := score g;
     pulseCooldown := pulseCooldown g; spawnTimer := spawnTimer g;
     lastTime := lastTime g; gameTime := gameTime g;
     wasCritical := wasCritical g; difficultyTimer := difficultyTimer g;
     difficultyLevel := difficultyLevel g;
     difficultyMultiplier := difficultyMultiplier g; combo := combo g;
     comboTimer := comboTimer g; maxCombo := maxCombo g;
     activePowerUps := activePowerUps g; autoFireTimer := autoFireTimer g |}.
Definition set_canvas_height (v : Q) (g : Game) : Game :=
  {| canvas_width := canvas_width g; canvas_height := v; player := player g;
     pulses := pulses g; clots := clots g; powerUps := powerUps g;
     crs := crs g; state := state g; level := level g; score := score g;
     pulseCooldown := pulseCooldown g; spawnTimer := spawnTimer g;
     lastTime := lastTime g; gameTime := gameTime g;
     wasCritical := wasCritical g; difficultyTimer := difficultyTimer g;
     difficultyLevel := difficultyLevel g;
     difficultyMultiplier := difficultyMultiplier g; combo := combo g;
     comboTimer := comboTimer g; maxCombo := maxCombo g;
     activePowerUps := activePowerUps g; autoFireTimer := autoFireTimer g |}.
Definition set_player (v : Player) (g : Game) : Game :=
  {| canvas_width := canvas_width g; canvas_height := canvas_height g;
     player := v; pulses := pulses g; clots := clots g;
     powerUps := powerUps g; crs := crs g; state := state g;
     level := level g; score := score g; pulseCooldown := pulseCooldown g;
     spawnTimer := spawnTimer g; lastTime := lastTime g;
     gameTime := gameTime g; wasCritical := wasCritical g;
     difficultyTimer := difficultyTimer g;
     difficultyLevel := difficultyLevel g;
     difficultyMultiplier := difficultyMultiplier g; combo := combo g;
     comboTimer := comboTimer g; maxCombo := maxCombo g;
     activePowerUps := activePowerUps g; autoFireTimer := autoFireTimer g |}.
Definition set_pulses (v : list Pulse) (g : Game) : Game :=
  {| canvas_width := canvas_width g; canvas_height := canvas_height g;
     player := player g; pulses := v; clots := clots g;
     powerUps := powerUps g; crs := crs g; state := state g;
     level := level g; score := score g; pulseCooldown := pulseCooldown g;
     spawnTimer := spawnTimer g; lastTime := lastTime g;
     gameTime := gameTime g; wasCritical := wasCritical g;
     difficultyTimer := difficultyTimer g;
     difficultyLevel := difficultyLevel g;
     difficultyMultiplier := difficultyMultiplier g; combo := combo g;
     comboTimer := comboTimer g; maxCombo := maxCombo g;
     activePowerUps := activePowerUps g; autoFireTimer := autoFireTimer g |}.
Definition set_clots (v : list Clot) (g : Game) : Game :=
  {| canvas_width := canvas_width g; canvas_height := canvas_height g;
     player := player g; pulses := pulses g; clots := v;
     powerUps := powerUps g; crs := crs g; state := state g;
     level := level g; score := score g; pulseCooldown := pulseCooldown g;
     spawnTimer := spawnTimer g; lastTime := lastTime g;
     gameTime := gameTime g; wasCritical := wasCritical g;
     difficultyTimer := difficultyTimer g;
     difficultyLevel := difficultyLevel g;
     difficultyMultiplier := difficultyMultiplier g; combo := combo g;
     comboTimer := comboTimer g; maxCombo := maxCombo g;
     activePowerUps := activePowerUps g; autoFireTimer := autoFireTimer g |}.
Definition set_powerUps (v : list PowerUp) (g : Game) : Game :=
  {| canvas_width := canvas_width g; canvas_height := canvas_height g;
     player := player g; pulses := pulses g; clots := clots g; powerUps := v;
     crs := crs g; state := state g; level := level g; score := score g;
     pulseCooldown := pulseCooldown g; spawnTimer := spawnTimer g;
     lastTime := lastTime g; gameTime := gameTime g;
     wasCritical := wasCritical g; difficultyTimer := difficultyTimer g;
     difficultyLevel := difficultyLevel g;
     difficultyMultiplier := difficultyMultiplier g; combo := combo g;
     comboTimer := comboTimer g; maxCombo := maxCombo g;
     activePowerUps := activePowerUps g; autoFireTimer := autoFireTimer g |}.
Definition set_crs (v : CRSCalculator) (g : Game) : Game :=
  {| canvas_width := canvas_width g; canvas_height := canvas_height g;
     player := player g; pulses := pulses g; clots := clots g;
     powerUps := powerUps g; crs := v; state := state g; level := level g;
     score := score g; pulseCooldown := pulseCooldown g;
     spawnTimer := spawnTimer g; lastTime := lastTime g;
     gameTime := gameTime g; wasCritical := wasCritical g;
     difficultyTimer := difficultyTimer g;
     difficultyLevel := difficultyLevel g;
     difficultyMultiplier := difficultyMultiplier g; combo := combo g;
     comboTimer := comboTimer g; maxCombo := maxCombo g;
     activePowerUps := activePowerUps g; autoFireTimer := autoFireTimer g |}.
Definition set_state (v : GAME_STATES) (g : Game) : Game :=
  {| canvas_width := canvas_width g; canvas_height := canvas_height g;
     player := player g; pulses := pulses g; clots := clots g;
     powerUps := powerUps g; crs := crs g; state := v; level := level g;
     score := score g; pulseCooldown := pulseCooldown g;
     spawnTimer := spawnTimer g; lastTime := lastTime g;
     gameTime := gameTime g; wasCritical := wasCritical g;
     difficultyTimer := difficultyTimer g;
     difficultyLevel := difficultyLevel g;
     difficultyMultiplier := difficultyMultiplier g; combo := combo g;
     comboTimer := comboTimer g; maxCombo := maxCombo g;
     activePowerUps := activePowerUps g; autoFireTimer := autoFireTimer g |}.
Definition set_level (v : Z) (g : Game) : Game :=
  {| canvas_width := canvas_width g; canvas_height := canvas_height g;
     player := player g; pulses := pulses g; clots := clots g;
     powerUps := powerUps g; crs := crs g; state := state g; level := v;
     score := score g; pulseCooldown := pulseCooldown g;
     spawnTimer := spawnTimer g; lastTime := lastTime g;
     gameTime := gameTime g; wasCritical := wasCritical g;
     difficultyTimer := difficultyTimer g;
     difficultyLevel := difficultyLevel g;
     difficultyMultiplier := difficultyMultiplier g; combo := combo g;
     comboTimer := comboTimer g; maxCombo := maxCombo g;
     activePowerUps := activePowerUps g; autoFireTimer := autoFireTimer g |}.
Definition set_score (v : Z) (g : Game) : Game :=
  {| canvas_width := canvas_width g; canvas_height := canvas_height g;
     player := player g; pulses := pulses g; clots := clots g;
     powerUps := powerUps g; crs := crs g; state := state g;
     level := level g; score := v; pulseCooldown := pulseCooldown g;
     spawnTimer := spawnTimer g; lastTime := lastTime g;
     gameTime := gameTime g; wasCritical := wasCritical g;
     difficultyTimer := difficultyTimer g;
     difficultyLevel := difficultyLevel g;
     difficultyMultiplier := difficultyMultiplier g; combo := combo g;
     comboTimer := comboTimer g; maxCombo := maxCombo g;
     activePowerUps := activePowerUps g; autoFireTimer := autoFireTimer g |}.
Definition set_pulseCooldown (v : Q) (g : Game) : Game :=
  {| canvas_width := canvas_width g; canvas_height := canvas_height g;
     player := player g; pulses := pulses g; clots := clots g;
     powerUps := powerUps g; crs := crs g; state := state g;
     level := level g; score := score g; pulseCooldown := v;
     spawnTimer := spawnTimer g; lastTime := lastTime g;
     gameTime := gameTime g; wasCritical := wasCritical g;
     difficultyTimer := difficultyTimer g;
     difficultyLevel := difficultyLevel g;
     difficultyMultiplier := difficultyMultiplier g; combo := combo g;
     comboTimer := comboTimer g; maxCombo := maxCombo g;
     activePowerUps := activePowerUps g; autoFireTimer := autoFireTimer g |}.
Definition set_spawnTimer (v : Q) (g : Game) : Game :=
  {| canvas_width := canvas_width g; canvas_height := canvas_height g;
     player := player g; pulses := pulses g; clots := clots g;
     powerUps := powerUps g; crs := crs g; state := state g;
     level := level g; score := score g; pulseCooldown := pulseCooldown g;
     spawnTimer := v; lastTime := lastTime g; gameTime := gameTime g;
     wasCritical := wasCritical g; difficultyTimer := difficultyTimer g;
     difficultyLevel := difficultyLevel g;
     difficultyMultiplier := difficultyMultiplier g; combo := combo g;
     comboTimer := comboTimer g; maxCombo := maxCombo g;
     activePowerUps := activePowerUps g; autoFireTimer := autoFireTimer g |}.
Definition set_lastTime (v : Q) (g : Game) : Game :=
  {| canvas_width := canvas_width g; canvas_height := canvas_height g;
     player := player g; pulses := pulses g; clots := clots g;
     powerUps := powerUps g; crs := crs g; state := state g;
     level := level g; score := score g; pulseCooldown := pulseCooldown g;
     spawnTimer := spawnTimer g; lastTime := v; gameTime := gameTime g;
     wasCritical := wasCritical g; difficultyTimer := difficultyTimer g;
     difficultyLevel := difficultyLevel g;
     difficultyMultiplier := difficultyMultiplier g; combo := combo g;
     comboTimer := comboTimer g; maxCombo := maxCombo g;
     activePowerUps := activePowerUps g; autoFireTimer := autoFireTimer g |}.
Definition set_gameTime (v : Q) (g : Game) : Game :=
  {| canvas_width := canvas_width g; canvas_height := canvas_height g;
     player := player g; pulses := pulses g; clots := clots g;
     powerUps := powerUps g; crs := crs g; state := state g;
     level := level g; score := score g; pulseCooldown := pulseCooldown g;
     spawnTimer := spawnTimer g; lastTime := lastTime g; gameTime := v;
     wasCritical := wasCritical g; difficultyTimer := difficultyTimer g;
     difficultyLevel := difficultyLevel g;
     difficultyMultiplier := difficultyMultiplier g; combo := combo g;
     comboTimer := comboTimer g; maxCombo := maxCombo g;
     activePowerUps := activePowerUps g; autoFireTimer := autoFireTimer g |}.
Definition set_wasCritical (v : bool) (g : Game) : Game :=
  {| canvas_width := canvas_width g; canvas_height := canvas_height g;
     player := player g; pulses := pulses g; clots := clots g;
     powerUps := powerUps g; crs := crs g; state := state g;
     level := level g; score := score g; pulseCooldown := pulseCooldown g;
     spawnTimer := spawnTimer g; lastTime := lastTime g;
     gameTime := gameTime g; wasCritical := v;
     difficultyTimer := difficultyTimer g;
     difficultyLevel := difficultyLevel g;
     difficultyMultiplier := difficultyMultiplier g; combo := combo g;
     comboTimer := comboTimer g; maxCombo := maxCombo g;
     activePowerUps := activePowerUps g; autoFireTimer := autoFireTimer g |}.
Definition set_difficultyTimer (v : Q) (g : Game) : Game :=
  {| canvas_width := canvas_width g; canvas_height := canvas_height g;
     player := player g; pulses := pulses g; clots := clots g;
     powerUps := powerUps g; crs := crs g; state := state g;
     level := level g; score := score g; pulseCooldown := pulseCooldown g;
     spawnTimer := spawnTimer g; lastTime := lastTime g;
     gameTime := gameTime g; wasCritical := wasCritical g;
     difficultyTimer := v; difficultyLevel := difficultyLevel g;
     difficultyMultiplier := difficultyMultiplier g; combo := combo g;
     comboTimer := comboTimer g; maxCombo := maxCombo g;
     activePowerUps := activePowerUps g; autoFireTimer := autoFireTimer g |}.
Definition set_difficultyLevel (v : Z) (g : Game) : Game :=
  {| canvas_width := canvas_width g; canvas_height := canvas_height g;
     player := player g; pulses := pulses g; clots := clots g;
     powerUps := powerUps g; crs := crs g; state := state g;
     level := level g; score := score g; pulseCooldown := pulseCooldown g;
     spawnTimer := spawnTimer g; lastTime := lastTime g;
     gameTime := gameTime g; wasCritical := wasCritical g;
     difficultyTimer := difficultyTimer g; difficultyLevel := v;
     difficultyMultiplier := difficultyMultiplier g; combo := combo g;
     comboTimer := comboTimer g; maxCombo := maxCombo g;
     activePowerUps := activePowerUps g; autoFireTimer := autoFireTimer g |}.
Definition set_difficultyMultiplier (v : Q) (g : Game) : Game :=
  {| canvas_width := canvas_width g; canvas_height := canvas_height g;
     player := player g; pulses := pulses g; clots := clots g;
     powerUps := powerUps g; crs := crs g; state := state g;
     level := level g; score := score g; pulseCooldown := pulseCooldown g;
     spawnTimer := spawnTimer g; lastTime := lastTime g;
     gameTime := gameTime g; wasCritical := wasCritical g;
     difficultyTimer := difficultyTimer g;
     difficultyLevel := difficultyLevel g; difficultyMultiplier := v;
     combo := combo g; comboTimer := comboTimer g; maxCombo := maxCombo g;
     activePowerUps := activePowerUps g; autoFireTimer := autoFireTimer g |}.
Definition set_combo (v : Z) (g : Game) : Game :=
  {| canvas_width := canvas_width g; canvas_height := canvas_height g;
     player := player g; pulses := pulses g; clots := clots g;
     powerUps := powerUps g; crs := crs g; state := state g;
     level := level g; score := score g; pulseCooldown := pulseCooldown g;
     spawnTimer := spawnTimer g; lastTime := lastTime g;
     gameTime := gameTime g; wasCritical := wasCritical g;
     difficultyTimer := difficultyTimer g;
     difficultyLevel := difficultyLevel g;
     difficultyMultiplier := difficultyMultiplier g; combo := v;
     comboTimer := comboTimer g; maxCombo := maxCombo g;
     activePowerUps := activePowerUps g; autoFireTimer := autoFireTimer g |}.
Definition set_comboTimer (v : Q) (g : Game) : Game :=
  {| canvas_width := canvas_width g; canvas_height := canvas_height g;
     player := player g; pulses := pulses g; clots := clots g;
     powerUps := powerUps g; crs := crs g; state := state g;
     level := level g; score := score g; pulseCooldown := pulseCooldown g;
     spawnTimer := spawnTimer g; lastTime := lastTime g;
     gameTime := gameTime g; wasCritical := wasCritical g;
     difficultyTimer := difficultyTimer g;
     difficultyLevel := difficultyLevel g;
     difficultyMultiplier := difficultyMultiplier g; combo := combo g;
     comboTimer := v; maxCombo := maxCombo g;
     activePowerUps := activePowerUps g; autoFireTimer := autoFireTimer g |}.
Definition set_maxCombo (v : Z) (g : Game) : Game :=
  {| canvas_width := canvas_width g; canvas_height := canvas_height g;
     player := player g; pulses := pulses g; clots := clots g;
     powerUps := powerUps g; crs := crs g; state := state g;
     level := level g; score := score g; pulseCooldown := pulseCooldown g;
     spawnTimer := spawnTimer g; lastTime := lastTime g;
     gameTime := gameTime g; wasCritical := wasCritical g;
     difficultyTimer := difficultyTimer g;
     difficultyLevel := difficultyLevel g;
     difficultyMultiplier := difficultyMultiplier g; combo := combo g;
     comboTimer := comboTimer g; maxCombo := v;
     activePowerUps := activePowerUps g; autoFireTimer := autoFireTimer g |}.
Definition set_activePowerUps (v : ActivePowerUps) (g : Game) : Game :=
  {| canvas_width := canvas_width g; canvas_height := canvas_height g;
     player := player g; pulses := pulses g; clots := clots g;
     powerUps := powerUps g; crs := crs g; state := state g;
     level := level g; score := score g; pulseCooldown := pulseCooldown g;
     spawnTimer := spawnTimer g; lastTime := lastTime g;
     gameTime := gameTime g; wasCritical := wasCritical g;
     difficultyTimer := difficultyTimer g;
     difficultyLevel := difficultyLevel g;
     difficultyMultiplier := difficultyMultiplier g; combo := combo g;
     comboTimer := comboTimer g; maxCombo := maxCombo g; activePowerUps := v;
     autoFireTimer := autoFireTimer g |}.
Definition set_autoFireTimer (v : option Q) (g : Game) : Game :=
  {| canvas_width := canvas_width g; canvas_height := canvas_height g;
     player := player g; pulses := pulses g; clots := clots g;
     powerUps := powerUps g; crs := crs g; state := state g;
     level := level g; score := score g; pulseCooldown := pulseCooldown g;
     spawnTimer := spawnTimer g; lastTime := lastTime g;
     gameTime := gameTime g; wasCritical := wasCritical g;
     difficultyTimer := difficultyTimer g;
     difficultyLevel := difficultyLevel g;
     difficultyMultiplier := difficultyMultiplier g; combo := combo g;
     comboTimer := comboTimer g; maxCombo := maxCombo g;
     activePowerUps := activePowerUps g; autoFireTimer := v |}.

(** The constructor, once [resize()] has read the container size. *)
Definition newGame (width height : Q) : Game :=
  {| canvas_width := width; canvas_height := height;
     player := newPlayer width height;
     pulses := []; clots := []; powerUps := [];
     crs := newCRSCalculator;
     state := MENU; level := 0; score := 0;
     pulseCooldown := 0; spawnTimer := 0; lastTime := 0; gameTime := 0;
     wasCritical := false;
     difficultyTimer := 0; difficultyLevel := 0; difficultyMultiplier := 1.0;
     combo := 0; comboTimer := 0; maxCombo := 0;
     activePowerUps := {| rapidFire := 0; multiShot := 0; shield := 0 |};
     autoFireTimer := None |}.

Definition resize (width height : Q) (g : Game) : Game :=
  let p := player g in
  set_player {| player_x := player_x p; player_y := height - 80;
                targetX := targetX p; pulseTime := pulseTime p |}
    (set_canvas_height height (set_canvas_width width g)).

Definition playing (g : Game) : bool := state_eqb (state g) PLAYING.

Definition fire (g : Game) : Game :=
  if negb (playing g) then g else
  (* Limit max pulses on screen *)
  if (length (pulses g) <? 20)%nat then
    let p := player g in
    let y := player_y p - player_height / 2 in
    if Qgtb (multiShot (activePowerUps g)) 0 then
      set_pulses (pulses g ++ [newPulse (player_x p - 15) y;
                               newPulse (player_x p) y;
                               newPulse (player_x p + 15) y]) g
    else
      set_pulses (pulses g ++ [newPulse (player_x p) y]) g
  else g.

(** [handleMouse] and [handleTouch], with [x] the abscissa computed from
    the event. *)
Definition handleMouse (x : Q) (g : Game) : Game :=
  if negb (playing g) then g else set_player (setTarget x (player g)) g.

Definition handleTouch (x : Q) (touchstart : bool) (g : Game) : Game :=
  if negb (playing g) then g else
  let g1 := set_player (setTarget x (player g)) g in
  if touchstart then fire g1 else g1.

Definition startGame (g : Game) : Game :=
  let g := set_state PLAYING g in
  let g := set_level 0%Z g in
  let g := set_score 0%Z g in
  let g := set_pulses [] g in
  let g := set_clots [] g in
  let g := set_powerUps [] g in
  let g := set_crs (crs_reset (crs g)) g in
  let g := set_spawnTimer 0 g in
  let g := set_pulseCooldown 0 g in
  let g := set_wasCritical false g in
  let g := set_difficultyTimer 0 g in
  let g := set_difficultyLevel 0%Z g in
  let g := set_difficultyMultiplier 1.0 g in
  let g := set_combo 0%Z g in
  let g := set_comboTimer 0 g in
  let g := set_maxCombo 0%Z g in
  set_activePowerUps {| rapidFire := 0; multiShot := 0; shield := 0 |} g.

Definition nextLevel (g : Game) : Game :=
  let g := set_level (level g + 1)%Z g in
  if (LEVELS_length <=? level g)%Z then
    set_state SCIENCE_MODAL g
  else
    let g := set_state PLAYING g in
    let g := set_clots [] g in
    let g := set_pulses [] g in
    let g := set_spawnTimer 0 g in
    let g := set_difficultyTimer 0 g in
    let g := set_difficultyLevel 0%Z g in
    set_difficultyMultiplier 1.0 g.

Definition closeModal (g : Game) : Game := set_state MENU g.

Definition levelComplete (g : Game) : Game := set_state LEVEL_COMPLETE g.

Definition spawnClot (r : ClotRand) (g : Game) : Game :=
  let x := 30 + rnd_x r * (canvas_width g - 60) in
  let y := -80 in
  set_clots (clots g ++ [newClot x y (difficultyMultiplier g) r]) g.

(** The [Math.random()] draws of one frame: the three possible spawns
    with the two extra-spawn draws, and the draw of the power-up made when
    pulse [pi] destroys clot [ci] in the collision scan. *)
Record FrameRand := {
  rnd_spawn : ClotRand;
  rnd_extra1 : Q;
  rnd_spawn1 : ClotRand;
  rnd_extra2 : Q;
  rnd_spawn2 : ClotRand;
  rnd_powerUp : nat -> nat -> Q
}.

(** *** The phases of [update], in source order *)

Definition updateDifficulty (deltaTime : Q) (g : Game) : Game :=
  let g := set_difficultyTimer (difficultyTimer g + deltaTime) g in
  let newDifficultyLevel := Qfloor (difficultyTimer g / 5000) in
  if (difficultyLevel g <? newDifficultyLevel)%Z then
    let g := set_difficultyLevel newDifficultyLevel g in
    let g := set_difficultyMultiplier
               (1.0 + inject_Z (difficultyLevel g) * 0.4) g in
    set_difficultyMultiplier (Qmin (difficultyMultiplier g) 4.0) g
  else g.

Definition updatePlayer (deltaTime : Q) (g : Game) : Game :=
  set_player (player_update deltaTime (canvas_width g) (player g)) g.

Definition autoFire (deltaTime : Q) (g : Game) : Game :=
  let t := match autoFireTimer g with Some t => t | None => 0 end + deltaTime in
  let g := set_autoFireTimer (Some t) g in
  let fireRate := if Qgtb (rapidFire (activePowerUps g)) 0 then 75 else 120 in
  if Qgeb t fireRate then set_autoFireTimer (Some 0) (fire g) else g.

(** [xs.filter(x => x.update(..))] for an [update] that moves [x] and
    returns whether to keep it. *)
Fixpoint filter_update {A} (upd : A -> A * bool) (xs : list A) : list A :=
  match xs with
  | [] => []
  | x :: rest =>
      let '(x', keep) := upd x in
      if keep then x' :: filter_update upd rest else filter_update upd rest
  end.

Definition updatePulses (g : Game) : Game :=
  set_pulses (filter_update pulse_update (pulses g)) g.

Definition spawnClots (deltaTime : Q) (rnd : FrameRand) (g : Game) : Game :=
  let g := set_spawnTimer (spawnTimer g + deltaTime) g in
  let baseSpawnRate := 2500 in
  let adjustedSpawnRate := baseSpawnRate / difficultyMultiplier g in
  if Qgeb (spawnTimer g) adjustedSpawnRate then
    let g := spawnClot (rnd_spawn rnd) g in
    let g := set_spawnTimer 0 g in
    let g := if (3 <=? difficultyLevel g)%Z && Qltb (rnd_extra1 rnd) 0.3
             then spawnClot (rnd_spawn1 rnd) g else g in
    if (5 <=? difficultyLevel g)%Z && Qltb (rnd_extra2 rnd) 0.25
    then spawnClot (rnd_spawn2 rnd) g else g
  else g.

Definition updateClots (deltaTime : Q) (g : Game) : Game :=
  set_clots (map (clot_update deltaTime (canvas_width g)) (clots g)) g.

(** What the collision scan writes: the fields of [this] it assigns and
    its two local index sets.  The clots, mutated in place by [hit()], are
    threaded next to it. *)
Record Scan := {
  s_combo : Z;
  s_comboTimer : Q;
  s_maxCombo : Z;
  s_score : Z;
  s_crs : CRSCalculator;
  s_powerUps : list PowerUp;
  pulsesToRemove : gset nat;
  clotsToRemove : gset nat
}.

Definition collides (pulse : Pulse) (clot : Clot) : bool :=
  circleCollision (pulse_x pulse) (pulse_y pulse) pulse_radius
                  (clot_x clot) (clot_y clot) (radius clot).

(** The body of the [if (circleCollision(..))] for pulse [pi] and clot
    [ci]; [rnd] is the draw of a power-up spawned here. *)
Definition onCollision (rnd : Q) (pi ci : nat) (clot : Clot) (s : Scan)
    : Clot * Scan :=
  let pulsesToRemove' := {[ pi ]} ∪ pulsesToRemove s in
  (* Combo system - increase combo on hit *)
  let combo' := (s_combo s + 1)%Z in
  let comboTimer' := 1500 in
  let maxCombo' := if (s_maxCombo s <? combo')%Z then combo' else s_maxCombo s in
  (* Score with combo multiplier *)
  let comboBonus := Z.min combo' 10 in
  let score' := (s_score s + 5 * comboBonus)%Z in
  let '(clot', destroyed) := hit clot in
  if destroyed then
    (clot',
     {| s_combo := combo'; s_comboTimer := comboTimer'; s_maxCombo := maxCombo';
        s_score := (score' + 50 * comboBonus)%Z;
        s_crs := onClotDestroyed (getScale clot') (s_crs s);
        s_powerUps := if dropsPowerUp clot'
                      then s_powerUps s ++ [newPowerUp (clot_x clot') (clot_y clot') rnd]
                      else s_powerUps s;
        pulsesToRemove := pulsesToRemove';
        clotsToRemove := {[ ci ]} ∪ clotsToRemove s |})
  else
    (clot',
     {| s_combo := combo'; s_comboTimer := comboTimer'; s_maxCombo := maxCombo';
        s_score := score';
        s_crs := s_crs s;
        s_powerUps := s_powerUps s;
        pulsesToRemove := pulsesToRemove';
        clotsToRemove := clotsToRemove s |}).

(** One iteration of the inner [forEach]. *)
Definition scanClot (rnd : nat -> nat -> Q) (pulse : Pulse) (pi ci : nat)
    (clot : Clot) (s : Scan) : Clot * Scan :=
  if collides pulse clot then onCollision (rnd pi ci) pi ci clot s
  else (clot, s).

(** The inner [this.clots.forEach((clot, ci) => ..)] from index [ci] on. *)
Fixpoint scanClots (rnd : nat -> nat -> Q) (pulse : Pulse) (pi ci : nat)
    (cs : list Clot) (s : Scan) : list Clot * Scan :=
  match cs with
  | [] => ([], s)
  | clot :: rest =>
      let '(clot', s1) := scanClot rnd pulse pi ci clot s in
      let '(rest', s2) := scanClots rnd pulse pi (S ci) rest s1 in
      (clot' :: rest', s2)
  end.

(** The outer [this.pulses.forEach((pulse, pi) => ..)] from index [pi] on. *)
Fixpoint scanPulses (rnd : nat -> nat -> Q) (pi : nat) (ps : list Pulse)
    (cs : list Clot) (s : Scan) : list Clot * Scan :=
  match ps with
  | [] => (cs, s)
  | pulse :: rest =>
      let '(cs1, s1) := scanClots rnd pulse pi 0 cs s in
      scanPulses rnd (S pi) rest cs1 s1
  end.

(** [xs.filter((_, i) => !removed.has(i))], from index [i] on. *)
Fixpoint remove_indices {A} (removed : gset nat) (i : nat) (xs : list A) : list A :=
  match xs with
  | [] => []
  | x :: rest =>
      if bool_decide (i ∈ removed) then remove_indices removed (S i) rest
      else x :: remove_indices removed (S i) rest
  end.

Definition scan_start (g : Game) : Scan :=
  {| s_combo := combo g; s_comboTimer := comboTimer g; s_maxCombo := maxCombo g;
     s_score := score g; s_crs := crs g; s_powerUps := powerUps g;
     pulsesToRemove := ∅; clotsToRemove := ∅ |}.

(** The state of the scan when both loops are done. *)
Definition collisionScan (rnd : nat -> nat -> Q) (g : Game) : list Clot * Scan :=
  scanPulses rnd 0 (pulses g) (clots g) (scan_start g).

Definition checkCollisions (rnd : nat -> nat -> Q) (g : Game) : Game :=
  let '(cs, s) := collisionScan rnd g in
  let g1 := set_combo (s_combo s) g in
  let g1 := set_comboTimer (s_comboTimer s) g1 in
  let g1 := set_maxCombo (s_maxCombo s) g1 in
  let g1 := set_score (s_score s) g1 in
  let g1 := set_crs (s_crs s) g1 in
  let g1 := set_powerUps (s_powerUps s) g1 in
  (* Remove destroyed objects *)
  let g1 := set_pulses (remove_indices (pulsesToRemove s) 0 (pulses g)) g1 in
  set_clots (remove_indices (clotsToRemove s) 0 cs) g1.

Definition applyPowerUp (key : option PowerUpKey) (g : Game) : Game :=
  let a := activePowerUps g in
  let g :=
    match key with
    | Some RAPID_FIRE =>
        set_activePowerUps {| rapidFire := duration RAPID_FIRE;
                              multiShot := multiShot a; shield := shield a |} g
    | Some HEAL =>
        set_crs {| crsValue := Qmax 0 (crsValue (crs g) - 25) |} g
    | Some MULTI_SHOT =>
        set_activePowerUps {| rapidFire := rapidFire a;
                              multiShot := duration MULTI_SHOT; shield := shield a |} g
    | Some SHIELD =>
        set_activePowerUps {| rapidFire := rapidFire a;
                              multiShot := multiShot a; shield := duration SHIELD |} g
    | None => g
    end in
  set_score (score g + 100)%Z g.

(** The filter that removes the clots past the bottom of the canvas, with
    the penalty its callback adds to [this.crs.crsValue]. *)
Fixpoint filterEscaped (canvas_height : Q) (cs : list Clot) (c : CRSCalculator)
    : list Clot * CRSCalculator :=
  match cs with
  | [] => ([], c)
  | clot :: rest =>
      if Qgtb (clot_y clot) (canvas_height + radius clot) then
        let penalty := 25 + (getScale clot * 15) in
        filterEscaped canvas_height rest {| crsValue := crsValue c + penalty |}
      else
        let '(rest', c') := filterEscaped canvas_height rest c in
        (clot :: rest', c')
  end.

Definition removeEscaped (g : Game) : Game :=
  let '(cs, c) := filterEscaped (canvas_height g) (clots g) (crs g) in
  set_clots cs (set_crs c g).

Definition updateCRS (deltaTime : Q) (g : Game) : Game :=
  set_crs (crs_update (map (fun clot => HasGetScale (getScale clot)) (clots g))
                      deltaTime (crs g)) g.

Definition checkCritical (g : Game) : Game :=
  if isCritical (crs g) then
    if negb (wasCritical g) then set_wasCritical true g else g
  else set_wasCritical false g.

Definition checkGameOver (g : Game) : Game :=
  if isFailed (crs g) then set_state GAME_OVER g else g.

Definition updatePowerUps (deltaTime : Q) (g : Game) : Game :=
  set_powerUps (filter_update (powerup_update deltaTime) (powerUps g)) g.

(** The pick-up filter, with the effects of its callback on the game. *)
Fixpoint filterCollected (pus : list PowerUp) (g : Game) : list PowerUp * Game :=
  match pus with
  | [] => ([], g)
  | pu :: rest =>
      let dx := powerup_x pu - player_x (player g) in
      let dy := powerup_y pu - player_y (player g) in
      if sqrt_lt dx dy (powerup_radius + 30) then
        filterCollected rest (applyPowerUp (typeKey pu) g)
      else
        let '(rest', g') := filterCollected rest g in
        (pu :: rest', g')
  end.

Definition collectPowerUps (g : Game) : Game :=
  let '(pus, g') := filterCollected (powerUps g) g in
  set_powerUps pus g'.

Definition updateComboTimer (deltaTime : Q) (g : Game) : Game :=
  if (0 <? combo g)%Z then
    let g := set_comboTimer (comboTimer g - deltaTime) g in
    if Qle_bool (comboTimer g) 0 then set_combo 0%Z g (* Combo expired *)
    else g
  else g.

(** One step of the [for (const key in this.activePowerUps)] loop. *)
Definition tickPowerUp (deltaTime t : Q) : Q :=
  if Qgtb t 0 then t - deltaTime else t.

Definition updatePowerUpTimers (deltaTime : Q) (g : Game) : Game :=
  let a := activePowerUps g in
  set_activePowerUps {| rapidFire := tickPowerUp deltaTime (rapidFire a);
                        multiShot := tickPowerUp deltaTime (multiShot a);
                        shield := tickPowerUp deltaTime (shield a) |} g.

(** *** [update] and [gameLoop] *)

(** The frame up to, and excluding, the collision scan. *)
Definition beforeCollisions (deltaTime : Q) (rnd : FrameRand) (g : Game) : Game :=
  let g := set_gameTime (gameTime g + deltaTime) g in
  let g := updateDifficulty deltaTime g in
  let g := updatePlayer deltaTime g in
  let g := autoFire deltaTime g in
  let g := updatePulses g in
  let g := spawnClots deltaTime rnd g in
  updateClots deltaTime g.

(** The frame after the collision scan. *)
Definition afterCollisions (deltaTime : Q) (g : Game) : Game :=
  let g := removeEscaped g in
  let g := updateCRS deltaTime g in
  let g := checkCritical g in
  let g := checkGameOver g in
  let g := updatePowerUps deltaTime g in
  let g := collectPowerUps g in
  let g := updateComboTimer deltaTime g in
  updatePowerUpTimers deltaTime g.

(** The frame up to, and including, the collision scan. *)
Definition afterScan (deltaTime : Q) (rnd : FrameRand) (g : Game) : Game :=
  checkCollisions (rnd_powerUp rnd) (beforeCollisions deltaTime rnd g).

Definition update (deltaTime : Q) (rnd : FrameRand) (g : Game) : Game :=
  if negb (playing g) then g else
  afterCollisions deltaTime (afterScan deltaTime rnd g).

Definition gameLoop (currentTime : Q) (rnd : FrameRand) (g : Game) : Game :=
  let deltaTime := currentTime - lastTime g in
  let g := set_lastTime currentTime g in
  (* Cap delta time to prevent spiral of death *)
  let cappedDelta := Qmin deltaTime 32 in
  update cappedDelta rnd g.

(** *** Runs *)

(** What drives the game: animation frames, input events and buttons. *)
Inductive Event :=
| Frame (currentTime : Q) (rnd : FrameRand)
| Click
| MouseMove (x : Q)
| Touch (x : Q) (touchstart : bool)
| Resize (width height : Q)
| StartButton
| NextLevelButton
| CloseModalButton.

Definition step (e : Event) (g : Game) : Game :=
  match e with
  | Frame currentTime rnd => gameLoop currentTime rnd g
  | Click => fire g
  | MouseMove x => handleMouse x g
  | Touch x touchstart => handleTouch x touchstart g
  | Resize width height => resize width height g
  | StartButton => startGame g
  | NextLevelButton => nextLevel g
  | CloseModalButton => closeModal g
  end.

Definition run (es : list Event) (g : Game) : Game := fold_left (fun g e => step e g) es g.

(** Successive [update] calls. *)
Definition frames (fs : list (Q * FrameRand)) (g : Game) : Game :=
  fold_left (fun g f => update (fst f) (snd f) g) fs g.

(** ** Predicates used in the statements *)

Definition crs_in_range (c : CRSCalculator) : Prop :=
  0 <= crsValue c /\ crsValue c <= 100.

(** The clots the game can hold: built by the constructor from draws of
    [Math.random()], which are never negative, then moved and hit. *)
Inductive isClot : Clot -> Prop :=
| isClot_new x y difficultyMultiplier r :
    0 <= rnd_shrinkAmount r -> isClot (newClot x y difficultyMultiplier r)
| isClot_update deltaTime canvasWidth c :
    isClot c -> isClot (clot_update deltaTime canvasWidth c)
| isClot_hit c :
    isClot c -> isClot (fst (hit c)).

(** A clot past the bottom of the canvas, and the penalty for it. *)
Definition escaped (canvas_height : Q) (clot : Clot) : bool :=
  Qgtb (clot_y clot) (canvas_height + radius clot).

Definition escapePenalty (clot : Clot) : Q := 25 + getScale clot * 15.

Fixpoint Qsum (xs : list Q) : Q :=
  match xs with
  | [] => 0
  | x :: rest => x + Qsum rest
  end.

(** Every clot staged for removal by the scan is at or below its minimum
    radius; every clot has a non-negative shrink amount. *)
Definition staged_destroyed (cs : list Clot) (s : Scan) : Prop :=
  forall ci, ci ∈ clotsToRemove s ->
             exists clot, cs !! ci = Some clot /\ radius clot <= minRadius clot.

Definition shrinking (cs : list Clot) : Prop :=
  Forall (fun clot => 0 <= shrinkAmount clot) cs.

(** The number of hits of a scan: the (pulse, clot) pairs whose collision
    test succeeds, each pulse meeting the clots as the earlier pulses
    left them. *)
Fixpoint countHits (ps : list Pulse) (cs : list Clot) : nat :=
  match ps with
  | [] => 0
  | pulse :: rest =>
      (length (List.filter (collides pulse) cs)
       + countHits rest
           (map (fun clot => if collides pulse clot then fst (hit clot) else clot)
                cs))%nat
  end.

(** The number of hits of the frame [update deltaTime rnd g]. *)
Definition frameHits (deltaTime : Q) (rnd : FrameRand) (g : Game) : nat :=
  let g1 := beforeCollisions deltaTime rnd g in
  countHits (pulses g1) (clots g1).

(** Frames without a hit, each started in the Playing state with a
    non-negative elapsed time. *)
Fixpoint quietFrames (fs : list (Q * FrameRand)) (g : Game) : Prop :=
  match fs with
  | [] => True
  | f :: rest =>
      playing g = true /\ 0 <= fst f /\ frameHits (fst f) (snd f) g = 0%nat /\
      quietFrames rest (update (fst f) (snd f) g)
  end.

(** The frame time accumulated by a list of frames. *)
Definition elapsed (fs : list (Q * FrameRand)) : Q := Qsum (map fst fs).

(** Every active power-up timer is above [b]. *)
Definition timers_above (b : Q) (a : ActivePowerUps) : Prop :=
  b < rapidFire a /\ b < multiShot a /\ b < shield a.

(** Sample entities for concrete scans: a pulse over two overlapping
    clots, and two pulses over one clot that the first of them destroys
    (a clot of base radius 47 and shrink amount 5 after seven hits). *)
Definition twoClotsGame : Game :=
  {| canvas_width := 800; canvas_height := 600;
     player := newPlayer 800 600;
     pulses := [newPulse 100 100];
     clots := [ {| clot_x := 100; clot_y := 100; baseRadius := 45; radius := 45;
                   minRadius := 10; shrinkAmount := 5; speed := 0.4;
                   residenceTime := 0; hitFlash := 0;
                   clot_difficultyMultiplier := 1; vx := 0;
                   dropsPowerUp := false |};
                {| clot_x := 110; clot_y := 100; baseRadius := 50; radius := 50;
                   minRadius := 10; shrinkAmount := 6; speed := 0.4;
                   residenceTime := 0; hitFlash := 0;
                   clot_difficultyMultiplier := 1; vx := 0;
                   dropsPowerUp := false |} ];
     powerUps := [];
     crs := {| crsValue := 20 |};
     state := PLAYING; level := 0; score := 0;
     pulseCooldown := 0; spawnTimer := 0; lastTime := 0; gameTime := 0;
     wasCritical := false;
     difficultyTimer := 0; difficultyLevel := 0; difficultyMultiplier := 1.0;
     combo := 0; comboTimer := 0; maxCombo := 0;
     activePowerUps := {| rapidFire := 0; multiShot := 0; shield := 0 |};
     autoFireTimer := None |}.

Definition smallClot : Clot :=
  {| clot_x := 100; clot_y := 100; baseRadius := 47; radius := 12;
     minRadius := 10; shrinkAmount := 5; speed := 0.4;
     residenceTime := 0; hitFlash := 0;
     clot_difficultyMultiplier := 1; vx := 0;
     dropsPowerUp := true |}.

Definition twoPulsesGame : Game :=
  set_pulses [newPulse 100 100; newPulse 100 112]
    (set_clots [smallClot] twoClotsGame).

(** A session with one pulse about to reach a first clot and a second
    clot lower down, which the auto-fired pulses reach two frames later. *)
Definition sampleClot (x y : Q) : Clot :=
  {| clot_x := x; clot_y := y; baseRadius := 45; radius := 45;
     minRadius := 10; shrinkAmount := 5; speed := 0.4;
     residenceTime := 0; hitFlash := 0;
     clot_difficultyMultiplier := 1; vx := 0; dropsPowerUp := false |}.

Definition comboGame : Game :=
  set_pulses [newPulse 400 150]
    (set_clots [sampleClot 400 100; sampleClot 400 430]
       (startGame (newGame 800 600))).

(** Sample draws for concrete runs. *)
Definition sampleClotRand : ClotRand :=
  {| rnd_x := 0; rnd_baseRadius := 0; rnd_shrinkAmount := 0; rnd_speed := 0;
     rnd_vx := 0.5; rnd_drop := 0 |}.

Definition sampleRand : FrameRand :=
  {| rnd_spawn := sampleClotRand; rnd_extra1 := 0.5; rnd_spawn1 := sampleClotRand;
     rnd_extra2 := 0.5; rnd_spawn2 := sampleClotRand;
     rnd_powerUp := fun _ _ => 0 |}.

(** A particle as [emit] makes them and [update] keeps them: at most a
    full life left, and a decay of at least 0.02 per update. *)
Definition fresh (p : Particle) : Prop :=
  life p <= 1 /\ 0.02 <= particle_decay p.

(** The number of overlays that carry the class [active]. *)
Definition isActive (el : option bool) : nat :=
  match el with Some true => 1 | _ => 0 end.

Definition activeCount (o : OverlayController) : nat :=
  (isActive (startScreen o) + isActive (gameOverScreen o)
   + isActive (levelCompleteScreen o) + isActive (scienceModal o))%nat.

(** Successive [LevelTransition.update] calls. *)
Definition transition_updates (dts : list Q) (t : LevelTransition) : LevelTransition :=
  fold_left (fun t dt => transition_update dt t) dts t.

(** A draw of [Math.random()]: in [0, 1). *)
Definition unitDraw (r : Q) : Prop := 0 <= r /\ r < 1.

Definition validClotRand (r : ClotRand) : Prop :=
  unitDraw (rnd_x r) /\ unitDraw (rnd_baseRadius r) /\
  unitDraw (rnd_shrinkAmount r) /\ unitDraw (rnd_speed r) /\
  unitDraw (rnd_vx r) /\ unitDraw (rnd_drop r).

(** [n] frames of a list of pulses with nothing to hit. *)
Definition pulses_after (n : nat) (ps : list Pulse) : list Pulse :=
  Nat.iter n (filter_update pulse_update) ps.

(** The states the game is ever in. *)
Definition liveState (st : GAME_STATES) : Prop :=
  st = MENU \/ st = PLAYING \/ st = GAME_OVER \/ st = SCIENCE_MODAL.

(** The difficulty level is not negative and the multiplier is the one
    computed from it. *)
Definition difficultyOk (g : Game) : Prop :=
  (0 <= difficultyLevel g)%Z /\
  difficultyMultiplier g == Qmin (1 + inject_Z (difficultyLevel g) * 0.4) 4.

(** The pick-up test of the frame: the power-up is within its radius plus
    30 of the player's centre. *)
Definition inPickupRange (pl : Player) (pu : PowerUp) : bool :=
  sqrt_lt (powerup_x pu - player_x pl) (powerup_y pu - player_y pl)
          (powerup_radius + 30).

(** The combo is between 0 and its recorded maximum, and the score is
    not negative. *)
Definition comboOk (g : Game) : Prop :=
  (0 <= combo g)%Z /\ (combo g <= maxCombo g)%Z /\ (0 <= score g)%Z.

(** A clot in play: above its minimum radius and not above its base
    radius, with constants as the constructor sets them up to sign. *)
Definition inPlay (c : Clot) : Prop :=
  minRadius c < radius c /\ radius c <= baseRadius c /\
  0 <= minRadius c /\ 0 <= shrinkAmount c.

(** During a scan: every clot keeps its constants and a radius not above
    its base radius, and every clot not staged for removal is above its
    minimum radius. *)
Definition unstagedInPlay (cs : list Clot) (s : Scan) : Prop :=
  forall ci c, cs !! ci = Some c ->
    (radius c <= baseRadius c /\ 0 <= minRadius c /\ 0 <= shrinkAmount c) /\
    (ci ∉ clotsToRemove s -> minRadius c < radius c).

(** The draws of a frame are draws of [Math.random()]. *)
Definition validFrameRand (rnd : FrameRand) : Prop :=
  validClotRand (rnd_spawn rnd) /\ validClotRand (rnd_spawn1 rnd) /\
  validClotRand (rnd_spawn2 rnd).

(** An event as the browser delivers it: animation timestamps do not go
    back and the draws are in [0, 1). *)
Definition validEvent (e : Event) (g : Game) : Prop :=
  match e with
  | Frame currentTime rnd => lastTime g <= currentTime /\ validFrameRand rnd
  | _ => True
  end.

Fixpoint validRun (es : list Event) (g : Game) : Prop :=
  match es with
  | [] => True
  | e :: rest => validEvent e g /\ validRun rest (step e g)
  end.

(** The CRS value is in range and every clot is in play. *)
Definition gameOk (g : Game) : Prop :=
  crs_in_range (crs g) /\ Forall inPlay (clots g).

(** * Properties *)

(** ** Numbers *)

Lemma Qltb_lt x y : Qltb x y = true <-> x < y.
Proof.
  unfold Qltb. rewrite negb_true_iff.
  destruct (Qle_bool y x) eqn:E.
  - apply Qle_bool_iff in E. split; [discriminate | intros H; lra].
  - split; [intros _ | reflexivity].
    destruct (Qlt_le_dec x y) as [H | H]; [exact H |].
    apply Qle_bool_iff in H. congruence.
Qed.

Lemma Qltb_ge x y : Qltb x y = false <-> y <= x.
Proof.
  unfold Qltb. rewrite negb_false_iff. apply Qle_bool_iff.
Qed.

Lemma Qle_bool_gt x y : Qle_bool x y = false <-> y < x.
Proof.
  rewrite <- Qltb_lt. unfold Qltb.
  destruct (Qle_bool x y); simpl; split; congruence.
Qed.

Lemma Qmin_cases x y : (x <= y /\ Qmin x y == x) \/ (y < x /\ Qmin x y == y).
Proof.
  destruct (Q.min_spec x y) as [[H E] | [H E]].
  - left. split; [lra | exact E].
  - destruct (Qlt_le_dec y x) as [L | L].
    + right. split; assumption.
    + left. split; [exact L | lra].
Qed.

Lemma Qmax_cases x y : (y <= x /\ Qmax x y == x) \/ (x < y /\ Qmax x y == y).
Proof.
  destruct (Q.max_spec x y) as [[H E] | [H E]].
  - right. split; assumption.
  - left. split; assumption.
Qed.

Lemma Qmin_le_l x y : Qmin x y <= x.
Proof. destruct (Qmin_cases x y) as [[? ?] | [? ?]]; lra. Qed.

Lemma Qmax_ge_l x y : x <= Qmax x y.
Proof. destruct (Qmax_cases x y) as [[? ?] | [? ?]]; lra. Qed.

Lemma Qdiv_1000 x : x / 1000 == x * (1 # 1000).
Proof. reflexivity. Qed.

(** [sqrt_lt] is the comparison of the source, read over the reals. *)
Lemma sqrt_lt_real dx dy r :
  sqrt_lt dx dy r = true
  <-> (sqrt (Q2R dx * Q2R dx + Q2R dy * Q2R dy) < Q2R r)%R.
Proof.
  unfold sqrt_lt. rewrite andb_true_iff, !Qltb_lt.
  set (d := (Q2R dx * Q2R dx + Q2R dy * Q2R dy)%R).
  assert (Hd : (0 <= d)%R) by (unfold d; nra).
  assert (Hq : Q2R (dx * dx + dy * dy) = d).
  { unfold d. rewrite Q2R_plus, !Q2R_mult. reflexivity. }
  split.
  - intros [Hr Hlt]. apply Qlt_Rlt in Hr, Hlt.
    rewrite Hq, Q2R_mult in Hlt. rewrite RMicromega.Q2R_0 in Hr.
    rewrite <- (sqrt_square (Q2R r)) by lra.
    apply sqrt_lt_1; nra.
  - intros H. pose proof (sqrt_pos d) as Hs.
    split.
    + apply Rlt_Qlt. rewrite RMicromega.Q2R_0. lra.
    + apply Rlt_Qlt. rewrite Hq, Q2R_mult.
      rewrite <- (sqrt_sqrt d Hd). nra.
Qed.

Lemma circleCollision_real x1 y1 r1 x2 y2 r2 :
  circleCollision x1 y1 r1 x2 y2 r2 = true
  <-> (sqrt ((Q2R x2 - Q2R x1) * (Q2R x2 - Q2R x1)
             + (Q2R y2 - Q2R y1) * (Q2R y2 - Q2R y1)) < Q2R r1 + Q2R r2)%R.
Proof.
  unfold circleCollision. cbv zeta. rewrite sqrt_lt_real.
  rewrite Q2R_plus, !Q2R_minus. reflexivity.
Qed.

(** ** The model on small inputs *)

Example onClotDestroyed_half :
  crsValue (onClotDestroyed 0.5 {| crsValue := 10 |}) == 7.5 /\
  crsValue (onClotDestroyed 0.5 {| crsValue := 1 |}) == 0.
Proof. split; reflexivity. Qed.

Example crs_update_one_clot :
  crsValue (crs_update [HasGetScale 1] 1000 {| crsValue := 10 |}) == 12 /\
  crsValue (crs_update [RadiusOnly 100] 1000 {| crsValue := 99 |}) == 100.
Proof. split; reflexivity. Qed.

Example difficulty_after_12_seconds :
  let g := updateDifficulty 12000 (startGame (newGame 800 600)) in
  difficultyLevel g = 2%Z /\ difficultyMultiplier g == 1.8.
Proof. split; reflexivity. Qed.

Example difficulty_is_capped :
  difficultyMultiplier (updateDifficulty 60000 (startGame (newGame 800 600))) == 4.
Proof. reflexivity. Qed.

Example three_hits_on_a_clot :
  let c := newClot 100 (-80) 1 sampleClotRand in
  radius c == 45 /\ radius (fst (hits 3 c)) == 30 /\
  snd (hits 7 c) = [false; false; false; false; false; false; true].
Proof. repeat split; reflexivity. Qed.

Example collision_examples :
  circleCollision 0 0 8 3 4 45 = true /\
  circleCollision 0 0 8 30 40 42 = false /\
  circleCollision 0 0 8 0 0 (-8) = false.
Proof. repeat split; reflexivity. Qed.

(** ** The CRS value stays in range *)

Lemma residenceContribution_nonneg deltaTime clot :
  0 <= deltaTime -> 0 <= residenceContribution deltaTime clot.
Proof.
  intros Hdt. unfold residenceContribution.
  set (scale := match clot with HasGetScale sc => sc | RadiusOnly r => r / 50 end).
  rewrite Qdiv_1000.
  assert (Hsq : 0 <= scale * scale) by nra.
  nra.
Qed.

Lemma crsIncrease_nonneg deltaTime clots acc :
  0 <= deltaTime -> 0 <= acc ->
  0 <= fold_left (fun a clot => a + residenceContribution deltaTime clot) clots acc.
Proof.
  intros Hdt. revert acc.
  induction clots as [| clot clots IH]; intros acc Hacc; simpl; [exact Hacc |].
  apply IH. pose proof (residenceContribution_nonneg deltaTime clot Hdt). lra.
Qed.

Lemma crs_update_in_range clots deltaTime c :
  0 <= deltaTime -> crs_in_range c -> crs_in_range (crs_update clots deltaTime c).
Proof.
  intros Hdt [Hlo Hhi]. unfold crs_in_range, crs_update; simpl.
  pose proof (crsIncrease_nonneg deltaTime clots 0 Hdt (Qle_refl 0)) as Hinc.
  set (inc := fold_left _ clots 0) in *.
  unfold maxCRS.
  destruct (Qmin_cases 100 (crsValue c + inc)) as [[? E] | [? E]]; rewrite E; lra.
Qed.

Lemma onClotDestroyed_in_range clotScale c :
  0 <= clotScale -> crs_in_range c -> crs_in_range (onClotDestroyed clotScale c).
Proof.
  intros Hs [Hlo Hhi]. unfold crs_in_range, onClotDestroyed, recoveryRate; simpl.
  destruct (Qmax_cases 0 (crsValue c - 5 * clotScale)) as [[? E] | [? E]];
    rewrite E; lra.
Qed.

Lemma crs_reset_in_range c : crs_in_range (crs_reset c).
Proof. unfold crs_in_range; simpl. lra. Qed.

(** ** The CRS value on numbers with special values *)

Lemma overflowAt_pos : 100 < IEEE.overflowAt.
Proof. reflexivity. Qed.

Lemma rounded_nonneg q : 0 <= q -> IEEE.nonneg (IEEE.rounded q).
Proof.
  intros H. unfold IEEE.rounded.
  destruct (Qle_bool IEEE.overflowAt q); [exact I |].
  destruct (Qle_bool q (- IEEE.overflowAt)) eqn:E.
  - apply Qle_bool_iff in E. pose proof overflowAt_pos. cbn. lra.
  - destruct (Qle_bool (Qabs q) IEEE.underflowAt); cbn; lra.
Qed.

(** A rounded number that is at most 100 is finite and at most 100, or
    [-Infinity]. *)
Lemma rounded_le_100 q :
  q <= 100 ->
  match IEEE.rounded q with
  | IEEE.Finite x => x <= 100
  | IEEE.NegInfinity => True
  | _ => False
  end.
Proof.
  intros H. unfold IEEE.rounded.
  destruct (Qle_bool IEEE.overflowAt q) eqn:E1.
  - apply Qle_bool_iff in E1. pose proof overflowAt_pos. lra.
  - destruct (Qle_bool q (- IEEE.overflowAt)); [exact I |].
    destruct (Qle_bool (Qabs q) IEEE.underflowAt); lra.
Qed.

Lemma add_nonneg a b : IEEE.nonneg a -> IEEE.nonneg b -> IEEE.nonneg (IEEE.add a b).
Proof.
  destruct a as [x | | |], b as [y | | |]; cbn [IEEE.nonneg IEEE.add];
    try tauto.
  intros Hx Hy. apply rounded_nonneg. lra.
Qed.

Lemma mul_finite_nonneg x y :
  0 <= x -> 0 <= y -> IEEE.nonneg (IEEE.mul (IEEE.Finite x) (IEEE.Finite y)).
Proof.
  intros Hx Hy. cbn [IEEE.mul]. apply rounded_nonneg. nra.
Qed.

Lemma mul_2_nonneg a : IEEE.nonneg a -> IEEE.nonneg (IEEE.mul a (IEEE.Finite 2)).
Proof.
  destruct a as [x | | |]; cbn [IEEE.nonneg]; try tauto; intros H.
  all: first [apply mul_finite_nonneg; lra | exact I].
Qed.

(** The square of a scale with a finite square is finite and not negative. *)
Lemma mass_finite a :
  IEEE.squareFinite a -> exists m, IEEE.mul a a = IEEE.Finite m /\ 0 <= m.
Proof.
  destruct a as [q | | |]; cbn [IEEE.squareFinite]; try tauto. intros H.
  cbn [IEEE.mul]. unfold IEEE.rounded.
  assert (Hsq : 0 <= q * q) by nra.
  destruct (Qle_bool IEEE.overflowAt (q * q)) eqn:E1.
  - apply Qle_bool_iff in E1. lra.
  - destruct (Qle_bool (q * q) (- IEEE.overflowAt)) eqn:E2.
    + apply Qle_bool_iff in E2. pose proof overflowAt_pos. lra.
    + destruct (Qle_bool (Qabs (q * q)) IEEE.underflowAt);
        eexists; (split; [reflexivity | lra]).
Qed.

(** A finite elapsed time that is not negative, in seconds. *)
Lemma seconds_finite a :
  IEEE.finite a -> IEEE.nonneg a ->
  exists s, IEEE.div a (IEEE.Finite 1000) = IEEE.Finite s /\ 0 <= s.
Proof.
  destruct a as [q | | |]; cbn [IEEE.finite IEEE.nonneg]; try tauto.
  intros [_ Hhi] H0. cbn [IEEE.div].
  change (Qeq_bool 1000 0) with false. cbv iota.
  assert (Hq : q / 1000 == q * (1 # 1000)) by reflexivity.
  unfold IEEE.rounded.
  destruct (Qle_bool IEEE.overflowAt (q / 1000)) eqn:E1.
  - apply Qle_bool_iff in E1. lra.
  - destruct (Qle_bool (q / 1000) (- IEEE.overflowAt)) eqn:E2.
    + apply Qle_bool_iff in E2. pose proof overflowAt_pos. lra.
    + destruct (Qle_bool (Qabs (q / 1000)) IEEE.underflowAt);
        eexists; (split; [reflexivity | lra]).
Qed.

Lemma IEEE_residenceContribution_nonneg deltaTime clot :
  IEEE.finite deltaTime -> IEEE.nonneg deltaTime ->
  IEEE.squareFinite (IEEE.scaleOf clot) ->
  IEEE.nonneg (IEEE.residenceContribution deltaTime clot).
Proof.
  intros Hf Hn Hs. unfold IEEE.residenceContribution. cbv zeta.
  destruct (mass_finite _ Hs) as (m & -> & Hm).
  destruct (seconds_finite _ Hf Hn) as (s & -> & Hsec).
  apply mul_2_nonneg, mul_finite_nonneg; assumption.
Qed.

Lemma IEEE_crsIncrease_nonneg deltaTime clots :
  IEEE.finite deltaTime -> IEEE.nonneg deltaTime ->
  Forall (fun clot => IEEE.squareFinite (IEEE.scaleOf clot)) clots ->
  forall acc, IEEE.nonneg acc ->
    IEEE.nonneg
      (fold_left (fun acc clot => IEEE.add acc (IEEE.residenceContribution deltaTime clot))
                 clots acc).
Proof.
  intros Hf Hn. induction 1 as [| clot clots Hc _ IH]; intros acc Hacc;
    cbn [fold_left]; [exact Hacc |].
  apply IH, add_nonneg; [exact Hacc |].
  apply IEEE_residenceContribution_nonneg; assumption.
Qed.

Lemma IEEE_update_in_range clots deltaTime c :
  IEEE.finite deltaTime -> IEEE.nonneg deltaTime ->
  Forall (fun clot => IEEE.squareFinite (IEEE.scaleOf clot)) clots ->
  IEEE.in_range c -> IEEE.in_range (IEEE.update clots deltaTime c).
Proof.
  intros Hf Hn Hs Hc. unfold IEEE.in_range in *. unfold IEEE.update. cbv zeta.
  cbn [IEEE.crsValue].
  pose proof (IEEE_crsIncrease_nonneg deltaTime clots Hf Hn Hs (IEEE.Finite 0)
                (Qle_refl 0)) as Hinc.
  destruct (IEEE.crsValue c) as [v | | |]; try contradiction.
  destruct Hc as [H0 H100].
  assert (Hsum : IEEE.nonneg (IEEE.add (IEEE.Finite v) (fold_left
            (fun acc clot => IEEE.add acc (IEEE.residenceContribution deltaTime clot))
            clots (IEEE.Finite 0)))) by (apply add_nonneg; assumption).
  destruct (IEEE.add _ _) as [y | | |]; cbn [IEEE.nonneg] in Hsum; try contradiction.
  - cbn [IEEE.Math_min IEEE.maxCRS].
    destruct (Q.min_spec 100 y) as [[? E] | [? E]]; rewrite E; lra.
  - cbn [IEEE.Math_min IEEE.maxCRS]. lra.
Qed.

Lemma IEEE_onClotDestroyed_in_range clotScale c :
  IEEE.nonneg clotScale -> IEEE.in_range c ->
  IEEE.in_range (IEEE.onClotDestroyed clotScale c).
Proof.
  intros Hs Hc. unfold IEEE.in_range in *. unfold IEEE.onClotDestroyed. cbv zeta.
  cbn [IEEE.crsValue].
  destruct (IEEE.crsValue c) as [v | | |]; try contradiction.
  destruct Hc as [H0 H100].
  assert (Hred : IEEE.nonneg (IEEE.mul IEEE.recoveryRate clotScale)).
  { destruct clotScale as [s | | |]; cbn [IEEE.nonneg] in Hs; try contradiction.
    - apply mul_finite_nonneg; lra.
    - exact I. }
  destruct (IEEE.mul IEEE.recoveryRate clotScale) as [r | | |];
    cbn [IEEE.nonneg] in Hred; try contradiction.
  - cbn [IEEE.sub IEEE.neg IEEE.add].
    assert (Hle : v + - r <= 100) by lra.
    pose proof (rounded_le_100 _ Hle) as Hr.
    destruct (IEEE.rounded (v + - r)) as [x | | |]; try contradiction.
    + cbn [IEEE.Math_max].
      destruct (Q.max_spec 0 x) as [[? E] | [? E]]; rewrite E; lra.
    + cbn [IEEE.Math_max]. lra.
  - cbn [IEEE.sub IEEE.neg IEEE.add IEEE.Math_max]. lra.
Qed.

Lemma IEEE_call_in_range k c :
  IEEE.valid_call k -> IEEE.in_range c -> IEEE.in_range (IEEE.call k c).
Proof.
  destruct k as [clots deltaTime | clotScale]; cbn [IEEE.valid_call IEEE.call].
  - intros (Hf & Hn & Hs). apply IEEE_update_in_range; assumption.
  - apply IEEE_onClotDestroyed_in_range.
Qed.

Lemma IEEE_trace_in_range ks :
  forall c, Forall IEEE.valid_call ks -> IEEE.in_range c ->
            Forall IEEE.in_range (IEEE.trace ks c).
Proof.
  induction ks as [| k ks IH]; intros c Hks Hc; cbn [IEEE.trace]; [constructor |].
  inversion Hks as [| ? ? Hk Hrest]; subst.
  pose proof (IEEE_call_in_range k c Hk Hc) as Hc'.
  constructor; [exact Hc' | apply IH; assumption].
Qed.

(** Once the value is [NaN] it stays [NaN], whatever is called. *)
Lemma IEEE_NaN_is_kept ks :
  forall c, IEEE.crsValue c = IEEE.NaN ->
            Forall (fun c' => IEEE.crsValue c' = IEEE.NaN) (IEEE.trace ks c).
Proof.
  induction ks as [| k ks IH]; intros c Hc; cbn [IEEE.trace]; [constructor |].
  assert (Hc' : IEEE.crsValue (IEEE.call k c) = IEEE.NaN).
  { destruct k as [clots deltaTime | clotScale]; cbn [IEEE.call].
    - unfold IEEE.update. cbv zeta. cbn [IEEE.crsValue]. rewrite Hc. reflexivity.
    - unfold IEEE.onClotDestroyed. cbv zeta. cbn [IEEE.crsValue]. rewrite Hc.
      unfold IEEE.sub. cbn [IEEE.add]. reflexivity. }
  constructor; [exact Hc' | apply IH, Hc'].
Qed.

(** C1, as the code has it.  Starting from a reset calculator, after every
    call of a sequence of [update(clots, deltaTime)] and
    [onClotDestroyed(scale)] calls the CRS value lies in [0, 100], when
    each [deltaTime] is finite and not negative, each scale read by
    [update] has a finite square, and each destroyed-clot scale is not
    negative ([Infinity] included).  A value that has become [NaN] stays
    [NaN] through every later call. *)
Theorem crs_value_stays_in_range (ks : list IEEE.CRSCall) (c : IEEE.CRSCalculator) :
  (Forall IEEE.valid_call ks ->
   Forall IEEE.in_range (IEEE.trace ks (IEEE.reset c))) /\
  (IEEE.crsValue c = IEEE.NaN ->
   Forall (fun c' => IEEE.crsValue c' = IEEE.NaN) (IEEE.trace ks c)).
Proof.
  split.
  - intros Hks. apply IEEE_trace_in_range; [exact Hks |].
    unfold IEEE.in_range. cbn. lra.
  - apply IEEE_NaN_is_kept.
Qed.

Lemma crs_value_stays_in_range_witness :
  let ks := [IEEE.CallUpdate [IEEE.HasGetScale (IEEE.Finite 1);
                              IEEE.RadiusOnly (IEEE.Finite 60)] (IEEE.Finite 32);
             IEEE.CallOnClotDestroyed (IEEE.Finite 0.5);
             IEEE.CallUpdate [IEEE.HasGetScale (IEEE.Finite (inject_Z (10 ^ 150)))]
                             (IEEE.Finite 0);
             IEEE.CallUpdate [IEEE.HasGetScale (IEEE.Finite 40)] (IEEE.Finite 32000);
             IEEE.CallOnClotDestroyed IEEE.PosInfinity] in
  let lost := {| IEEE.crsValue := IEEE.NaN |} in
  Forall IEEE.valid_call ks /\
  Forall IEEE.in_range (IEEE.trace ks (IEEE.reset IEEE.newCRSCalculator)) /\
  Forall (fun c' => IEEE.crsValue c' = IEEE.NaN) (IEEE.trace ks lost).
Proof.
  intros ks lost.
  assert (Hks : Forall IEEE.valid_call ks).
  { repeat constructor; vm_compute; first [reflexivity | discriminate]. }
  destruct (crs_value_stays_in_range ks IEEE.newCRSCalculator) as [H _].
  destruct (crs_value_stays_in_range ks lost) as [_ H'].
  split; [exact Hks |]. split; [exact (H Hks) | exact (H' eq_refl)].
Defined.

(** The claim as stated fails at a scale whose square overflows: with
    [getScale() = 1e200] and [deltaTime = 0] the mass is [Infinity], the
    contribution [Infinity * 0] is [NaN], and [Math.min(100, NaN)] is
    [NaN]. *)
Lemma crs_nan_on_overflowing_scale :
  let scale := IEEE.Finite (inject_Z (10 ^ 200)) in
  let ks := [IEEE.CallUpdate [IEEE.HasGetScale scale] (IEEE.Finite 0)] in
  IEEE.finite scale /\ Forall IEEE.nonneg_call ks /\
  IEEE.trace ks (IEEE.reset IEEE.newCRSCalculator)
    = [{| IEEE.crsValue := IEEE.NaN |}] /\
  ~ Forall IEEE.in_range (IEEE.trace ks (IEEE.reset IEEE.newCRSCalculator)).
Proof.
  intros scale ks.
  assert (Ht : IEEE.trace ks (IEEE.reset IEEE.newCRSCalculator)
               = [{| IEEE.crsValue := IEEE.NaN |}]) by (vm_compute; reflexivity).
  split; [split; reflexivity |].
  split; [repeat constructor; discriminate |].
  split; [exact Ht |].
  rewrite Ht. intros H. inversion H as [| ? ? Hin _]. exact Hin.
Qed.

(** ** Clot.hit *)

Lemma hit_radius c : radius (fst (hit c)) = radius c - shrinkAmount c.
Proof. reflexivity. Qed.

Lemma hit_shrinkAmount c : shrinkAmount (fst (hit c)) = shrinkAmount c.
Proof. reflexivity. Qed.

Lemma hit_minRadius c : minRadius (fst (hit c)) = minRadius c.
Proof. reflexivity. Qed.

Lemma hit_destroyed c :
  snd (hit c) = true <-> radius (fst (hit c)) <= minRadius (fst (hit c)).
Proof. simpl. apply Qle_bool_iff. Qed.

Lemma hits_S n c :
  fst (hits (S n) c) = fst (hits n (fst (hit c))).
Proof. simpl. destruct (hits n _); reflexivity. Qed.

Lemma hits_shrinkAmount n :
  forall c, shrinkAmount (fst (hits n c)) = shrinkAmount c.
Proof.
  induction n as [| n IH]; intros c; [reflexivity |].
  rewrite hits_S, IH. apply hit_shrinkAmount.
Qed.

Lemma hits_minRadius n :
  forall c, minRadius (fst (hits n c)) = minRadius c.
Proof.
  induction n as [| n IH]; intros c; [reflexivity |].
  rewrite hits_S, IH. apply hit_minRadius.
Qed.

Lemma hits_radius n :
  forall c, radius (fst (hits n c)) == radius c - inject_Z (Z.of_nat n) * shrinkAmount c.
Proof.
  induction n as [| n IH]; intros c.
  - change (fst (hits 0 c)) with c. change (inject_Z (Z.of_nat 0)) with 0. lra.
  - rewrite hits_S, IH, hit_radius, hit_shrinkAmount.
    rewrite Nat2Z.inj_succ, <- Z.add_1_r, inject_Z_plus.
    change (inject_Z 1) with 1. lra.
Qed.

(** The constructor draws [shrinkAmount] from [5, 8). *)
Lemma newClot_shrinkAmount x y dm r :
  0 <= rnd_shrinkAmount r -> rnd_shrinkAmount r < 1 ->
  5 <= shrinkAmount (newClot x y dm r) /\ shrinkAmount (newClot x y dm r) < 8.
Proof. simpl. intros. lra. Qed.

Lemma isClot_shrinkAmount c : isClot c -> 5 <= shrinkAmount c.
Proof.
  induction 1 as [x y dm r Hr | dt w c _ IH | c _ IH].
  - cbn [newClot shrinkAmount]. lra.
  - exact IH.
  - rewrite hit_shrinkAmount. exact IH.
Qed.

(** Successive hits on a clot whose shrink amount is not negative. *)
Lemma hit_after_hits (c : Clot) (n : nat) :
  0 <= shrinkAmount c ->
  let before := fst (hits n c) in
  let after := fst (hit before) in
  radius after == radius before - shrinkAmount c /\
  radius after <= radius before /\
  radius before <= radius c /\
  shrinkAmount after = shrinkAmount c /\
  minRadius after = minRadius c /\
  (snd (hit before) = true <-> radius after <= minRadius c).
Proof.
  intros Hs before after.
  pose proof (hits_shrinkAmount n c) as Hsh.
  pose proof (hits_minRadius n c) as Hmin.
  pose proof (hits_radius n c) as Hrad.
  fold before in Hsh, Hmin, Hrad.
  assert (Hn : 0 <= inject_Z (Z.of_nat n)).
  { change 0 with (inject_Z 0). rewrite <- Zle_Qle. lia. }
  assert (Hr : radius after == radius before - shrinkAmount c).
  { unfold after. rewrite hit_radius, Hsh. reflexivity. }
  repeat split.
  - exact Hr.
  - lra.
  - nra.
  - unfold after. rewrite hit_shrinkAmount. exact Hsh.
  - unfold after. rewrite hit_minRadius. exact Hmin.
  - intros Hd. apply hit_destroyed in Hd. fold after in Hd.
    unfold after in Hd at 2. rewrite hit_minRadius, Hmin in Hd. exact Hd.
  - intros Hle. apply hit_destroyed. fold after.
    unfold after at 2. rewrite hit_minRadius, Hmin. exact Hle.
Qed.

(** C4.  For every clot of the game and every sequence of [hit()] calls:
    each call lowers the radius by the clot's [shrinkAmount], fixed when
    the clot was built, so the radius never increases, and the call
    returns true exactly when the resulting radius is at most
    [minRadius]. *)
Theorem hit_radius_non_increasing (c : Clot) (n : nat) :
  isClot c ->
  let before := fst (hits n c) in
  let after := fst (hit before) in
  radius after == radius before - shrinkAmount c /\
  radius after <= radius before /\
  radius before <= radius c /\
  shrinkAmount after = shrinkAmount c /\
  minRadius after = minRadius c /\
  (snd (hit before) = true <-> radius after <= minRadius c).
Proof.
  intros Hc. apply hit_after_hits.
  pose proof (isClot_shrinkAmount c Hc). lra.
Qed.

Lemma hit_radius_non_increasing_witness :
  let c := clot_update 16 800 (newClot 100 (-80) 1 sampleClotRand) in
  isClot c /\
  (let before := fst (hits 5 c) in
   let after := fst (hit before) in
   radius after == radius before - shrinkAmount c /\
   radius after <= radius before /\
   radius before <= radius c /\
   shrinkAmount after = shrinkAmount c /\
   minRadius after = minRadius c /\
   (snd (hit before) = true <-> radius after <= minRadius c)).
Proof.
  intros c.
  assert (Hc : isClot c).
  { apply isClot_update, isClot_new. discriminate. }
  split; [exact Hc | exact (hit_radius_non_increasing c 5 Hc)].
Defined.

(** ** Score of a hit *)


(** ** The pulse cap of [fire] *)

(** Reading a field after an assignment. *)
Ltac fields :=
  cbn [canvas_width canvas_height player pulses clots powerUps crs state
       level score pulseCooldown spawnTimer lastTime gameTime wasCritical
       difficultyTimer difficultyLevel difficultyMultiplier combo comboTimer
       maxCombo activePowerUps autoFireTimer set_canvas_width
       set_canvas_height set_player set_pulses set_clots set_powerUps set_crs
       set_state set_level set_score set_pulseCooldown set_spawnTimer
       set_lastTime set_gameTime set_wasCritical set_difficultyTimer
       set_difficultyLevel set_difficultyMultiplier set_combo set_comboTimer
       set_maxCombo set_activePowerUps set_autoFireTimer].

Ltac fields_in H :=
  cbn [canvas_width canvas_height player pulses clots powerUps crs state
       level score pulseCooldown spawnTimer lastTime gameTime wasCritical
       difficultyTimer difficultyLevel difficultyMultiplier combo comboTimer
       maxCombo activePowerUps autoFireTimer set_canvas_width
       set_canvas_height set_player set_pulses set_clots set_powerUps set_crs
       set_state set_level set_score set_pulseCooldown set_spawnTimer
       set_lastTime set_gameTime set_wasCritical set_difficultyTimer
       set_difficultyLevel set_difficultyMultiplier set_combo set_comboTimer
       set_maxCombo set_activePowerUps set_autoFireTimer] in H.

Ltac case_ifs :=
  repeat match goal with
         | |- context [if ?b then _ else _] => destruct b eqn:?
         end.

Lemma fire_pulses_length g :
  (length (pulses g) <= 22)%nat -> (length (pulses (fire g)) <= 22)%nat.
Proof.
  intros H. unfold fire.
  destruct (negb (playing g)); [exact H |].
  destruct (Nat.ltb_spec (length (pulses g)) 20); [| exact H].
  destruct (Qgtb _ _); simpl; rewrite length_app; simpl; lia.
Qed.

Lemma filter_update_length {A} (upd : A -> A * bool) (xs : list A) :
  (length (filter_update upd xs) <= length xs)%nat.
Proof.
  induction xs as [| x xs IH]; simpl; [lia |].
  destruct (upd x) as [x' keep]. destruct keep; simpl; lia.
Qed.

Lemma remove_indices_length {A} (removed : gset nat) (xs : list A) :
  forall i, (length (remove_indices removed i xs) <= length xs)%nat.
Proof.
  induction xs as [| x xs IH]; intros i; simpl; [lia |].
  specialize (IH (S i)). destruct (bool_decide _); simpl; lia.
Qed.

(** The frame as a composition of its phases. *)
Lemma beforeCollisions_eq deltaTime rnd g :
  beforeCollisions deltaTime rnd g =
  updateClots deltaTime
    (spawnClots deltaTime rnd
       (updatePulses
          (autoFire deltaTime
             (updatePlayer deltaTime
                (updateDifficulty deltaTime
                   (set_gameTime (gameTime g + deltaTime) g)))))).
Proof. reflexivity. Qed.

Lemma afterCollisions_eq deltaTime g :
  afterCollisions deltaTime g =
  updatePowerUpTimers deltaTime
    (updateComboTimer deltaTime
       (collectPowerUps
          (updatePowerUps deltaTime
             (checkGameOver
                (checkCritical
                   (updateCRS deltaTime (removeEscaped g))))))).
Proof. reflexivity. Qed.

Lemma update_playing deltaTime rnd g :
  playing g = true ->
  update deltaTime rnd g = afterCollisions deltaTime (afterScan deltaTime rnd g).
Proof. intros H. unfold update. rewrite H. reflexivity. Qed.

Lemma update_not_playing deltaTime rnd g :
  playing g = false -> update deltaTime rnd g = g.
Proof. intros H. unfold update. rewrite H. reflexivity. Qed.

(** A phase that is a conditional chain of field assignments leaves the
    other fields alone. *)
Ltac phase :=
  intros;
  unfold updatePowerUpTimers, updateComboTimer, updatePowerUps, checkGameOver,
    checkCritical, updateCRS, updateClots, spawnClots, spawnClot, updatePulses,
    updatePlayer, updateDifficulty, applyPowerUp, autoFire, fire, removeEscaped;
  fields;
  repeat match goal with
         | |- context [filterEscaped ?h ?cs ?c] => destruct (filterEscaped h cs c)
         end;
  case_ifs; fields; try reflexivity.

Lemma applyPowerUp_pulses key g : pulses (applyPowerUp key g) = pulses g.
Proof. destruct key as [[] |]; reflexivity. Qed.

Lemma filterCollected_pulses pus :
  forall g, pulses (snd (filterCollected pus g)) = pulses g.
Proof.
  induction pus as [| pu pus IH]; intros g; simpl; [reflexivity |].
  destruct (sqrt_lt _ _ _).
  - rewrite IH. apply applyPowerUp_pulses.
  - specialize (IH g). destruct (filterCollected pus g). exact IH.
Qed.

Lemma collectPowerUps_pulses g : pulses (collectPowerUps g) = pulses g.
Proof.
  unfold collectPowerUps.
  pose proof (filterCollected_pulses (powerUps g) g) as H.
  destruct (filterCollected (powerUps g) g) as [pus g']. exact H.
Qed.

Lemma removeEscaped_pulses g : pulses (removeEscaped g) = pulses g.
Proof. unfold removeEscaped. destruct (filterEscaped _ _ _). reflexivity. Qed.

Lemma updatePowerUpTimers_pulses dt g :
  pulses (updatePowerUpTimers dt g) = pulses g.
Proof. phase. Qed.
Lemma updateComboTimer_pulses dt g : pulses (updateComboTimer dt g) = pulses g.
Proof. phase. Qed.
Lemma updatePowerUps_pulses dt g : pulses (updatePowerUps dt g) = pulses g.
Proof. phase. Qed.
Lemma checkGameOver_pulses g : pulses (checkGameOver g) = pulses g.
Proof. phase. Qed.
Lemma checkCritical_pulses g : pulses (checkCritical g) = pulses g.
Proof. phase. Qed.
Lemma updateCRS_pulses dt g : pulses (updateCRS dt g) = pulses g.
Proof. phase. Qed.
Lemma updateClots_pulses dt g : pulses (updateClots dt g) = pulses g.
Proof. phase. Qed.
Lemma spawnClots_pulses dt rnd g : pulses (spawnClots dt rnd g) = pulses g.
Proof. phase. Qed.
Lemma updatePlayer_pulses dt g : pulses (updatePlayer dt g) = pulses g.
Proof. phase. Qed.
Lemma updateDifficulty_pulses dt g : pulses (updateDifficulty dt g) = pulses g.
Proof. phase. Qed.

Lemma afterCollisions_pulses deltaTime g :
  pulses (afterCollisions deltaTime g) = pulses g.
Proof.
  rewrite afterCollisions_eq, updatePowerUpTimers_pulses, updateComboTimer_pulses,
    collectPowerUps_pulses, updatePowerUps_pulses, checkGameOver_pulses,
    checkCritical_pulses, updateCRS_pulses, removeEscaped_pulses.
  reflexivity.
Qed.

Lemma checkCollisions_pulses_length rnd g :
  (length (pulses (checkCollisions rnd g)) <= length (pulses g))%nat.
Proof.
  unfold checkCollisions. destruct (collisionScan rnd g) as [cs s]. fields.
  apply remove_indices_length.
Qed.

Lemma autoFire_pulses_length deltaTime g :
  (length (pulses g) <= 22)%nat ->
  (length (pulses (autoFire deltaTime g)) <= 22)%nat.
Proof.
  intros H. unfold autoFire.
  match goal with |- context [if ?b then _ else _] => destruct b end.
  - fields. apply fire_pulses_length. exact H.
  - exact H.
Qed.

Lemma updatePulses_pulses_length g :
  (length (pulses (updatePulses g)) <= length (pulses g))%nat.
Proof. unfold updatePulses. fields. apply filter_update_length. Qed.

Lemma beforeCollisions_pulses_length deltaTime rnd g :
  (length (pulses g) <= 22)%nat ->
  (length (pulses (beforeCollisions deltaTime rnd g)) <= 22)%nat.
Proof.
  intros H.
  rewrite beforeCollisions_eq, updateClots_pulses, spawnClots_pulses.
  etransitivity; [apply updatePulses_pulses_length |].
  apply autoFire_pulses_length.
  rewrite updatePlayer_pulses, updateDifficulty_pulses. exact H.
Qed.

Lemma update_pulses_length deltaTime rnd g :
  (length (pulses g) <= 22)%nat ->
  (length (pulses (update deltaTime rnd g)) <= 22)%nat.
Proof.
  intros H. destruct (playing g) eqn:Hp.
  - rewrite (update_playing _ _ _ Hp), afterCollisions_pulses. unfold afterScan.
    etransitivity; [apply checkCollisions_pulses_length |].
    apply beforeCollisions_pulses_length, H.
  - rewrite (update_not_playing _ _ _ Hp). exact H.
Qed.

Lemma step_pulses_length e g :
  (length (pulses g) <= 22)%nat -> (length (pulses (step e g)) <= 22)%nat.
Proof.
  intros H. destruct e; simpl.
  - unfold gameLoop. apply update_pulses_length. exact H.
  - apply fire_pulses_length. exact H.
  - unfold handleMouse. case_ifs; simpl; exact H.
  - unfold handleTouch. destruct (negb (playing g)); [exact H |].
    destruct touchstart; [apply fire_pulses_length |]; exact H.
  - exact H.
  - simpl. lia.
  - unfold nextLevel. case_ifs; simpl; [exact H | lia].
  - exact H.
Qed.

Lemma run_pulses_length es :
  forall g, (length (pulses g) <= 22)%nat -> (length (pulses (run es g)) <= 22)%nat.
Proof.
  unfold run. induction es as [| e es IH]; intros g H; simpl; [exact H |].
  apply IH, step_pulses_length, H.
Qed.

(** C10.  In the Playing state [fire()] appends projectiles only when
    fewer than 20 are live, one normally and three at once while
    multi-shot is active, and changes nothing at 20 or more; so in every
    run of the game the number of live projectiles is at most 22. *)
Theorem fire_limits_live_pulses :
  (forall g, playing g = true ->
     let p := player g in
     let y := player_y p - player_height / 2 in
     if (length (pulses g) <? 20)%nat then
       if Qgtb (multiShot (activePowerUps g)) 0 then
         fire g = set_pulses (pulses g ++ [newPulse (player_x p - 15) y;
                                           newPulse (player_x p) y;
                                           newPulse (player_x p + 15) y]) g
       else
         fire g = set_pulses (pulses g ++ [newPulse (player_x p) y]) g
     else fire g = g) /\
  (forall es width height,
     (length (pulses (run es (newGame width height))) <= 22)%nat).
Proof.
  split.
  - intros g Hp. unfold fire. rewrite Hp. simpl. case_ifs; reflexivity.
  - intros es width height. apply run_pulses_length. simpl. lia.
Qed.

Lemma fire_limits_live_pulses_witness :
  let g := startGame (newGame 800 600) in
  playing g = true /\
  fire g = set_pulses (pulses g ++ [newPulse (player_x (player g))
                                      (player_y (player g) - player_height / 2)]) g /\
  (length (pulses (run [StartButton; Click; Click] (newGame 800 600))) <= 22)%nat.
Proof.
  intros g. destruct fire_limits_live_pulses as [Hfire Hcap].
  split; [reflexivity |]. split.
  - exact (Hfire g eq_refl).
  - apply Hcap.
Defined.

(** ** startGame *)

(** C9.  [startGame] enters Playing and restores the score, the CRS
    value, the three entity collections, the spawn, difficulty, combo and
    pulse-cooldown timers, the combo and max-combo counters and the active
    power-up durations to their initial values, but it does not assign
    [autoFireTimer]: the auto-fire timer keeps the value it had.  After a
    first session of one frame it is 32 instead of its initial absent
    value. *)
Theorem startGame_keeps_autoFireTimer :
  (forall g, let g' := startGame g in
     state g' = PLAYING /\ score g' = 0%Z /\ crsValue (crs g') = 0 /\
     pulses g' = [] /\ clots g' = [] /\ powerUps g' = [] /\
     spawnTimer g' = 0 /\ difficultyTimer g' = 0 /\ comboTimer g' = 0 /\
     pulseCooldown g' = 0 /\ combo g' = 0%Z /\ maxCombo g' = 0%Z /\
     activePowerUps g' = {| rapidFire := 0; multiShot := 0; shield := 0 |} /\
     autoFireTimer g' = autoFireTimer g) /\
  autoFireTimer (newGame 800 600) = None /\
  autoFireTimer (run [StartButton; Frame 100 sampleRand; StartButton]
                     (newGame 800 600)) = Some 32.
Proof.
  split; [| split].
  - intros g. repeat split.
  - reflexivity.
  - vm_compute. reflexivity.
Qed.

(** ** What each phase of the frame leaves alone *)

Lemma updateDifficulty_activePowerUps dt g :
  activePowerUps (updateDifficulty dt g) = activePowerUps g.
Proof. phase. Qed.
Lemma updateDifficulty_combo dt g : combo (updateDifficulty dt g) = combo g.
Proof. phase. Qed.
Lemma updateDifficulty_comboTimer dt g :
  comboTimer (updateDifficulty dt g) = comboTimer g.
Proof. phase. Qed.
Lemma updateDifficulty_state dt g : state (updateDifficulty dt g) = state g.
Proof. phase. Qed.
Lemma updateDifficulty_crs dt g : crs (updateDifficulty dt g) = crs g.
Proof. phase. Qed.
Lemma updatePlayer_activePowerUps dt g :
  activePowerUps (updatePlayer dt g) = activePowerUps g.
Proof. phase. Qed.
Lemma updatePlayer_combo dt g : combo (updatePlayer dt g) = combo g.
Proof. phase. Qed.
Lemma updatePlayer_comboTimer dt g :
  comboTimer (updatePlayer dt g) = comboTimer g.
Proof. phase. Qed.
Lemma updatePlayer_state dt g : state (updatePlayer dt g) = state g.
Proof. phase. Qed.
Lemma updatePlayer_crs dt g : crs (updatePlayer dt g) = crs g.
Proof. phase. Qed.
Lemma autoFire_activePowerUps dt g :
  activePowerUps (autoFire dt g) = activePowerUps g.
Proof. phase. Qed.
Lemma autoFire_combo dt g : combo (autoFire dt g) = combo g.
Proof. phase. Qed.
Lemma autoFire_comboTimer dt g : comboTimer (autoFire dt g) = comboTimer g.
Proof. phase. Qed.
Lemma autoFire_state dt g : state (autoFire dt g) = state g.
Proof. phase. Qed.
Lemma autoFire_crs dt g : crs (autoFire dt g) = crs g.
Proof. phase. Qed.
Lemma updatePulses_activePowerUps g :
  activePowerUps (updatePulses g) = activePowerUps g.
Proof. phase. Qed.
Lemma updatePulses_combo g : combo (updatePulses g) = combo g.
Proof. phase. Qed.
Lemma updatePulses_comboTimer g : comboTimer (updatePulses g) = comboTimer g.
Proof. phase. Qed.
Lemma updatePulses_state g : state (updatePulses g) = state g.
Proof. phase. Qed.
Lemma updatePulses_crs g : crs (updatePulses g) = crs g.
Proof. phase. Qed.
Lemma spawnClots_activePowerUps dt rnd g :
  activePowerUps (spawnClots dt rnd g) = activePowerUps g.
Proof. phase. Qed.
Lemma spawnClots_combo dt rnd g : combo (spawnClots dt rnd g) = combo g.
Proof. phase. Qed.
Lemma spawnClots_comboTimer dt rnd g :
  comboTimer (spawnClots dt rnd g) = comboTimer g.
Proof. phase. Qed.
Lemma spawnClots_state dt rnd g : state (spawnClots dt rnd g) = state g.
Proof. phase. Qed.
Lemma spawnClots_crs dt rnd g : crs (spawnClots dt rnd g) = crs g.
Proof. phase. Qed.
Lemma updateClots_activePowerUps dt g :
  activePowerUps (updateClots dt g) = activePowerUps g.
Proof. phase. Qed.
Lemma updateClots_combo dt g : combo (updateClots dt g) = combo g.
Proof. phase. Qed.
Lemma updateClots_comboTimer dt g :
  comboTimer (updateClots dt g) = comboTimer g.
Proof. phase. Qed.
Lemma updateClots_state dt g : state (updateClots dt g) = state g.
Proof. phase. Qed.
Lemma updateClots_crs dt g : crs (updateClots dt g) = crs g.
Proof. phase. Qed.
Lemma removeEscaped_activePowerUps g :
  activePowerUps (removeEscaped g) = activePowerUps g.
Proof. phase. Qed.
Lemma removeEscaped_combo g : combo (removeEscaped g) = combo g.
Proof. phase. Qed.
Lemma removeEscaped_comboTimer g : comboTimer (removeEscaped g) = comboTimer g.
Proof. phase. Qed.
Lemma removeEscaped_state g : state (removeEscaped g) = state g.
Proof. phase. Qed.
Lemma updateCRS_activePowerUps dt g :
  activePowerUps (updateCRS dt g) = activePowerUps g.
Proof. phase. Qed.
Lemma updateCRS_combo dt g : combo (updateCRS dt g) = combo g.
Proof. phase. Qed.
Lemma updateCRS_comboTimer dt g : comboTimer (updateCRS dt g) = comboTimer g.
Proof. phase. Qed.
Lemma updateCRS_state dt g : state (updateCRS dt g) = state g.
Proof. phase. Qed.
Lemma checkCritical_activePowerUps g :
  activePowerUps (checkCritical g) = activePowerUps g.
Proof. phase. Qed.
Lemma checkCritical_combo g : combo (checkCritical g) = combo g.
Proof. phase. Qed.
Lemma checkCritical_comboTimer g : comboTimer (checkCritical g) = comboTimer g.
Proof. phase. Qed.
Lemma checkCritical_state g : state (checkCritical g) = state g.
Proof. phase. Qed.
Lemma checkCritical_crs g : crs (checkCritical g) = crs g.
Proof. phase. Qed.
Lemma checkGameOver_activePowerUps g :
  activePowerUps (checkGameOver g) = activePowerUps g.
Proof. phase. Qed.
Lemma checkGameOver_combo g : combo (checkGameOver g) = combo g.
Proof. phase. Qed.
Lemma checkGameOver_comboTimer g : comboTimer (checkGameOver g) = comboTimer g.
Proof. phase. Qed.
Lemma checkGameOver_crs g : crs (checkGameOver g) = crs g.
Proof. phase. Qed.
Lemma updatePowerUps_activePowerUps dt g :
  activePowerUps (updatePowerUps dt g) = activePowerUps g.
Proof. phase. Qed.
Lemma updatePowerUps_combo dt g : combo (updatePowerUps dt g) = combo g.
Proof. phase. Qed.
Lemma updatePowerUps_comboTimer dt g :
  comboTimer (updatePowerUps dt g) = comboTimer g.
Proof. phase. Qed.
Lemma updatePowerUps_state dt g : state (updatePowerUps dt g) = state g.
Proof. phase. Qed.
Lemma updatePowerUps_crs dt g : crs (updatePowerUps dt g) = crs g.
Proof. phase. Qed.
Lemma updateComboTimer_activePowerUps dt g :
  activePowerUps (updateComboTimer dt g) = activePowerUps g.
Proof. phase. Qed.
Lemma updateComboTimer_state dt g : state (updateComboTimer dt g) = state g.
Proof. phase. Qed.
Lemma updateComboTimer_crs dt g : crs (updateComboTimer dt g) = crs g.
Proof. phase. Qed.
Lemma updatePowerUpTimers_combo dt g :
  combo (updatePowerUpTimers dt g) = combo g.
Proof. phase. Qed.
Lemma updatePowerUpTimers_comboTimer dt g :
  comboTimer (updatePowerUpTimers dt g) = comboTimer g.
Proof. phase. Qed.
Lemma updatePowerUpTimers_state dt g :
  state (updatePowerUpTimers dt g) = state g.
Proof. phase. Qed.
Lemma updatePowerUpTimers_crs dt g : crs (updatePowerUpTimers dt g) = crs g.
Proof. phase. Qed.

Create Rewrite HintDb frame.
#[local] Hint Rewrite
  updateDifficulty_activePowerUps updateDifficulty_combo
  updateDifficulty_comboTimer updateDifficulty_state updateDifficulty_crs
  updatePlayer_activePowerUps updatePlayer_combo updatePlayer_comboTimer
  updatePlayer_state updatePlayer_crs autoFire_activePowerUps autoFire_combo
  autoFire_comboTimer autoFire_state autoFire_crs
  updatePulses_activePowerUps updatePulses_combo updatePulses_comboTimer
  updatePulses_state updatePulses_crs spawnClots_activePowerUps
  spawnClots_combo spawnClots_comboTimer spawnClots_state spawnClots_crs
  updateClots_activePowerUps updateClots_combo updateClots_comboTimer
  updateClots_state updateClots_crs removeEscaped_activePowerUps
  removeEscaped_combo removeEscaped_comboTimer removeEscaped_state
  updateCRS_activePowerUps updateCRS_combo updateCRS_comboTimer
  updateCRS_state checkCritical_activePowerUps checkCritical_combo
  checkCritical_comboTimer checkCritical_state checkCritical_crs
  checkGameOver_activePowerUps checkGameOver_combo checkGameOver_comboTimer
  checkGameOver_crs updatePowerUps_activePowerUps updatePowerUps_combo
  updatePowerUps_comboTimer updatePowerUps_state updatePowerUps_crs
  updateComboTimer_activePowerUps updateComboTimer_state
  updateComboTimer_crs updatePowerUpTimers_combo
  updatePowerUpTimers_comboTimer updatePowerUpTimers_state
  updatePowerUpTimers_crs
  : frame.

Lemma beforeCollisions_activePowerUps dt rnd g :
  activePowerUps (beforeCollisions dt rnd g) = activePowerUps g.
Proof. rewrite beforeCollisions_eq. autorewrite with frame. reflexivity. Qed.

Lemma beforeCollisions_state dt rnd g :
  state (beforeCollisions dt rnd g) = state g.
Proof. rewrite beforeCollisions_eq. autorewrite with frame. reflexivity. Qed.

Lemma beforeCollisions_combo dt rnd g :
  combo (beforeCollisions dt rnd g) = combo g.
Proof. rewrite beforeCollisions_eq. autorewrite with frame. reflexivity. Qed.

Lemma beforeCollisions_comboTimer dt rnd g :
  comboTimer (beforeCollisions dt rnd g) = comboTimer g.
Proof. rewrite beforeCollisions_eq. autorewrite with frame. reflexivity. Qed.

Lemma checkCollisions_activePowerUps rnd g :
  activePowerUps (checkCollisions rnd g) = activePowerUps g.
Proof. unfold checkCollisions. destruct (collisionScan rnd g). reflexivity. Qed.

Lemma checkCollisions_state rnd g : state (checkCollisions rnd g) = state g.
Proof. unfold checkCollisions. destruct (collisionScan rnd g). reflexivity. Qed.

(** ** Active power-up timers *)

Lemma tickPowerUp_pos dt t : 0 < t -> tickPowerUp dt t = t - dt.
Proof. intros H. unfold tickPowerUp, Qgtb. apply Qltb_lt in H. rewrite H. reflexivity. Qed.

Lemma tickPowerUp_nonpos dt t : t <= 0 -> tickPowerUp dt t = t.
Proof. intros H. unfold tickPowerUp, Qgtb. apply Qltb_ge in H. rewrite H. reflexivity. Qed.

Lemma tickPowerUp_above dt t : dt <= 32 -> -32 < t -> -32 < tickPowerUp dt t.
Proof.
  intros Hdt Ht. destruct (Qlt_le_dec 0 t) as [Hpos | Hneg].
  - rewrite tickPowerUp_pos by exact Hpos. lra.
  - rewrite tickPowerUp_nonpos by exact Hneg. exact Ht.
Qed.

Lemma applyPowerUp_timers key g :
  timers_above (-32) (activePowerUps g) ->
  timers_above (-32) (activePowerUps (applyPowerUp key g)).
Proof.
  unfold timers_above. intros (H1 & H2 & H3).
  destruct key as [[] |]; unfold applyPowerUp; fields; simpl; repeat split;
    try assumption; lra.
Qed.

Lemma filterCollected_timers pus :
  forall g, timers_above (-32) (activePowerUps g) ->
            timers_above (-32) (activePowerUps (snd (filterCollected pus g))).
Proof.
  induction pus as [| pu pus IH]; intros g H; simpl; [exact H |].
  destruct (sqrt_lt _ _ _).
  - apply IH, applyPowerUp_timers, H.
  - specialize (IH g H). destruct (filterCollected pus g). exact IH.
Qed.

Lemma collectPowerUps_timers g :
  timers_above (-32) (activePowerUps g) ->
  timers_above (-32) (activePowerUps (collectPowerUps g)).
Proof.
  intros H. unfold collectPowerUps.
  pose proof (filterCollected_timers (powerUps g) g H) as H'.
  destruct (filterCollected (powerUps g) g) as [pus g']. exact H'.
Qed.

Lemma updatePowerUpTimers_timers dt g :
  dt <= 32 -> timers_above (-32) (activePowerUps g) ->
  timers_above (-32) (activePowerUps (updatePowerUpTimers dt g)).
Proof.
  unfold timers_above, updatePowerUpTimers. intros Hdt (H1 & H2 & H3). fields.
  cbn [rapidFire multiShot shield].
  repeat split; apply tickPowerUp_above; assumption.
Qed.

Lemma afterCollisions_timers dt g :
  dt <= 32 -> timers_above (-32) (activePowerUps g) ->
  timers_above (-32) (activePowerUps (afterCollisions dt g)).
Proof.
  intros Hdt H. rewrite afterCollisions_eq.
  apply updatePowerUpTimers_timers; [exact Hdt |].
  rewrite updateComboTimer_activePowerUps.
  apply collectPowerUps_timers.
  autorewrite with frame. exact H.
Qed.

Lemma update_timers dt rnd g :
  dt <= 32 -> timers_above (-32) (activePowerUps g) ->
  timers_above (-32) (activePowerUps (update dt rnd g)).
Proof.
  intros Hdt H. destruct (playing g) eqn:Hp.
  - rewrite (update_playing _ _ _ Hp).
    apply afterCollisions_timers; [exact Hdt |]. unfold afterScan.
    rewrite checkCollisions_activePowerUps, beforeCollisions_activePowerUps. exact H.
  - rewrite (update_not_playing _ _ _ Hp). exact H.
Qed.

Lemma fire_activePowerUps g : activePowerUps (fire g) = activePowerUps g.
Proof. phase. Qed.

Lemma step_timers e g :
  timers_above (-32) (activePowerUps g) ->
  timers_above (-32) (activePowerUps (step e g)).
Proof.
  intros H. destruct e; simpl.
  - unfold gameLoop. apply update_timers; [| exact H].
    destruct (Qmin_cases (currentTime - lastTime g) 32) as [[? E] | [? E]];
      rewrite E; lra.
  - rewrite fire_activePowerUps. exact H.
  - unfold handleMouse. case_ifs; exact H.
  - unfold handleTouch. case_ifs; try exact H.
    rewrite fire_activePowerUps. exact H.
  - exact H.
  - unfold timers_above. simpl. lra.
  - unfold nextLevel. case_ifs; exact H.
  - exact H.
Qed.

Lemma run_timers es :
  forall g, timers_above (-32) (activePowerUps g) ->
            timers_above (-32) (activePowerUps (run es g)).
Proof.
  unfold run. induction es as [| e es IH]; intros g H; simpl; [exact H |].
  apply IH, step_timers, H.
Qed.

(** C6, as the code has it.  The per-frame decrement of an active
    power-up timer applies only while the timer is positive and is not
    floored at zero: a positive timer [t] becomes [t - deltaTime], which
    is negative when [deltaTime] exceeds [t], and a timer that is not
    positive is left as it is.  With the frame time capped at 32 by
    [gameLoop], every timer is above [-32] in every run of the game. *)
Theorem powerup_timers_above_minus_cap :
  (forall deltaTime t, 0 < t -> tickPowerUp deltaTime t = t - deltaTime) /\
  (forall deltaTime t, t <= 0 -> tickPowerUp deltaTime t = t) /\
  (forall es width height,
     timers_above (-32) (activePowerUps (run es (newGame width height)))).
Proof.
  split; [exact tickPowerUp_pos |]. split; [exact tickPowerUp_nonpos |].
  intros es width height. apply run_timers. unfold timers_above. simpl. lra.
Qed.

Lemma powerup_timers_above_minus_cap_witness :
  0 < 8 /\ tickPowerUp 32 8 = 8 - 32 /\
  -24 <= 0 /\ tickPowerUp 32 (-24) = -24 /\
  timers_above (-32)
    (activePowerUps (run [StartButton; Frame 100 sampleRand] (newGame 800 600))).
Proof.
  destruct powerup_timers_above_minus_cap as (Hpos & Hneg & Hrun).
  assert (H8 : 0 < 8) by reflexivity.
  assert (H24 : -24 <= 0) by discriminate.
  split; [exact H8 |]. split; [exact (Hpos 32 8 H8) |].
  split; [exact H24 |]. split; [exact (Hneg 32 (-24) H24) |].
  apply Hrun.
Defined.

(** C6 as stated fails: a rapid-fire timer at 8 (its value 156 capped
    frames after a pick-up, 5000 - 156 * 32) is at -24 after the next
    frame of 32, and 157 decrements of 32 take the pick-up duration 5000
    below zero. *)
Lemma powerup_timer_negative_after_frame :
  let g := set_activePowerUps {| rapidFire := 8; multiShot := 0; shield := 0 |}
             (startGame (newGame 800 600)) in
  playing g = true /\
  0 <= rapidFire (activePowerUps g) /\
  rapidFire (activePowerUps (update 32 sampleRand g)) == -24 /\
  rapidFire (activePowerUps (update 32 sampleRand g)) < 0 /\
  Nat.iter 157 (tickPowerUp 32) (duration RAPID_FIRE) < 0.
Proof.
  vm_compute. repeat split; discriminate.
Qed.

(** ** Escaped clots *)

Lemma updateDifficulty_canvas_height dt g :
  canvas_height (updateDifficulty dt g) = canvas_height g.
Proof. phase. Qed.
Lemma updatePlayer_canvas_height dt g :
  canvas_height (updatePlayer dt g) = canvas_height g.
Proof. phase. Qed.
Lemma autoFire_canvas_height dt g :
  canvas_height (autoFire dt g) = canvas_height g.
Proof. phase. Qed.
Lemma updatePulses_canvas_height g :
  canvas_height (updatePulses g) = canvas_height g.
Proof. phase. Qed.
Lemma spawnClots_canvas_height dt rnd g :
  canvas_height (spawnClots dt rnd g) = canvas_height g.
Proof. phase. Qed.
Lemma updateClots_canvas_height dt g :
  canvas_height (updateClots dt g) = canvas_height g.
Proof. phase. Qed.
Lemma removeEscaped_canvas_height g :
  canvas_height (removeEscaped g) = canvas_height g.
Proof. phase. Qed.
Lemma updateCRS_canvas_height dt g :
  canvas_height (updateCRS dt g) = canvas_height g.
Proof. phase. Qed.
Lemma checkCritical_canvas_height g :
  canvas_height (checkCritical g) = canvas_height g.
Proof. phase. Qed.
Lemma checkGameOver_canvas_height g :
  canvas_height (checkGameOver g) = canvas_height g.
Proof. phase. Qed.
Lemma updatePowerUps_canvas_height dt g :
  canvas_height (updatePowerUps dt g) = canvas_height g.
Proof. phase. Qed.
Lemma updateComboTimer_canvas_height dt g :
  canvas_height (updateComboTimer dt g) = canvas_height g.
Proof. phase. Qed.
Lemma updatePowerUpTimers_canvas_height dt g :
  canvas_height (updatePowerUpTimers dt g) = canvas_height g.
Proof. phase. Qed.
Lemma updateCRS_clots dt g : clots (updateCRS dt g) = clots g.
Proof. phase. Qed.
Lemma checkCritical_clots g : clots (checkCritical g) = clots g.
Proof. phase. Qed.
Lemma checkGameOver_clots g : clots (checkGameOver g) = clots g.
Proof. phase. Qed.
Lemma updatePowerUps_clots dt g : clots (updatePowerUps dt g) = clots g.
Proof. phase. Qed.
Lemma updateComboTimer_clots dt g : clots (updateComboTimer dt g) = clots g.
Proof. phase. Qed.
Lemma updatePowerUpTimers_clots dt g :
  clots (updatePowerUpTimers dt g) = clots g.
Proof. phase. Qed.

#[local] Hint Rewrite
  updateDifficulty_canvas_height updatePlayer_canvas_height
  autoFire_canvas_height updatePulses_canvas_height spawnClots_canvas_height
  updateClots_canvas_height removeEscaped_canvas_height
  updateCRS_canvas_height checkCritical_canvas_height
  checkGameOver_canvas_height updatePowerUps_canvas_height
  updateComboTimer_canvas_height updatePowerUpTimers_canvas_height
  updateCRS_clots checkCritical_clots checkGameOver_clots
  updatePowerUps_clots updateComboTimer_clots updatePowerUpTimers_clots
  : frame.

Lemma applyPowerUp_clots key g : clots (applyPowerUp key g) = clots g.
Proof. destruct key as [[] |]; reflexivity. Qed.

Lemma filterCollected_clots pus :
  forall g, clots (snd (filterCollected pus g)) = clots g.
Proof.
  induction pus as [| pu pus IH]; intros g; cbn [filterCollected]; [reflexivity |].
  destruct (sqrt_lt _ _ _).
  - rewrite IH. apply applyPowerUp_clots.
  - specialize (IH g). destruct (filterCollected pus g). exact IH.
Qed.

Lemma collectPowerUps_clots g : clots (collectPowerUps g) = clots g.
Proof.
  unfold collectPowerUps.
  pose proof (filterCollected_clots (powerUps g) g) as H.
  destruct (filterCollected (powerUps g) g). exact H.
Qed.

Lemma checkCollisions_canvas_height rnd g :
  canvas_height (checkCollisions rnd g) = canvas_height g.
Proof. unfold checkCollisions. destruct (collisionScan rnd g). reflexivity. Qed.

Lemma beforeCollisions_canvas_height dt rnd g :
  canvas_height (beforeCollisions dt rnd g) = canvas_height g.
Proof. rewrite beforeCollisions_eq. autorewrite with frame. reflexivity. Qed.

Lemma afterScan_canvas_height dt rnd g :
  canvas_height (afterScan dt rnd g) = canvas_height g.
Proof.
  unfold afterScan.
  rewrite checkCollisions_canvas_height, beforeCollisions_canvas_height.
  reflexivity.
Qed.


Lemma filterEscaped_spec canvas_height cs :
  forall c,
    fst (filterEscaped canvas_height cs c)
      = List.filter (fun clot => negb (escaped canvas_height clot)) cs /\
    crsValue (snd (filterEscaped canvas_height cs c))
      == crsValue c
         + Qsum (map escapePenalty (List.filter (escaped canvas_height) cs)).
Proof.
  induction cs as [| clot cs IH]; intros c; cbn [filterEscaped List.filter map].
  - split; [reflexivity |]. cbn [Qsum snd]. lra.
  - change (Qgtb (clot_y clot) (canvas_height + radius clot))
      with (escaped canvas_height clot).
    destruct (escaped canvas_height clot) eqn:E; cbn [negb map Qsum].
    + destruct (IH {| crsValue := crsValue c + (25 + getScale clot * 15) |})
        as [Hl Hc].
      split; [exact Hl |]. rewrite Hc. cbn [crsValue].
      unfold escapePenalty at 2. lra.
    + destruct (IH c) as [Hl Hc].
      destruct (filterEscaped canvas_height cs c) as [rest c'].
      cbn [fst snd] in *.
      split; [rewrite Hl; reflexivity | exact Hc].
Qed.

Lemma applyPowerUp_crs_le key g :
  crsValue (crs g) <= 100 -> crsValue (crs (applyPowerUp key g)) <= 100.
Proof.
  intros H. destruct key as [[] |]; unfold applyPowerUp; fields;
    try exact H.
  cbn [crsValue].
  destruct (Qmax_cases 0 (crsValue (crs g) - 25)) as [[? E] | [? E]];
    rewrite E; lra.
Qed.

Lemma filterCollected_crs_le pus :
  forall g, crsValue (crs g) <= 100 ->
            crsValue (crs (snd (filterCollected pus g))) <= 100.
Proof.
  induction pus as [| pu pus IH]; intros g H; simpl; [exact H |].
  destruct (sqrt_lt _ _ _).
  - apply IH, applyPowerUp_crs_le, H.
  - specialize (IH g H). destruct (filterCollected pus g). exact IH.
Qed.

Lemma collectPowerUps_crs_le g :
  crsValue (crs g) <= 100 -> crsValue (crs (collectPowerUps g)) <= 100.
Proof.
  intros H. unfold collectPowerUps.
  pose proof (filterCollected_crs_le (powerUps g) g H) as H'.
  destruct (filterCollected (powerUps g) g) as [pus g']. exact H'.
Qed.

Lemma updateCRS_crs_le dt g : crsValue (crs (updateCRS dt g)) <= 100.
Proof. unfold updateCRS. fields. unfold crs_update. cbn [crsValue]. apply Qmin_le_l. Qed.

Lemma afterCollisions_crs_le dt g :
  crsValue (crs (afterCollisions dt g)) <= 100.
Proof.
  rewrite afterCollisions_eq.
  rewrite updatePowerUpTimers_crs, updateComboTimer_crs.
  apply collectPowerUps_crs_le.
  rewrite updatePowerUps_crs, checkGameOver_crs, checkCritical_crs.
  apply updateCRS_crs_le.
Qed.

(** The escape filter is where the frame runs it: on the clots left by
    the collision scan. *)
Lemma removeEscaped_spec g :
  clots (removeEscaped g)
    = List.filter (fun clot => negb (escaped (canvas_height g) clot)) (clots g) /\
  crsValue (crs (removeEscaped g))
    == crsValue (crs g)
       + Qsum (map escapePenalty (List.filter (escaped (canvas_height g)) (clots g))).
Proof.
  unfold removeEscaped.
  pose proof (filterEscaped_spec (canvas_height g) (clots g) (crs g)) as H.
  destruct (filterEscaped _ _ _) as [cs c]. exact H.
Qed.



(** ** The collision scan *)

Lemma lookup_map {A B} (f : A -> B) (l : list A) :
  forall i, map f l !! i = option_map f (l !! i).
Proof.
  induction l as [| x l IH]; intros [| i]; try reflexivity. apply IH.
Qed.

Lemma hit_keeps_destroyed clot :
  0 <= shrinkAmount clot -> radius clot <= minRadius clot ->
  radius (fst (hit clot)) <= minRadius (fst (hit clot)).
Proof. rewrite hit_radius, hit_minRadius. intros. lra. Qed.

Lemma collides_count_existsb pulse cs :
  existsb (collides pulse) cs = negb (length (List.filter (collides pulse) cs) =? 0)%nat.
Proof.
  induction cs as [| clot rest IH]; [reflexivity |].
  cbn [existsb List.filter]. destruct (collides pulse clot); [reflexivity | exact IH].
Qed.

Section CollisionScan.

(** The power-up draws of the scan. *)
Variable rnd : nat -> nat -> Q.

Lemma onCollision_eq draw pi ci clot s :
  onCollision draw pi ci clot s =
  let clot' := fst (hit clot) in
  let destroyed := snd (hit clot) in
  let combo' := (s_combo s + 1)%Z in
  let comboBonus := Z.min combo' 10 in
  (clot',
   {| s_combo := combo';
      s_comboTimer := 1500;
      s_maxCombo := if (s_maxCombo s <? combo')%Z then combo' else s_maxCombo s;
      s_score := if destroyed
                 then (s_score s + 5 * comboBonus + 50 * comboBonus)%Z
                 else (s_score s + 5 * comboBonus)%Z;
      s_crs := if destroyed then onClotDestroyed (getScale clot') (s_crs s)
               else s_crs s;
      s_powerUps := if destroyed && dropsPowerUp clot
                    then s_powerUps s ++ [newPowerUp (clot_x clot) (clot_y clot) draw]
                    else s_powerUps s;
      pulsesToRemove := {[ pi ]} ∪ pulsesToRemove s;
      clotsToRemove := if destroyed then {[ ci ]} ∪ clotsToRemove s
                       else clotsToRemove s |}).
Proof.
  unfold onCollision. cbv zeta.
  destruct (hit clot) as [clot' destroyed] eqn:E.
  assert (Hx : clot_x clot' = clot_x clot) by (inversion E; reflexivity).
  assert (Hy : clot_y clot' = clot_y clot) by (inversion E; reflexivity).
  assert (Hd : dropsPowerUp clot' = dropsPowerUp clot) by (inversion E; reflexivity).
  cbn [fst snd]. rewrite Hx, Hy, Hd.
  destruct destroyed; cbn [andb]; reflexivity.
Qed.

Lemma scanClot_clot pulse pi ci clot s :
  fst (scanClot rnd pulse pi ci clot s)
  = if collides pulse clot then fst (hit clot) else clot.
Proof.
  unfold scanClot. destruct (collides pulse clot); [| reflexivity].
  rewrite onCollision_eq. reflexivity.
Qed.

Lemma scanClots_cons pulse pi ci clot rest s :
  scanClots rnd pulse pi ci (clot :: rest) s =
  (fst (scanClot rnd pulse pi ci clot s)
     :: fst (scanClots rnd pulse pi (S ci) rest (snd (scanClot rnd pulse pi ci clot s))),
   snd (scanClots rnd pulse pi (S ci) rest (snd (scanClot rnd pulse pi ci clot s)))).
Proof.
  cbn [scanClots]. destruct (scanClot rnd pulse pi ci clot s) as [clot' s1].
  cbn [fst snd]. destruct (scanClots rnd pulse pi (S ci) rest s1). reflexivity.
Qed.

Lemma scanPulses_cons pi pulse rest cs s :
  scanPulses rnd pi (pulse :: rest) cs s =
  scanPulses rnd (S pi) rest (fst (scanClots rnd pulse pi 0 cs s))
                             (snd (scanClots rnd pulse pi 0 cs s)).
Proof.
  cbn [scanPulses]. destruct (scanClots rnd pulse pi 0 cs s). reflexivity.
Qed.

(** The clots after one pulse's pass: every clot the pulse intersects has
    been hit. *)
Lemma scanClots_clots pulse pi cs :
  forall ci s,
    fst (scanClots rnd pulse pi ci cs s)
    = map (fun clot => if collides pulse clot then fst (hit clot) else clot) cs.
Proof.
  induction cs as [| clot rest IH]; intros ci s; [reflexivity |].
  rewrite scanClots_cons. cbn [fst map]. rewrite scanClot_clot, IH. reflexivity.
Qed.

Lemma scanClot_combo pulse pi ci clot s :
  s_combo (snd (scanClot rnd pulse pi ci clot s))
  = (s_combo s + if collides pulse clot then 1 else 0)%Z.
Proof.
  unfold scanClot. destruct (collides pulse clot).
  - rewrite onCollision_eq. reflexivity.
  - cbn [snd]. lia.
Qed.

Lemma scanClots_combo pulse pi cs :
  forall ci s,
    s_combo (snd (scanClots rnd pulse pi ci cs s))
    = (s_combo s + Z.of_nat (length (List.filter (collides pulse) cs)))%Z.
Proof.
  induction cs as [| clot rest IH]; intros ci s.
  - cbn. lia.
  - rewrite scanClots_cons. cbn [snd List.filter]. rewrite IH, scanClot_combo.
    destruct (collides pulse clot); cbn [length]; lia.
Qed.

Lemma scanClot_comboTimer pulse pi ci clot s :
  s_comboTimer (snd (scanClot rnd pulse pi ci clot s))
  = if collides pulse clot then 1500 else s_comboTimer s.
Proof.
  unfold scanClot. destruct (collides pulse clot); [| reflexivity].
  rewrite onCollision_eq. reflexivity.
Qed.

Lemma scanClots_comboTimer pulse pi cs :
  forall ci s,
    s_comboTimer (snd (scanClots rnd pulse pi ci cs s))
    = if existsb (collides pulse) cs then 1500 else s_comboTimer s.
Proof.
  induction cs as [| clot rest IH]; intros ci s; [reflexivity |].
  rewrite scanClots_cons. cbn [snd existsb]. rewrite IH, scanClot_comboTimer.
  destruct (collides pulse clot), (existsb (collides pulse) rest); reflexivity.
Qed.

Lemma scanPulses_combo ps :
  forall pi cs s,
    s_combo (snd (scanPulses rnd pi ps cs s))
    = (s_combo s + Z.of_nat (countHits ps cs))%Z.
Proof.
  induction ps as [| pulse rest IH]; intros pi cs s.
  - cbn. lia.
  - rewrite scanPulses_cons, IH, scanClots_combo, scanClots_clots.
    cbn [countHits]. lia.
Qed.

Lemma scanPulses_comboTimer ps :
  forall pi cs s,
    s_comboTimer (snd (scanPulses rnd pi ps cs s))
    = if (countHits ps cs =? 0)%nat then s_comboTimer s else 1500.
Proof.
  induction ps as [| pulse rest IH]; intros pi cs s; [reflexivity |].
  rewrite scanPulses_cons, IH, scanClots_comboTimer, scanClots_clots.
  cbn [countHits]. rewrite collides_count_existsb.
  destruct (length (List.filter (collides pulse) cs)) as [| n];
    cbn [Nat.eqb negb Nat.add]; [reflexivity |].
  destruct (countHits rest _); reflexivity.
Qed.

Lemma scanClot_pulsesToRemove pulse pi ci clot s j :
  j ∈ pulsesToRemove (snd (scanClot rnd pulse pi ci clot s))
  <-> j ∈ pulsesToRemove s \/ (j = pi /\ collides pulse clot = true).
Proof.
  unfold scanClot. destruct (collides pulse clot).
  - rewrite onCollision_eq. cbn [snd pulsesToRemove].
    rewrite elem_of_union, elem_of_singleton. tauto.
  - cbn [snd]. split; [auto | intros [H | [_ H]]; [exact H | congruence]].
Qed.

Lemma scanClots_pulsesToRemove pulse pi cs j :
  forall ci s,
    j ∈ pulsesToRemove (snd (scanClots rnd pulse pi ci cs s))
    <-> j ∈ pulsesToRemove s \/ (j = pi /\ existsb (collides pulse) cs = true).
Proof.
  induction cs as [| clot rest IH]; intros ci s.
  - cbn. split; [auto | intros [H | [_ H]]; [exact H | congruence]].
  - rewrite scanClots_cons. cbn [snd existsb].
    rewrite IH, scanClot_pulsesToRemove, orb_true_iff. tauto.
Qed.

Lemma scanClot_score pulse pi ci clot s :
  (0 <= s_combo s)%Z ->
  (s_score s + (if collides pulse clot then 5 else 0)
   <= s_score (snd (scanClot rnd pulse pi ci clot s)))%Z.
Proof.
  intros Hc. unfold scanClot. destruct (collides pulse clot).
  - rewrite onCollision_eq. cbv zeta. cbn [snd s_score].
    destruct (snd (hit clot)); lia.
  - cbn [snd]. lia.
Qed.

Lemma scanClots_score pulse pi cs :
  forall ci s,
    (0 <= s_combo s)%Z ->
    (s_score s + 5 * Z.of_nat (length (List.filter (collides pulse) cs))
     <= s_score (snd (scanClots rnd pulse pi ci cs s)))%Z.
Proof.
  induction cs as [| clot rest IH]; intros ci s Hc.
  - cbn. lia.
  - rewrite scanClots_cons. cbn [snd List.filter].
    pose proof (scanClot_score pulse pi ci clot s Hc) as H1.
    pose proof (scanClot_combo pulse pi ci clot s) as H2.
    assert (Hc' : (0 <= s_combo (snd (scanClot rnd pulse pi ci clot s)))%Z).
    { rewrite H2. destruct (collides pulse clot); lia. }
    specialize (IH (S ci) _ Hc').
    destruct (collides pulse clot); cbn [length] in *; lia.
Qed.

Lemma scanClot_clotsToRemove pulse pi ci clot s j :
  j ∈ clotsToRemove (snd (scanClot rnd pulse pi ci clot s))
  <-> j ∈ clotsToRemove s \/
      (j = ci /\ collides pulse clot = true /\ snd (hit clot) = true).
Proof.
  unfold scanClot. destruct (collides pulse clot).
  - rewrite onCollision_eq. cbn [snd clotsToRemove].
    destruct (snd (hit clot)).
    + rewrite elem_of_union, elem_of_singleton. tauto.
    + split; [auto | intros [H | (_ & _ & H)]; [exact H | congruence]].
  - cbn [snd]. split; [auto | intros [H | (_ & H & _)]; [exact H | congruence]].
Qed.

Lemma scanClots_clotsToRemove pulse pi cs j :
  forall ci s,
    j ∈ clotsToRemove (snd (scanClots rnd pulse pi ci cs s))
    <-> j ∈ clotsToRemove s \/
        exists k clot, cs !! k = Some clot /\ j = (ci + k)%nat /\
                       collides pulse clot = true /\ snd (hit clot) = true.
Proof.
  induction cs as [| clot rest IH]; intros ci s.
  - cbn [scanClots snd]. split; [auto |].
    intros [H | (k & c & Hk & _)]; [exact H | discriminate Hk].
  - rewrite scanClots_cons. cbn [snd]. rewrite IH, scanClot_clotsToRemove.
    split.
    + intros [[H | (Hj & Hc & Hd)] | (k & c & Hk & Hj & Hc & Hd)].
      * left; exact H.
      * right. exists 0%nat, clot. repeat split; try assumption. lia.
      * right. exists (S k), c. repeat split; try assumption. lia.
    + intros [H | (k & c & Hk & Hj & Hc & Hd)]; [left; left; exact H |].
      destruct k as [| k].
      * cbn in Hk. injection Hk as <-. left; right.
        repeat split; try assumption. lia.
      * right. exists k, c. repeat split; try assumption. lia.
Qed.

Lemma scanClots_shrinking pulse pi ci cs s :
  shrinking cs -> shrinking (fst (scanClots rnd pulse pi ci cs s)).
Proof.
  unfold shrinking. rewrite scanClots_clots. intros H.
  induction H as [| clot rest Hc Hrest IH]; cbn [map]; constructor; [| exact IH].
  destruct (collides pulse clot); [rewrite hit_shrinkAmount |]; exact Hc.
Qed.

(** One pulse's pass keeps the staged clots at or below their minimum
    radius. *)
Lemma scanClots_staged pulse pi cs s :
  shrinking cs -> staged_destroyed cs s ->
  staged_destroyed (fst (scanClots rnd pulse pi 0 cs s))
                   (snd (scanClots rnd pulse pi 0 cs s)).
Proof.
  intros Hsh Hst ci Hci. rewrite scanClots_clots, lookup_map.
  apply scanClots_clotsToRemove in Hci.
  destruct Hci as [Hold | (k & c & Hk & Hj & Hc & Hd)].
  - destruct (Hst ci Hold) as (c & Hlk & Hr). rewrite Hlk. cbn [option_map].
    eexists; split; [reflexivity |].
    destruct (collides pulse c); [| exact Hr].
    apply hit_keeps_destroyed; [| exact Hr].
    unfold shrinking in Hsh. rewrite Forall_forall in Hsh.
    apply Hsh. eapply list_elem_of_lookup_2. exact Hlk.
  - cbn in Hj. subst k. rewrite Hk. cbn [option_map]. rewrite Hc.
    eexists; split; [reflexivity |]. apply hit_destroyed, Hd.
Qed.

Lemma scanPulses_staged ps :
  forall pi cs s,
    shrinking cs -> staged_destroyed cs s ->
    staged_destroyed (fst (scanPulses rnd pi ps cs s))
                     (snd (scanPulses rnd pi ps cs s)).
Proof.
  induction ps as [| pulse rest IH]; intros pi cs s Hsh Hst; [exact Hst |].
  rewrite scanPulses_cons. apply IH.
  - apply scanClots_shrinking, Hsh.
  - apply scanClots_staged; assumption.
Qed.

End CollisionScan.

Lemma scan_start_staged g : staged_destroyed (clots g) (scan_start g).
Proof. intros ci Hci. cbn in Hci. exfalso. revert Hci. apply not_elem_of_empty. Qed.

Lemma checkCollisions_clots rnd g :
  clots (checkCollisions rnd g)
  = remove_indices (clotsToRemove (snd (collisionScan rnd g))) 0
                   (fst (collisionScan rnd g)).
Proof. unfold checkCollisions. destruct (collisionScan rnd g). reflexivity. Qed.

(** C3, as the code has it.  In the collision scan a projectile is
    tested against every clot, in iteration order, and hits each clot it
    intersects: after its pass every intersected clot has taken a [hit()],
    the combo has grown by the number of intersected clots, the score by
    at least 5 for each of them (the combo not being negative), and the
    projectile is staged for removal (once, in a set) when it intersected
    at least one.  The staged projectiles are removed from the list when
    both loops are done. *)
Theorem pulse_hits_every_intersected_clot (rnd : nat -> nat -> Q)
    (pulse : Pulse) (pi ci : nat) (cs : list Clot) (s : Scan) :
  let r := scanClots rnd pulse pi ci cs s in
  let n := Z.of_nat (length (List.filter (collides pulse) cs)) in
  fst r = map (fun clot => if collides pulse clot then fst (hit clot) else clot) cs /\
  s_combo (snd r) = (s_combo s + n)%Z /\
  ((0 <= s_combo s)%Z -> (s_score s + 5 * n <= s_score (snd r))%Z) /\
  (forall j, j ∈ pulsesToRemove (snd r)
             <-> j ∈ pulsesToRemove s \/
                 (j = pi /\ existsb (collides pulse) cs = true)) /\
  (forall g, pulses (checkCollisions rnd g)
             = remove_indices (pulsesToRemove (snd (collisionScan rnd g))) 0
                              (pulses g)).
Proof.
  cbv zeta. split; [apply scanClots_clots |].
  split; [apply scanClots_combo |].
  split; [apply scanClots_score |].
  split; [intros j; apply scanClots_pulsesToRemove |].
  intros g. unfold checkCollisions. destruct (collisionScan rnd g). reflexivity.
Qed.

Lemma pulse_hits_every_intersected_clot_witness :
  let g := twoClotsGame in
  let r := scanClots (fun _ _ => 0) (newPulse 100 100) 0 0 (clots g) (scan_start g) in
  (0 <= s_combo (scan_start g))%Z /\
  s_combo (snd r) = (s_combo (scan_start g) + 2)%Z /\
  (s_score (scan_start g) + 5 * 2 <= s_score (snd r))%Z /\
  map radius (fst r) = [45 - 5; 50 - 6].
Proof.
  intros g r.
  destruct (pulse_hits_every_intersected_clot (fun _ _ => 0) (newPulse 100 100)
              0 0 (clots g) (scan_start g)) as (Hclots & Hcombo & Hscore & _).
  assert (Hc : (0 <= s_combo (scan_start g))%Z) by discriminate.
  split; [exact Hc |]. split; [exact Hcombo |]. split; [exact (Hscore Hc) |].
  fold r in Hclots. rewrite Hclots. reflexivity.
Defined.

(** C3 as stated fails: a single pulse over two overlapping clots hits
    both in one scan; the combo goes from 0 to 2, the score by 5 + 10, and
    both clots shrink. *)
Lemma one_pulse_hits_two_clots :
  let g := twoClotsGame in
  let g' := checkCollisions (fun _ _ => 0) g in
  length (pulses g) = 1%nat /\
  combo g = 0%Z /\ combo g' = 2%Z /\
  score g = 0%Z /\ score g' = 15%Z /\
  map radius (clots g) = [45; 50] /\
  map radius (clots g') = [45 - 5; 50 - 6] /\
  ~ (forall rnd pulse pi cs s,
       (s_combo (snd (scanClots rnd pulse pi 0 cs s)) <= s_combo s + 1)%Z).
Proof.
  cbv zeta. repeat split; try (vm_compute; reflexivity).
  intros H.
  specialize (H (fun _ _ => 0) (newPulse 100 100) 0%nat (clots twoClotsGame)
                (scan_start twoClotsGame)).
  vm_compute in H. apply H. reflexivity.
Qed.

(** C2, as the code has it.  The scan stages a destroyed clot in a set
    and removes it once, after both loops, but does not skip staged clots.
    Every clot staged by the pulses scanned so far is at or below its
    minimum radius; and for a clot in that condition, any further pulse
    that still intersects it applies [hit()] again, which reports it
    destroyed again: the [50 * min(combo, 10)] bonus is awarded again,
    [onClotDestroyed] is called again, and another power-up is spawned
    when the clot's drop flag is set. *)
Theorem destroyed_clot_is_hit_again :
  (forall rnd g ps,
     shrinking (clots g) ->
     staged_destroyed (fst (scanPulses rnd 0 ps (clots g) (scan_start g)))
                      (snd (scanPulses rnd 0 ps (clots g) (scan_start g)))) /\
  (forall rnd pulse pi ci clot s,
     0 <= shrinkAmount clot -> radius clot <= minRadius clot ->
     collides pulse clot = true ->
     let r := scanClot rnd pulse pi ci clot s in
     let b := Z.min (s_combo s + 1) 10 in
     fst r = fst (hit clot) /\
     snd (hit clot) = true /\
     radius (fst r) = radius clot - shrinkAmount clot /\
     s_score (snd r) = (s_score s + 5 * b + 50 * b)%Z /\
     s_crs (snd r) = onClotDestroyed (getScale (fst r)) (s_crs s) /\
     s_powerUps (snd r)
       = (if dropsPowerUp clot
          then s_powerUps s ++ [newPowerUp (clot_x clot) (clot_y clot) (rnd pi ci)]
          else s_powerUps s) /\
     (forall j, j ∈ clotsToRemove (snd r) <-> j = ci \/ j ∈ clotsToRemove s)) /\
  (forall rnd g,
     clots (checkCollisions rnd g)
     = remove_indices (clotsToRemove (snd (collisionScan rnd g))) 0
                      (fst (collisionScan rnd g))).
Proof.
  split; [| split].
  - intros rnd g ps Hsh. apply scanPulses_staged; [exact Hsh |].
    apply scan_start_staged.
  - intros rnd pulse pi ci clot s Hsh Hr Hc. cbv zeta.
    assert (Hd : snd (hit clot) = true).
    { apply hit_destroyed, hit_keeps_destroyed; assumption. }
    unfold scanClot. rewrite Hc, onCollision_eq. cbv zeta.
    cbn [fst snd s_score s_crs s_powerUps clotsToRemove].
    rewrite Hd. cbn [andb fst].
    repeat split; try reflexivity.
    + rewrite elem_of_union, elem_of_singleton. tauto.
    + rewrite elem_of_union, elem_of_singleton. tauto.
  - exact checkCollisions_clots.
Qed.

Lemma destroyed_clot_is_hit_again_witness :
  let rnd := fun (_ _ : nat) => 0 in
  let g := twoPulsesGame in
  let cs := fst (scanPulses rnd 0 [newPulse 100 100] (clots g) (scan_start g)) in
  let s := snd (scanPulses rnd 0 [newPulse 100 100] (clots g) (scan_start g)) in
  let clot := fst (hit smallClot) in
  let pulse := newPulse 100 112 in
  shrinking (clots g) /\
  staged_destroyed cs s /\
  0 <= shrinkAmount clot /\ radius clot <= minRadius clot /\
  collides pulse clot = true /\
  snd (hit clot) = true /\
  s_score (snd (scanClot rnd pulse 1 0 clot s))
    = (s_score s + 5 * Z.min (s_combo s + 1) 10 + 50 * Z.min (s_combo s + 1) 10)%Z.
Proof.
  intros rnd g cs s clot pulse.
  destruct destroyed_clot_is_hit_again as (Hinv & Hstep & _).
  assert (Hsh : shrinking (clots g)).
  { repeat constructor. discriminate. }
  assert (H0 : 0 <= shrinkAmount clot) by discriminate.
  assert (H1 : radius clot <= minRadius clot) by discriminate.
  assert (H2 : collides pulse clot = true) by reflexivity.
  destruct (Hstep rnd pulse 1%nat 0%nat clot s H0 H1 H2)
    as (_ & Hd & _ & Hscore & _).
  split; [exact Hsh |]. split; [exact (Hinv rnd g [newPulse 100 100] Hsh) |].
  split; [exact H0 |]. split; [exact H1 |]. split; [exact H2 |].
  split; [exact Hd | exact Hscore].
Defined.

(** C2 as stated fails: two pulses over one clot that the first of them
    destroys.  The second pulse hits the clot again (its radius goes from
    12 to 7 to 2), the destroy bonus is awarded twice (score 55 + 110),
    [onClotDestroyed] is applied twice and two power-ups are spawned for
    the one clot. *)
Lemma one_clot_destroyed_twice :
  let g := twoPulsesGame in
  let rnd := fun (_ _ : nat) => 0 in
  let g' := checkCollisions rnd g in
  length (clots g) = 1%nat /\ length (powerUps g) = 0%nat /\
  score g = 0%Z /\ combo g = 0%Z /\
  map radius (fst (collisionScan rnd g)) = [12 - 5 - 5] /\
  score g' = (5 * 1 + 50 * 1 + (5 * 2 + 50 * 2))%Z /\
  length (powerUps g') = 2%nat /\
  crs g' = onClotDestroyed ((12 - 5 - 5) / 47)
             (onClotDestroyed ((12 - 5) / 47) (crs g)) /\
  clots g' = [].
Proof.
  cbv zeta. repeat split; vm_compute; reflexivity.
Qed.

(** ** The combo window *)

Lemma checkCollisions_combo rnd g :
  combo (checkCollisions rnd g)
  = (combo g + Z.of_nat (countHits (pulses g) (clots g)))%Z.
Proof.
  unfold checkCollisions, collisionScan.
  pose proof (scanPulses_combo rnd (pulses g) 0 (clots g) (scan_start g)) as H.
  destruct (scanPulses _ _ _ _ _) as [cs s]. exact H.
Qed.

Lemma checkCollisions_comboTimer rnd g :
  comboTimer (checkCollisions rnd g)
  = if (countHits (pulses g) (clots g) =? 0)%nat then comboTimer g else 1500.
Proof.
  unfold checkCollisions, collisionScan.
  pose proof (scanPulses_comboTimer rnd (pulses g) 0 (clots g) (scan_start g)) as H.
  destruct (scanPulses _ _ _ _ _) as [cs s]. exact H.
Qed.

Lemma afterScan_combo dt rnd g :
  combo (afterScan dt rnd g) = (combo g + Z.of_nat (frameHits dt rnd g))%Z.
Proof.
  unfold afterScan, frameHits. rewrite checkCollisions_combo, beforeCollisions_combo.
  reflexivity.
Qed.

Lemma afterScan_comboTimer dt rnd g :
  comboTimer (afterScan dt rnd g)
  = if (frameHits dt rnd g =? 0)%nat then comboTimer g else 1500.
Proof.
  unfold afterScan, frameHits.
  rewrite checkCollisions_comboTimer, beforeCollisions_comboTimer. reflexivity.
Qed.

Lemma applyPowerUp_combo key g :
  combo (applyPowerUp key g) = combo g /\
  comboTimer (applyPowerUp key g) = comboTimer g.
Proof. destruct key as [[] |]; split; reflexivity. Qed.

Lemma filterCollected_combo pus :
  forall g, combo (snd (filterCollected pus g)) = combo g /\
            comboTimer (snd (filterCollected pus g)) = comboTimer g.
Proof.
  induction pus as [| pu pus IH]; intros g; cbn [filterCollected];
    [split; reflexivity |].
  destruct (sqrt_lt _ _ _).
  - destruct (IH (applyPowerUp (typeKey pu) g)) as [H1 H2].
    destruct (applyPowerUp_combo (typeKey pu) g) as [H3 H4].
    rewrite H1, H2, H3, H4. split; reflexivity.
  - specialize (IH g). destruct (filterCollected pus g). exact IH.
Qed.

Lemma collectPowerUps_combo g : combo (collectPowerUps g) = combo g.
Proof.
  unfold collectPowerUps.
  destruct (filterCollected_combo (powerUps g) g) as [H _].
  destruct (filterCollected (powerUps g) g). exact H.
Qed.

Lemma collectPowerUps_comboTimer g :
  comboTimer (collectPowerUps g) = comboTimer g.
Proof.
  unfold collectPowerUps.
  destruct (filterCollected_combo (powerUps g) g) as [_ H].
  destruct (filterCollected (powerUps g) g). exact H.
Qed.

Lemma updateComboTimer_spec dt g :
  combo (updateComboTimer dt g)
    = (if (0 <? combo g)%Z
       then if Qle_bool (comboTimer g - dt) 0 then 0%Z else combo g
       else combo g) /\
  comboTimer (updateComboTimer dt g)
    = (if (0 <? combo g)%Z then comboTimer g - dt else comboTimer g).
Proof.
  unfold updateComboTimer. destruct (0 <? combo g)%Z; [| split; reflexivity].
  fields. destruct (Qle_bool (comboTimer g - dt) 0); split; reflexivity.
Qed.

(** The combo and its timer after the part of the frame that follows the
    scan: only the combo-timer phase touches them. *)
Lemma afterCollisions_combo dt g :
  combo (afterCollisions dt g)
    = (if (0 <? combo g)%Z
       then if Qle_bool (comboTimer g - dt) 0 then 0%Z else combo g
       else combo g) /\
  comboTimer (afterCollisions dt g)
    = (if (0 <? combo g)%Z then comboTimer g - dt else comboTimer g).
Proof.
  rewrite afterCollisions_eq, updatePowerUpTimers_combo, updatePowerUpTimers_comboTimer.
  destruct (updateComboTimer_spec dt
              (collectPowerUps
                 (updatePowerUps dt
                    (checkGameOver (checkCritical (updateCRS dt (removeEscaped g)))))))
    as [H1 H2].
  rewrite H1, H2, collectPowerUps_combo, collectPowerUps_comboTimer.
  autorewrite with frame. split; reflexivity.
Qed.

Lemma update_combo dt rnd g :
  playing g = true ->
  let c := combo (afterScan dt rnd g) in
  let t := comboTimer (afterScan dt rnd g) in
  combo (update dt rnd g)
    = (if (0 <? c)%Z then if Qle_bool (t - dt) 0 then 0%Z else c else c) /\
  comboTimer (update dt rnd g) = (if (0 <? c)%Z then t - dt else t).
Proof.
  intros Hp c t. rewrite (update_playing _ _ _ Hp).
  exact (afterCollisions_combo dt (afterScan dt rnd g)).
Qed.

Lemma frames_cons f fs g :
  frames (f :: fs) g = frames fs (update (fst f) (snd f) g).
Proof. reflexivity. Qed.

Lemma elapsed_cons f fs : elapsed (f :: fs) = fst f + elapsed fs.
Proof. reflexivity. Qed.

Lemma quietFrames_elapsed fs : forall g, quietFrames fs g -> 0 <= elapsed fs.
Proof.
  induction fs as [| f fs IH]; intros g H.
  - unfold elapsed. cbn. lra.
  - destruct H as (_ & Hdt & _ & Hrest). rewrite elapsed_cons.
    specialize (IH _ Hrest). lra.
Qed.

(** A quiet frame: the scan leaves the combo and its timer alone. *)
Lemma quiet_update dt rnd g :
  playing g = true -> frameHits dt rnd g = 0%nat ->
  combo (update dt rnd g)
    = (if (0 <? combo g)%Z
       then if Qle_bool (comboTimer g - dt) 0 then 0%Z else combo g
       else combo g) /\
  comboTimer (update dt rnd g)
    = (if (0 <? combo g)%Z then comboTimer g - dt else comboTimer g).
Proof.
  intros Hp Hq. destruct (update_combo dt rnd g Hp) as [H1 H2].
  rewrite afterScan_combo, afterScan_comboTimer, Hq in H1, H2.
  cbn [Nat.eqb Z.of_nat] in H1, H2. rewrite Z.add_0_r in H1, H2.
  split; assumption.
Qed.

Lemma quiet_frames_zero fs :
  forall g, quietFrames fs g -> combo g = 0%Z -> combo (frames fs g) = 0%Z.
Proof.
  induction fs as [| [dt rnd] fs IH]; intros g H Hc; [exact Hc |].
  destruct H as (Hp & _ & Hq & Hrest). cbn [fst snd] in *.
  rewrite frames_cons. apply IH; [exact Hrest |]. cbn [fst snd].
  destruct (quiet_update dt rnd g Hp Hq) as [H1 _].
  rewrite H1, Hc. reflexivity.
Qed.

(** Quiet frames after a running combo: it survives while the accumulated
    frame time is below the timer, and is zero once it has reached it. *)
Lemma quiet_frames_window fs :
  forall g, quietFrames fs g -> (0 < combo g)%Z -> 0 < comboTimer g ->
            (elapsed fs < comboTimer g -> combo (frames fs g) = combo g) /\
            (comboTimer g <= elapsed fs -> combo (frames fs g) = 0%Z).
Proof.
  induction fs as [| [dt rnd] fs IH]; intros g H Hc Ht.
  - unfold elapsed. cbn [map Qsum]. split; [reflexivity | intros; lra].
  - pose proof (quietFrames_elapsed _ _ H) as Hel.
    destruct H as (Hp & Hdt & Hq & Hrest). cbn [fst snd] in *.
    pose proof (quietFrames_elapsed _ _ Hrest) as Hel'.
    rewrite elapsed_cons in *. cbn [fst] in *. rewrite frames_cons. cbn [fst snd].
    destruct (quiet_update dt rnd g Hp Hq) as [H1 H2].
    apply Z.ltb_lt in Hc. rewrite Hc in H1, H2. apply Z.ltb_lt in Hc.
    destruct (Qle_bool (comboTimer g - dt) 0) eqn:E.
    + apply Qle_bool_iff in E.
      split; [intros; lra |]. intros _.
      apply quiet_frames_zero; assumption.
    + apply Qle_bool_gt in E.
      destruct (IH (update dt rnd g) Hrest) as [IH1 IH2].
      * rewrite H1. exact Hc.
      * rewrite H2. exact E.
      * rewrite H1, H2 in *. split; intros Hw.
        -- apply IH1. lra.
        -- apply IH2. lra.
Qed.

(** C7, as the code has it.  A hit sets the combo timer to 1500 ms; the
    timer is run down by the elapsed time of every frame from the hit's own
    frame on, after that frame's scan, and the combo is zeroed when the
    timer has run out.  So between a hit and the next one, [gap] ms later
    (the elapsed times of the frames after the first hit's frame, the next
    hit's frame included), the combo is reset exactly when
    [gap + dt0 - dt' >= 1500], where [dt0] and [dt'] are the elapsed times
    of the two hit frames: the timer has been charged for the first hit's
    frame and not yet for the next hit's.  With frames of at most 32 ms a
    gap of 1532 ms or more resets the combo, so that the next hit makes it
    1, and a gap below 1468 ms keeps it, so that the next hit increments
    it; in between the outcome depends on the two frame times.  A hit at
    t = 0 and the next hit at t = 1000 ms give combo 2. *)
Theorem combo_window (dt0 : Q) (rnd0 : FrameRand) (g0 : Game)
    (fs : list (Q * FrameRand)) (dt' : Q) (rnd' : FrameRand) :
  playing g0 = true -> (0 <= combo g0)%Z -> 0 <= dt0 ->
  (0 < frameHits dt0 rnd0 g0)%nat ->
  let g1 := update dt0 rnd0 g0 in
  quietFrames fs g1 ->
  let g2 := frames fs g1 in
  let c0 := combo (afterScan dt0 rnd0 g0) in
  let gap := elapsed fs + dt' in
  let reset :=
    combo g2 = 0%Z /\
    combo (afterScan dt' rnd' g2) = Z.of_nat (frameHits dt' rnd' g2) in
  let kept :=
    combo g2 = c0 /\
    combo (afterScan dt' rnd' g2) = (c0 + Z.of_nat (frameHits dt' rnd' g2))%Z in
  c0 = (combo g0 + Z.of_nat (frameHits dt0 rnd0 g0))%Z /\
  (1500 <= gap + dt0 - dt' -> reset) /\
  (gap + dt0 - dt' < 1500 -> kept) /\
  (dt' <= 32 -> 1532 <= gap -> reset) /\
  (dt0 <= 32 -> 0 <= dt' -> gap < 1468 -> kept) /\
  (combo g0 = 0%Z -> frameHits dt0 rnd0 g0 = 1%nat ->
   frameHits dt' rnd' g2 = 1%nat ->
   dt0 <= 32 -> 0 <= dt' -> gap == 1000 ->
     combo (afterScan dt' rnd' g2) = 2%Z).
Proof.
  intros Hp Hc Hdt Hh g1 Hq g2 c0 gap reset kept.
  assert (Hc0 : c0 = (combo g0 + Z.of_nat (frameHits dt0 rnd0 g0))%Z)
    by apply afterScan_combo.
  assert (Hpos : (0 < c0)%Z) by lia.
  pose proof (quietFrames_elapsed _ _ Hq) as Hel.
  destruct (update_combo dt0 rnd0 g0 Hp) as [H1 H2]. fold g1 c0 in H1, H2.
  rewrite afterScan_comboTimer in H1, H2.
  destruct (frameHits dt0 rnd0 g0 =? 0)%nat eqn:E0; [apply Nat.eqb_eq in E0; lia |].
  apply Z.ltb_lt in Hpos. rewrite Hpos in H1, H2. apply Z.ltb_lt in Hpos.
  assert (Hback : 1500 <= dt0 + elapsed fs -> combo g2 = 0%Z).
  { intros Hw. destruct (Qle_bool (1500 - dt0) 0) eqn:E.
    - apply quiet_frames_zero; assumption.
    - apply Qle_bool_gt in E.
      destruct (quiet_frames_window fs g1 Hq) as [_ Hz].
      + rewrite H1. exact Hpos.
      + rewrite H2. exact E.
      + apply Hz. rewrite H2. lra. }
  assert (Hkeep : dt0 + elapsed fs < 1500 -> combo g2 = c0).
  { intros Hw. destruct (Qle_bool (1500 - dt0) 0) eqn:E.
    - apply Qle_bool_iff in E. lra.
    - apply Qle_bool_gt in E.
      destruct (quiet_frames_window fs g1 Hq) as [Hk _].
      + rewrite H1. exact Hpos.
      + rewrite H2. exact E.
      + unfold g2. rewrite Hk; [exact H1 |]. rewrite H2. lra. }
  assert (Hreset : 1500 <= dt0 + elapsed fs -> reset).
  { intros Hw. split; [exact (Hback Hw) |].
    rewrite afterScan_combo, (Hback Hw). lia. }
  assert (Hkept : dt0 + elapsed fs < 1500 -> kept).
  { intros Hw. split; [exact (Hkeep Hw) |].
    rewrite afterScan_combo, (Hkeep Hw). reflexivity. }
  unfold gap.
  split; [exact Hc0 |]. split; [| split; [| split; [| split]]].
  - intros Hw. apply Hreset. lra.
  - intros Hw. apply Hkept. lra.
  - intros Hcap Hw. apply Hreset. lra.
  - intros Hcap Hdt' Hw. apply Hkept. lra.
  - intros Hz Hone Hnext Hcap Hdt' Hsum.
    assert (Hw : dt0 + elapsed fs < 1500) by lra.
    rewrite afterScan_combo, (Hkeep Hw), Hc0, Hz, Hone, Hnext. reflexivity.
Qed.

Lemma combo_window_witness :
  let g0 := comboGame in
  let g1 := update 16 sampleRand g0 in
  let kept := frames [(500, sampleRand)] g1 in
  let expired := frames [(1600, sampleRand)] g1 in
  playing g0 = true /\ (0 <= combo g0)%Z /\ 0 <= 16 /\
  (0 < frameHits 16 sampleRand g0)%nat /\
  quietFrames [(500, sampleRand)] g1 /\
  quietFrames [(1600, sampleRand)] g1 /\
  elapsed [(500, sampleRand)] + 500 + 16 - 500 < 1500 /\
  1500 <= elapsed [(1600, sampleRand)] + 500 + 16 - 500 /\
  combo kept = 1%Z /\
  combo (afterScan 500 sampleRand kept) = 2%Z /\
  combo expired = 0%Z /\
  combo (afterScan 500 sampleRand expired) = 1%Z.
Proof.
  intros g0 g1 kept expired.
  assert (Hp : playing g0 = true) by reflexivity.
  assert (Hc : (0 <= combo g0)%Z) by discriminate.
  assert (Hdt : 0 <= 16) by discriminate.
  assert (Hone : frameHits 16 sampleRand g0 = 1%nat) by (vm_compute; reflexivity).
  assert (Hh : (0 < frameHits 16 sampleRand g0)%nat) by (rewrite Hone; constructor).
  assert (Hq1 : quietFrames [(500, sampleRand)] g1).
  { cbn [quietFrames fst snd].
    split; [vm_compute; reflexivity |]. split; [discriminate |].
    split; [vm_compute; reflexivity | exact I]. }
  assert (Hq2 : quietFrames [(1600, sampleRand)] g1).
  { cbn [quietFrames fst snd].
    split; [vm_compute; reflexivity |]. split; [discriminate |].
    split; [vm_compute; reflexivity | exact I]. }
  assert (Hw1 : elapsed [(500, sampleRand)] + 500 + 16 - 500 < 1500) by reflexivity.
  assert (Hw2 : 1500 <= elapsed [(1600, sampleRand)] + 500 + 16 - 500) by discriminate.
  assert (Hz : combo g0 = 0%Z) by reflexivity.
  assert (Hn1 : frameHits 500 sampleRand kept = 1%nat) by (vm_compute; reflexivity).
  assert (Hn2 : frameHits 500 sampleRand expired = 1%nat) by (vm_compute; reflexivity).
  destruct (combo_window 16 sampleRand g0 [(500, sampleRand)] 500 sampleRand
              Hp Hc Hdt Hh Hq1) as (Hc0 & _ & Hkeep & _ & _ & Hex).
  destruct (combo_window 16 sampleRand g0 [(1600, sampleRand)] 500 sampleRand
              Hp Hc Hdt Hh Hq2) as (_ & Hreset & _ & _ & _ & _).
  fold g1 kept in Hc0, Hkeep, Hex. fold g1 expired in Hreset.
  destruct (Hkeep Hw1) as [Hk _]. destruct (Hreset Hw2) as [Hr1 Hr2].
  do 8 (split; [assumption |]).
  split; [rewrite Hk, Hc0, Hz, Hone; reflexivity |].
  assert (Hcap : 16 <= 32) by discriminate.
  assert (Hdt' : 0 <= 500) by discriminate.
  assert (Hsum : elapsed [(500, sampleRand)] + 500 == 1000) by reflexivity.
  split; [exact (Hex Hz Hone Hn1 Hcap Hdt' Hsum) |].
  split; [exact Hr1 |].
  rewrite Hr2, Hn2. reflexivity.
Defined.

(** The window is not measured between the hits.  In [comboGame] a frame
    with a hit, a frame without one and a frame with the next hit: with
    elapsed times 32, 1470 and 16 the hits are 1486 ms apart, inside the
    window, and the combo has been reset, so that the next hit makes it 1;
    with elapsed times 1, 1480 and 32 the hits are 1512 ms apart, more
    than 1.5 s, and the combo is kept, so that the next hit makes it 2. *)
Lemma combo_window_off_by_a_frame :
  let hitFrame := fun dt g => frameHits dt sampleRand g = 1%nat in
  let g1 := update 32 sampleRand comboGame in
  let g2 := frames [(1470, sampleRand)] g1 in
  let h1 := update 1 sampleRand comboGame in
  let h2 := frames [(1480, sampleRand)] h1 in
  (combo comboGame = 0%Z /\ hitFrame 32 comboGame /\ combo g1 = 1%Z /\
   quietFrames [(1470, sampleRand)] g1 /\ hitFrame 16 g2 /\
   elapsed [(1470, sampleRand)] + 16 < 1500 /\
   combo g2 = 0%Z /\ combo (afterScan 16 sampleRand g2) = 1%Z) /\
  (hitFrame 1 comboGame /\ combo h1 = 1%Z /\
   quietFrames [(1480, sampleRand)] h1 /\ hitFrame 32 h2 /\
   1500 < elapsed [(1480, sampleRand)] + 32 /\
   combo h2 = 1%Z /\ combo (afterScan 32 sampleRand h2) = 2%Z).
Proof.
  cbv zeta. cbn [quietFrames fst snd].
  repeat split; try discriminate; vm_compute; reflexivity.
Qed.

(** * Further properties of the code *)

(** ** Geometry and easing helpers *)

Lemma Qsquare_nonneg x : 0 <= x * x.
Proof. nra. Qed.

Lemma Qltb_iff_compat a b c d : (a < b <-> c < d) -> Qltb a b = Qltb c d.
Proof.
  intros H. destruct (Qltb a b) eqn:E1, (Qltb c d) eqn:E2; try reflexivity.
  - apply Qltb_lt, H, Qltb_lt in E1. congruence.
  - apply Qltb_lt, H, Qltb_lt in E2. congruence.
Qed.

(** Circle collision does not depend on the order of the two circles, and
    two circles whose radii do not add up to a positive number never
    collide.  [pointInCircle] does not change when the point and the
    centre are swapped or the radius is negated, and no point is in a
    circle of radius 0. *)
Theorem circleCollision_symmetric :
  (forall x1 y1 r1 x2 y2 r2,
     circleCollision x1 y1 r1 x2 y2 r2 = circleCollision x2 y2 r2 x1 y1 r1) /\
  (forall x1 y1 r1 x2 y2 r2,
     r1 + r2 <= 0 -> circleCollision x1 y1 r1 x2 y2 r2 = false) /\
  (forall px py cx cy r,
     pointInCircle px py cx cy r = pointInCircle cx cy px py r /\
     pointInCircle px py cx cy (- r) = pointInCircle px py cx cy r /\
     pointInCircle px py cx cy 0 = false).
Proof.
  split; [| split].
  - intros. unfold circleCollision, sqrt_lt. cbv zeta. f_equal.
    + apply Qltb_iff_compat. split; intros; lra.
    + apply Qltb_iff_compat. split; intros; nra.
  - intros x1 y1 r1 x2 y2 r2 H. unfold circleCollision, sqrt_lt. cbv zeta.
    apply Qltb_ge in H. rewrite H. reflexivity.
  - intros px py cx cy r. unfold pointInCircle. cbv zeta. split; [| split].
    + apply Qltb_iff_compat. split; intros; nra.
    + apply Qltb_iff_compat. split; intros; nra.
    + apply Qltb_ge.
      pose proof (Qsquare_nonneg (px - cx)). pose proof (Qsquare_nonneg (py - cy)).
      lra.
Qed.

Lemma circleCollision_symmetric_witness :
  -3 + 2 <= 0 /\ circleCollision 0 0 (-3) 0 0 2 = false.
Proof.
  destruct circleCollision_symmetric as (_ & Hneg & _).
  assert (Hr : -3 + 2 <= 0) by discriminate.
  split; [exact Hr | exact (Hneg 0 0 (-3) 0 0 2 Hr)].
Defined.

(** The stagnation zones are mirror images of each other, and on a canvas
    of positive width the centre line is in neither. *)
Theorem stagnation_zone_mirror :
  (forall x w, isInStagnationZone (w - x) w = isInStagnationZone x w) /\
  (forall w, 0 < w -> isInStagnationZone (w / 2) w = false).
Proof.
  split.
  - intros x w. unfold isInStagnationZone, Qgtb. cbv zeta.
    rewrite orb_comm. f_equal; apply Qltb_iff_compat; split; intros; lra.
  - intros w Hw. unfold isInStagnationZone, Qgtb. cbv zeta.
    assert (Hh : w / 2 == w * (1 # 2)) by reflexivity.
    apply orb_false_iff. split; apply Qltb_ge; rewrite Hh; lra.
Qed.

Lemma stagnation_zone_mirror_witness :
  0 < 800 /\ isInStagnationZone (800 / 2) 800 = false.
Proof.
  destruct stagnation_zone_mirror as [_ H].
  assert (Hw : 0 < 800) by reflexivity.
  split; [exact Hw | exact (H 800 Hw)].
Defined.

(** On [0, 1] both easing curves start at 0, end at 1, stay within [0, 1]
    and never decrease. *)
Theorem easing_curves_monotone :
  smoothStep 0 == 0 /\ smoothStep 1 == 1 /\
  easeOutQuad 0 == 0 /\ easeOutQuad 1 == 1 /\
  (forall x, 0 <= x -> x <= 1 ->
     0 <= smoothStep x /\ smoothStep x <= 1 /\
     0 <= easeOutQuad x /\ easeOutQuad x <= 1) /\
  (forall x y, 0 <= x -> x <= y -> y <= 1 ->
     smoothStep x <= smoothStep y /\ easeOutQuad x <= easeOutQuad y).
Proof.
  split; [reflexivity |]. split; [reflexivity |].
  split; [reflexivity |]. split; [reflexivity |].
  unfold smoothStep, easeOutQuad. split.
  - intros x H0 H1.
    assert (Hx : 0 <= x * x) by nra.
    assert (Ha : 0 <= x * x * (3 - 2 * x)).
    { apply Qmult_le_0_compat; [exact Hx | lra]. }
    assert (Hb : 0 <= (1 - x) * (1 - x) * (1 + 2 * x)).
    { apply Qmult_le_0_compat; [nra | lra]. }
    assert (Hc : x * x * (3 - 2 * x) == 1 - (1 - x) * (1 - x) * (1 + 2 * x)) by ring.
    repeat split; [exact Ha | lra | nra | nra].
  - intros x y H0 H1 H2.
    assert (Ha : 0 <= (y - x) * (3 * (x + y) - 2 * (x * x + x * y + y * y))).
    { apply Qmult_le_0_compat; nra. }
    assert (Hb : y * y * (3 - 2 * y) - x * x * (3 - 2 * x)
                 == (y - x) * (3 * (x + y) - 2 * (x * x + x * y + y * y))) by ring.
    split; [lra | nra].
Qed.

Lemma easing_curves_monotone_witness :
  0 <= 0.25 /\ 0.25 <= 0.75 /\ 0.75 <= 1 /\
  smoothStep 0.25 <= smoothStep 0.75 /\ easeOutQuad 0.25 <= easeOutQuad 0.75.
Proof.
  destruct easing_curves_monotone as (_ & _ & _ & _ & _ & Hmono).
  assert (H0 : 0 <= 0.25) by discriminate.
  assert (H1 : 0.25 <= 0.75) by discriminate.
  assert (H2 : 0.75 <= 1) by discriminate.
  split; [exact H0 |]. split; [exact H1 |]. split; [exact H2 |].
  exact (Hmono 0.25 0.75 H0 H1 H2).
Defined.

(** ** Particle system *)

Lemma newParticle_fresh x y color r :
  0 <= rnd_decay r -> fresh (newParticle x y color r).
Proof. unfold fresh. cbn [newParticle life particle_decay]. intros. lra. Qed.

Lemma emit_spec x y count colors rnd ps :
  length (emit x y count colors rnd ps) = (length ps + count)%nat /\
  forall i, (i < count)%nat ->
    emit x y count colors rnd ps !! (length ps + i)%nat
    = Some (newParticle x y (pickColor colors (rnd_color (rnd i))) (rnd i)).
Proof.
  unfold emit. split.
  - rewrite length_app, length_map, length_seq. reflexivity.
  - intros i Hi. rewrite lookup_app_r by lia.
    replace (length ps + i - length ps)%nat with i by lia.
    rewrite lookup_map, lookup_seq_lt by exact Hi. reflexivity.
Qed.

(** [emit] appends exactly [count] particles after those already there,
    each at the emission point with a full life; with no colour to pick
    from, every one of them has an undefined colour. *)
Theorem emit_appends_count_particles x y count colors rnd ps :
  length (emit x y count colors rnd ps) = (length ps + count)%nat /\
  (forall i, (i < length ps)%nat -> emit x y count colors rnd ps !! i = ps !! i) /\
  (forall i, (i < count)%nat ->
     exists p, emit x y count colors rnd ps !! (length ps + i)%nat = Some p /\
               particle_x p = x /\ particle_y p = y /\ life p = 1.0 /\
               (colors = [] -> particle_color p = None)).
Proof.
  destruct (emit_spec x y count colors rnd ps) as [Hlen Hnew].
  split; [exact Hlen |]. split.
  - intros i Hi. unfold emit. apply lookup_app_l. exact Hi.
  - intros i Hi. eexists. split; [apply Hnew, Hi |].
    repeat split. intros ->. unfold pickColor.
    destruct (0 <=? _)%Z; [apply lookup_nil | reflexivity].
Qed.

Lemma emit_appends_count_particles_witness :
  let ps := emit 10 20 4 [] (fun _ => {| rnd_color := 0.5; rnd_pvx := 0.5;
                                         rnd_pvy := 0.5; rnd_decay := 0.5;
                                         rnd_size := 0.5 |}) [] in
  (1 < 4)%nat /\ length ps = 4%nat /\
  exists p, ps !! 1%nat = Some p /\ particle_x p = 10 /\ particle_y p = 20 /\
            life p = 1.0 /\ particle_color p = None.
Proof.
  intros ps.
  assert (H1 : (1 < 4)%nat) by (repeat constructor).
  destruct (emit_appends_count_particles 10 20 4 []
              (fun _ => {| rnd_color := 0.5; rnd_pvx := 0.5; rnd_pvy := 0.5;
                           rnd_decay := 0.5; rnd_size := 0.5 |}) [])
    as (Hlen & _ & Hnew).
  destruct (Hnew 1%nat H1) as (p & Hp & Hx & Hy & Hl & Hc).
  split; [exact H1 |]. split; [exact Hlen |].
  exists p. repeat split; try assumption. apply Hc. reflexivity.
Defined.

Lemma particles_update_step (k : Z) ps :
  Forall (fun p => life p <= 1 - 0.02 * inject_Z k /\ 0.02 <= particle_decay p) ps ->
  Forall (fun p => life p <= 1 - 0.02 * inject_Z (k + 1) /\ 0.02 <= particle_decay p
                   /\ 0 < life p)
         (particles_update ps).
Proof.
  unfold particles_update. induction 1 as [| p ps [Hl Hd] _ IH]; cbn [map List.filter].
  - constructor.
  - destruct (isDead (particle_update p)) eqn:E; cbn [negb]; [exact IH |].
    constructor; [| exact IH].
    apply Qle_bool_gt in E. cbn [particle_update life particle_decay] in *.
    rewrite inject_Z_plus. change (inject_Z 1) with 1. repeat split; lra.
Qed.

Lemma particles_updates_bound (n : nat) :
  forall ps, Forall fresh ps ->
    Forall (fun p => life p <= 1 - 0.02 * inject_Z (Z.of_nat n)
                     /\ 0.02 <= particle_decay p
                     /\ (n <> 0%nat -> 0 < life p))
           (Nat.iter n particles_update ps).
Proof.
  induction n as [| n IH]; intros ps H.
  - cbn [Nat.iter]. eapply Forall_impl; [exact H |].
    intros p [Hl Hd]. change (inject_Z (Z.of_nat 0)) with 0.
    repeat split; [lra | exact Hd | congruence].
  - cbn [Nat.iter]. specialize (IH ps H).
    rewrite Nat2Z.inj_succ, <- Z.add_1_r.
    assert (Hpre : Forall (fun p => life p <= 1 - 0.02 * inject_Z (Z.of_nat n)
                                    /\ 0.02 <= particle_decay p)
                          (Nat.iter n particles_update ps)).
    { eapply Forall_impl; [exact IH |]. intros p (Hl & Hd & _). split; assumption. }
    eapply Forall_impl; [exact (particles_update_step _ _ Hpre) |].
    intros p (Hl & Hd & Hp).
    split; [exact Hl |]. split; [exact Hd | intros _; exact Hp].
Qed.

(** The particle system does not leak: an update never adds a particle
    and keeps only particles with life left, and since a particle loses at
    least 0.02 of its life per update, a system left without new
    emissions is empty after 50 updates. *)
Theorem particles_gone_after_50_updates (ps : ParticleSystem) :
  (length (particles_update ps) <= length ps)%nat /\
  Forall (fun p => 0 < life p) (particles_update ps) /\
  (Forall fresh ps ->
     Forall fresh (particles_update ps) /\ Nat.iter 50 particles_update ps = []).
Proof.
  split; [| split].
  - unfold particles_update. rewrite <- (length_map particle_update ps).
    apply List.filter_length_le.
  - unfold particles_update. apply Forall_forall. intros p Hp.
    apply list_elem_of_In, filter_In in Hp. destruct Hp as [_ Hp].
    apply negb_true_iff, Qle_bool_gt in Hp. exact Hp.
  - intros H. split.
    + pose proof (particles_update_step 0 ps) as Hs.
      eapply Forall_impl; [apply Hs |].
      * eapply Forall_impl; [exact H |]. intros p [Hl Hd].
        change (inject_Z 0) with 0. split; [lra | exact Hd].
      * intros p (Hl & Hd & Hp). change (inject_Z (0 + 1)) with 1 in Hl.
        split; [lra | exact Hd].
    + pose proof (particles_updates_bound 50 ps H) as Hb.
      destruct (Nat.iter 50 particles_update ps) as [| p rest]; [reflexivity |].
      apply Forall_cons in Hb. destruct Hb as [(Hl & _ & Hp) _].
      change (inject_Z (Z.of_nat 50)) with 50 in Hl.
      assert (0 < life p) by (apply Hp; discriminate). lra.
Qed.

Lemma particles_gone_after_50_updates_witness :
  let ps := emit 10 20 30 [] (fun _ => {| rnd_color := 0; rnd_pvx := 0;
                                          rnd_pvy := 0; rnd_decay := 0;
                                          rnd_size := 0 |}) [] in
  Forall fresh ps /\ Nat.iter 50 particles_update ps = [].
Proof.
  intros ps.
  assert (H : Forall fresh ps).
  { apply Forall_forall. intros p Hp. unfold ps, emit in Hp.
    cbn [app] in Hp. apply list_elem_of_In, in_map_iff in Hp.
    destruct Hp as (i & <- & _). apply newParticle_fresh. discriminate. }
  destruct (particles_gone_after_50_updates ps) as (_ & _ & Hgone).
  split; [exact H | exact (proj2 (Hgone H))].
Defined.

(** ** Screen shake *)

Lemma shake_update_intensity_mono a b c d s1 s2 :
  0 <= intensity s1 -> intensity s1 <= intensity s2 ->
  0 <= intensity (shake_update a b s1) /\
  intensity (shake_update a b s1) <= intensity (shake_update c d s2).
Proof.
  intros H0 H. unfold shake_update, shake_decay, Qgtb.
  destruct (Qltb 0.5 (intensity s1)) eqn:E1, (Qltb 0.5 (intensity s2)) eqn:E2;
    cbn [intensity];
    try apply Qltb_lt in E1; try apply Qltb_lt in E2;
    try apply Qltb_ge in E1; try apply Qltb_ge in E2; split; lra.
Qed.

Lemma shake_updates_intensity_mono rnd1 rnd2 n :
  forall s1 s2,
    0 <= intensity s1 -> intensity s1 <= intensity s2 ->
    0 <= intensity (shake_updates rnd1 n s1) /\
    intensity (shake_updates rnd1 n s1) <= intensity (shake_updates rnd2 n s2).
Proof.
  induction n as [| n IH]; intros s1 s2 H0 H; cbn [shake_updates].
  - split; assumption.
  - destruct (IH s1 s2 H0 H) as [IH0 IH1].
    apply shake_update_intensity_mono; assumption.
Qed.

Lemma shake_updates_S rnd n s :
  shake_updates rnd (S n) s
  = shake_update (fst (rnd n)) (snd (rnd n)) (shake_updates rnd n s).
Proof. reflexivity. Qed.

Lemma shake_update_rest r1 r2 s :
  intensity s <= 0.5 -> shake_update r1 r2 s = newScreenShake.
Proof.
  intros H. unfold shake_update, Qgtb. apply Qltb_ge in H. rewrite H. reflexivity.
Qed.

(** A shake dies out: an update never raises the intensity, the offsets it
    draws are within the intensity on either side, and a shake of
    intensity at most 16 (the game triggers 3, 4, 5, 8 and 15) is fully at
    rest, offsets included, after 34 updates and stays there. *)
Theorem shake_settles_within_34_updates :
  (forall r1 r2 s,
     0 <= r1 -> r1 < 1 -> 0 <= r2 -> r2 < 1 -> 0 <= intensity s ->
     let s' := shake_update r1 r2 s in
     0 <= intensity s' /\ intensity s' <= intensity s /\
     - intensity s <= offsetX s' /\ offsetX s' <= intensity s /\
     - intensity s <= offsetY s' /\ offsetY s' <= intensity s) /\
  (forall rnd s n,
     0 <= intensity s -> intensity s <= 16 -> (34 <= n)%nat ->
     shake_updates rnd n s = newScreenShake).
Proof.
  split.
  - intros r1 r2 s Ha Hb Hc Hd H0. unfold shake_update, shake_decay, Qgtb.
    destruct (Qltb 0.5 (intensity s)) eqn:E; cbn [intensity offsetX offsetY].
    + apply Qltb_lt in E. repeat split; nra.
    + repeat split; lra.
  - intros rnd s n H0 H16 Hn.
    assert (H33 : intensity (shake_updates rnd 33 s) <= 0.5).
    { destruct (shake_updates_intensity_mono rnd (fun _ => (0, 0)) 33 s
                  {| intensity := 16; offsetX := 0; offsetY := 0 |} H0 H16)
        as [_ Hle].
      eapply Qle_trans; [exact Hle |]. vm_compute. discriminate. }
    assert (H34 : shake_updates rnd 34 s = newScreenShake).
    { rewrite (shake_updates_S rnd 33 s). apply shake_update_rest, H33. }
    induction Hn as [| m Hm IH]; [exact H34 |].
    rewrite shake_updates_S, IH. apply shake_update_rest. discriminate.
Qed.

Lemma shake_settles_within_34_updates_witness :
  let s := shake_trigger (Some 15) newScreenShake in
  0 <= intensity s /\ intensity s <= 16 /\ (34 <= 40)%nat /\
  shake_updates (fun _ => (0.25, 0.75)) 40 s = newScreenShake /\
  - intensity s <= offsetX (shake_update 0.25 0.75 s).
Proof.
  intros s. destruct shake_settles_within_34_updates as [Hstep Hrest].
  assert (H0 : 0 <= intensity s) by discriminate.
  assert (H16 : intensity s <= 16) by discriminate.
  assert (Hn : (34 <= 40)%nat) by (repeat constructor).
  assert (Ha : 0 <= 0.25) by discriminate.
  assert (Hb : 0.25 < 1) by reflexivity.
  assert (Hc : 0 <= 0.75) by discriminate.
  assert (Hd : 0.75 < 1) by reflexivity.
  destruct (Hstep 0.25 0.75 s Ha Hb Hc Hd H0) as (_ & _ & Hx & _).
  split; [exact H0 |]. split; [exact H16 |]. split; [exact Hn |].
  split; [exact (Hrest _ s 40%nat H0 H16 Hn) | exact Hx].
Defined.

(** ** Level transition *)

Lemma transition_updates_inactive dts :
  forall t, active t = false -> transition_updates dts t = t.
Proof.
  unfold transition_updates.
  induction dts as [| dt dts IH]; intros t H; cbn [fold_left]; [reflexivity |].
  assert (E : transition_update dt t = t).
  { unfold transition_update. rewrite H. reflexivity. }
  rewrite E. apply IH, H.
Qed.

Lemma Qsum_nonneg dts : Forall (fun dt => 0 <= dt) dts -> 0 <= Qsum dts.
Proof.
  induction 1 as [| dt dts H _ IH]; cbn [Qsum]; lra.
Qed.

Lemma transition_updates_active dts :
  Forall (fun dt => 0 <= dt) dts ->
  forall t, active t = true -> progress t < 1 ->
    (progress t + Qsum dts * 0.002 < 1 ->
       active (transition_updates dts t) = true /\
       progress (transition_updates dts t) == progress t + Qsum dts * 0.002) /\
    (1 <= progress t + Qsum dts * 0.002 ->
       active (transition_updates dts t) = false /\
       progress (transition_updates dts t) = 0).
Proof.
  unfold transition_updates.
  induction 1 as [| dt dts Hdt Hdts IH]; intros t Ha Hlt; cbn [fold_left Qsum].
  - split; [intros _; split; [exact Ha | lra] | intros H; exfalso; lra].
  - pose proof (Qsum_nonneg dts Hdts) as Hs.
    unfold transition_update at 2 4 6 8. rewrite Ha. cbn [negb].
    destruct (Qgeb (progress t + dt * 0.002) 1) eqn:E; unfold Qgeb in E.
    + apply Qle_bool_iff in E.
      fold (transition_updates dts {| active := false; progress := 0; fadeIn := fadeIn t |}).
      rewrite transition_updates_inactive by reflexivity.
      split; [intros; lra | intros _; split; reflexivity].
    + apply Qle_bool_gt in E.
      destruct (IH {| active := true; progress := progress t + dt * 0.002;
                      fadeIn := fadeIn t |} eq_refl E) as [IH1 IH2].
      cbn [progress] in IH1, IH2. split; intros Hw.
      * destruct IH1 as [H1 H2]; [lra |]. split; [exact H1 | rewrite H2; lra].
      * apply IH2. lra.
Qed.

Lemma transition_alpha_range t a :
  0 <= progress t -> progress t < 1 -> transition_alpha t = Some a ->
  0 <= a /\ a <= 1.
Proof.
  unfold transition_alpha. intros H0 H1.
  destruct (negb (active t)); [discriminate |].
  destruct (Qltb (progress t) 0.5) eqn:E; intros [= <-].
  - apply Qltb_lt in E. lra.
  - apply Qltb_ge in E. lra.
Qed.



(** ** Overlays and HUD *)

(** Whatever the overlays were, after any call of the controller at most
    one of them is shown: [hideAll] shows none, and each [show] call shows
    its own overlay, when the page has it, and no other. *)
Theorem at_most_one_overlay_active (o : OverlayController) :
  (forall k, (activeCount (overlay_call k o) <= 1)%nat) /\
  activeCount (hideAll o) = 0%nat /\
  startScreen (showStart o) = classAdd (startScreen o) /\
  gameOverScreen (showGameOver o) = classAdd (gameOverScreen o) /\
  levelCompleteScreen (showLevelComplete o) = classAdd (levelCompleteScreen o) /\
  scienceModal (showScienceModal o) = classAdd (scienceModal o).
Proof.
  destruct o as [[a |] [b |] [c |] [d |]];
    (split; [intros []; cbn; lia | repeat split]).
Qed.

Lemma Qdiv_100 x : x / 100 == x * (1 # 100).
Proof. reflexivity. Qed.

(** The CRS bar: the filled part never leaves the bar and a percentage of
    100 or more fills it.  On a bar of positive width the fill takes its
    danger gradient, and the glow, exactly when the calculator reports the
    critical state; on a bar without width, or at a percentage of 0, the
    fill is empty and no gradient is chosen.  The percentage text is in
    the danger colour exactly when the state is critical, whatever the
    width. *)
Theorem crs_bar_matches_critical :
  (forall barWidth percentage,
     0 <= barWidth -> 0 <= percentage ->
     0 <= fillWidth barWidth percentage /\ fillWidth barWidth percentage <= barWidth) /\
  (forall barWidth percentage,
     100 <= percentage -> fillWidth barWidth percentage == barWidth) /\
  (forall barWidth c,
     0 < barWidth ->
     (barGradient barWidth (getCRSPercentage c) = Some WarningToDanger
      <-> isCritical c = true) /\
     barGlow barWidth (getCRSPercentage c) = isCritical c) /\
  (forall barWidth percentage,
     (barWidth <= 0 /\ 0 <= percentage) \/ (0 <= barWidth /\ percentage <= 0) ->
     barGradient barWidth percentage = None /\ barGlow barWidth percentage = false) /\
  (forall c, percentageColor (getCRSPercentage c) = DangerText <-> isCritical c = true).
Proof.
  assert (Hpct : forall c, getCRSPercentage c == crsValue c).
  { intros c. unfold getCRSPercentage, maxCRS. rewrite Qdiv_100. lra. }
  split; [| split; [| split; [| split]]].
  - intros w pct Hw Hp. unfold fillWidth. rewrite Qdiv_100.
    destruct (Qmin_cases pct 100) as [[? E] | [? E]]; rewrite E; split; nra.
  - intros w pct Hp. unfold fillWidth. rewrite Qdiv_100.
    destruct (Qmin_cases pct 100) as [[? E] | [? E]]; rewrite E; [| lra].
    assert (pct == 100) by lra. nra.
  - intros w c Hw. specialize (Hpct c).
    unfold barGradient, barGlow, isCritical, Qgtb, Qgeb.
    set (pct := getCRSPercentage c) in *.
    assert (Hfill : 70 <= pct -> 0 < fillWidth w pct).
    { intros H70. unfold fillWidth. rewrite Qdiv_100.
      destruct (Qmin_cases pct 100) as [[? E] | [? E]]; rewrite E; nra. }
    destruct (Qle_bool 70 (crsValue c)) eqn:Ecrit.
    + apply Qle_bool_iff in Ecrit.
      assert (H70 : 70 <= pct) by lra.
      apply Hfill, Qltb_lt in H70 as Hpos. rewrite Hpos.
      assert (E1 : Qltb pct 50 = false) by (apply Qltb_ge; lra).
      assert (E2 : Qltb pct 70 = false) by (apply Qltb_ge; lra).
      rewrite E1, E2.
      assert (E3 : Qle_bool 70 pct = true) by (apply Qle_bool_iff; lra).
      rewrite E3. split; [split; reflexivity | reflexivity].
    + apply Qle_bool_gt in Ecrit.
      assert (E3 : Qle_bool 70 pct = false).
      { destruct (Qle_bool 70 pct) eqn:E; [| reflexivity].
        apply Qle_bool_iff in E. lra. }
      rewrite E3.
      assert (E2 : Qltb pct 70 = true) by (apply Qltb_lt; lra).
      rewrite E2.
      destruct (Qltb 0 (fillWidth w pct)); [| split; [split; discriminate | reflexivity]].
      destruct (Qltb pct 50); split; try reflexivity; split; discriminate.
  - intros w pct Hcase. unfold barGradient, barGlow, Qgtb.
    assert (Hfill : Qltb 0 (fillWidth w pct) = false).
    { apply Qltb_ge. unfold fillWidth. rewrite Qdiv_100.
      destruct (Qmin_cases pct 100) as [[? E] | [? E]]; rewrite E;
        destruct Hcase as [[? ?] | [? ?]]; nra. }
    rewrite Hfill. split; reflexivity.
  - intros c. specialize (Hpct c). unfold percentageColor, isCritical, Qgeb.
    destruct (Qle_bool 70 (getCRSPercentage c)) eqn:E1;
      destruct (Qle_bool 70 (crsValue c)) eqn:E2;
      try apply Qle_bool_iff in E1; try apply Qle_bool_iff in E2;
      try apply Qle_bool_gt in E1; try apply Qle_bool_gt in E2;
      split; intros; try reflexivity; try discriminate; lra.
Qed.

Lemma crs_bar_matches_critical_witness :
  let c := {| crsValue := 85 |} in
  0 <= 300 /\ 0 <= 85 /\ 100 <= 120 /\ 0 < 300 /\
  fillWidth 300 85 <= 300 /\ fillWidth 300 120 == 300 /\
  barGlow 300 (getCRSPercentage c) = isCritical c /\
  barGradient 0 (getCRSPercentage c) = None.
Proof.
  intros c. destruct crs_bar_matches_critical as (Hin & Hfull & Hcrit & Hempty & _).
  assert (Hw : 0 <= 300) by discriminate.
  assert (Hp : 0 <= 85) by discriminate.
  assert (Hf : 100 <= 120) by discriminate.
  assert (Hpos : 0 < 300) by reflexivity.
  assert (He : (0 <= 0 /\ 0 <= getCRSPercentage c)
               \/ (0 <= 0 /\ getCRSPercentage c <= 0))
    by (left; split; discriminate).
  split; [exact Hw |]. split; [exact Hp |]. split; [exact Hf |]. split; [exact Hpos |].
  split; [exact (proj2 (Hin 300 85 Hw Hp)) |]. split; [exact (Hfull 300 120 Hf) |].
  split; [exact (proj2 (Hcrit 300 c Hpos)) | exact (proj1 (Hempty 0 _ He))].
Defined.

(** The clock of the HUD and of the game-over screen: for a non-negative
    whole number of seconds the minutes and seconds shown add up to it,
    with the seconds below 60. *)
Theorem formatTime_splits_seconds (seconds : Z) :
  (0 <= seconds)%Z ->
  let '(mins, secs) := formatTime seconds in
  seconds = (60 * mins + secs)%Z /\ (0 <= secs < 60)%Z /\ (0 <= mins)%Z.
Proof.
  intros H. unfold formatTime.
  assert (Hm : Qfloor (inject_Z seconds / 60) = (seconds / 60)%Z).
  { unfold Qdiv, Qfloor, inject_Z, Qinv, Qmult. cbn [Qnum Qden].
    rewrite Z.mul_1_r. reflexivity. }
  rewrite Hm, Z.rem_mod_nonneg by lia.
  pose proof (Z.div_mod seconds 60 ltac:(lia)).
  pose proof (Z.mod_pos_bound seconds 60 ltac:(lia)).
  pose proof (Z.div_pos seconds 60 H ltac:(lia)).
  repeat split; lia.
Qed.

Lemma formatTime_splits_seconds_witness :
  (0 <= 125)%Z /\ formatTime 125 = (2%Z, 5%Z) /\
  (let '(mins, secs) := formatTime 125 in
   125%Z = (60 * mins + secs)%Z /\ (0 <= secs < 60)%Z /\ (0 <= mins)%Z).
Proof.
  assert (H : (0 <= 125)%Z) by discriminate.
  split; [exact H |]. split; [reflexivity |].
  exact (formatTime_splits_seconds 125 H).
Defined.

(** ** Entities *)

Lemma half_player_width : player_width / 2 == 25.
Proof. reflexivity. Qed.

(** [Player.update] on a canvas at least as wide as the player: the
    player ends within the canvas, half its width from either edge; and
    when it and its target are there already, it moves 12% of the way to
    the target, so that the distance left is 88% of what it was, and does
    not overshoot.  Its height and its target are not touched. *)
Theorem player_update_stays_in_canvas (deltaTime w : Q) (p : Player) :
  50 <= w ->
  let p' := player_update deltaTime w p in
  25 <= player_x p' /\ player_x p' <= w - 25 /\
  player_y p' = player_y p /\ targetX p' = targetX p /\
  (25 <= player_x p -> player_x p <= w - 25 ->
   25 <= targetX p -> targetX p <= w - 25 ->
   player_x p' - targetX p == 0.88 * (player_x p - targetX p)).
Proof.
  intros Hw. cbv zeta. unfold player_update, lerp, lerpFactor. cbv zeta.
  cbn [player_x player_y targetX].
  pose proof half_player_width as Hh.
  set (h := player_width / 2) in *.
  set (x := player_x p + (targetX p - player_x p) * 0.12).
  split; [| split; [| split; [reflexivity | split; [reflexivity |]]]].
  - destruct (Qmax_cases h (Qmin (w - h) x)) as [[? E] | [? E]]; rewrite E; lra.
  - destruct (Qmax_cases h (Qmin (w - h) x)) as [[? E] | [? E]]; rewrite E;
      destruct (Qmin_cases (w - h) x) as [[? E'] | [? E']]; try rewrite E'; lra.
  - intros H1 H2 H3 H4.
    destruct (Qmax_cases h (Qmin (w - h) x)) as [[? E] | [? E]]; rewrite E;
      destruct (Qmin_cases (w - h) x) as [[? E'] | [? E']];
      try rewrite E'; try rewrite E' in *; unfold x in *; lra.
Qed.

Lemma player_update_stays_in_canvas_witness :
  let p := setTarget 700 (newPlayer 800 600) in
  let p' := player_update 16 800 p in
  50 <= 800 /\ 25 <= player_x p' /\ player_x p' <= 800 - 25 /\
  player_x p' - targetX p == 0.88 * (player_x p - targetX p).
Proof.
  intros p p'.
  assert (Hw : 50 <= 800) by discriminate.
  destruct (player_update_stays_in_canvas 16 800 p Hw) as (H1 & H2 & _ & _ & H5).
  split; [exact Hw |]. split; [exact H1 |]. split; [exact H2 |].
  apply H5; discriminate.
Defined.

Lemma Qdiv_self x : 0 < x -> x / x == 1.
Proof. intros H. apply Qmult_inv_r. lra. Qed.

(** A clot as the constructor builds it from draws in [0, 1): a base
    radius in [45, 80) which is also its radius (scale 1), a shrink
    amount in [5, 8), a sideways speed in [-0.25, 0.25), and a downward
    speed of at least 0.4 at difficulty 1 or more.  None of its first four
    hits destroys it, and every hit from the fourteenth on reports it
    destroyed. *)
Theorem newClot_takes_5_to_14_hits (x y dm : Q) (r : ClotRand) :
  validClotRand r ->
  let c := newClot x y dm r in
  45 <= baseRadius c /\ baseRadius c < 80 /\ radius c = baseRadius c /\
  getScale c == 1 /\ minRadius c = 10 /\
  5 <= shrinkAmount c /\ shrinkAmount c < 8 /\
  -0.25 <= vx c /\ vx c < 0.25 /\
  (1 <= dm -> 0.4 <= speed c) /\
  (forall n, (n < 4)%nat -> snd (hit (fst (hits n c))) = false) /\
  (forall n, (13 <= n)%nat -> snd (hit (fst (hits n c))) = true).
Proof.
  intros ([Hx0 Hx1] & [Hb0 Hb1] & [Hs0 Hs1] & [Hv0 Hv1] & [Hd0 Hd1] & _) c.
  assert (Hbase : 45 <= baseRadius c /\ baseRadius c < 80).
  { cbn [c newClot baseRadius]. lra. }
  assert (Hshrink : 5 <= shrinkAmount c /\ shrinkAmount c < 8).
  { cbn [c newClot shrinkAmount]. lra. }
  assert (Hrad : radius c = baseRadius c) by reflexivity.
  assert (Hmin : minRadius c = 10) by reflexivity.
  destruct Hbase as [Hb45 Hb80]. destruct Hshrink as [Hs5 Hs8].
  assert (Hhit : forall n,
             radius (fst (hit (fst (hits n c))))
             == baseRadius c - inject_Z (Z.of_nat (S n)) * shrinkAmount c).
  { intros n. rewrite hit_radius, hits_radius, hits_shrinkAmount, Hrad.
    rewrite Nat2Z.inj_succ, <- Z.add_1_r, inject_Z_plus.
    change (inject_Z 1) with 1. lra. }
  repeat split; try assumption.
  - unfold getScale. rewrite Hrad. apply Qdiv_self. lra.
  - cbn [c newClot vx]. lra.
  - cbn [c newClot vx]. lra.
  - intros Hdm. cbn [c newClot speed]. nra.
  - intros n Hn.
    destruct (snd (hit (fst (hits n c)))) eqn:E; [| reflexivity].
    apply hit_destroyed in E. rewrite hit_minRadius, hits_minRadius, Hmin, Hhit in E.
    assert (Hle : inject_Z (Z.of_nat (S n)) <= 4).
    { change 4 with (inject_Z 4). rewrite <- Zle_Qle. lia. }
    assert (H0 : 0 <= inject_Z (Z.of_nat (S n))).
    { change 0 with (inject_Z 0). rewrite <- Zle_Qle. lia. }
    exfalso. nra.
  - intros n Hn. apply hit_destroyed.
    rewrite hit_minRadius, hits_minRadius, Hmin, Hhit.
    assert (Hge : 14 <= inject_Z (Z.of_nat (S n))).
    { change 14 with (inject_Z 14). rewrite <- Zle_Qle. lia. }
    nra.
Qed.

Lemma newClot_takes_5_to_14_hits_witness :
  let r := {| rnd_x := 0.5; rnd_baseRadius := 0.9; rnd_shrinkAmount := 0.1;
              rnd_speed := 0.5; rnd_vx := 0.5; rnd_drop := 0.5 |} in
  let c := newClot 100 (-80) 1 r in
  validClotRand r /\ (3 < 4)%nat /\ (13 <= 13)%nat /\
  snd (hit (fst (hits 3 c))) = false /\ snd (hit (fst (hits 13 c))) = true.
Proof.
  intros r c.
  assert (Hr : validClotRand r).
  { repeat split; first [discriminate | reflexivity]. }
  assert (H3 : (3 < 4)%nat) by (repeat constructor).
  assert (H13 : (13 <= 13)%nat) by constructor.
  destruct (newClot_takes_5_to_14_hits 100 (-80) 1 r Hr)
    as (_ & _ & _ & _ & _ & _ & _ & _ & _ & _ & Hlow & Hhigh).
  split; [exact Hr |]. split; [exact H3 |]. split; [exact H13 |].
  split; [exact (Hlow 3%nat H3) | exact (Hhigh 13%nat H13)].
Defined.

(** [Clot.update] moves the clot down by its speed and leaves its radii
    and shrink amount alone.  On a canvas at least as wide as the clot it
    ends within the side walls, a radius from either; its sideways speed
    keeps its magnitude, flipping sign exactly when the step took the clot
    past a wall. *)
Theorem clot_update_bounces_off_walls (deltaTime w : Q) (c : Clot) :
  2 * radius c <= w ->
  let c' := clot_update deltaTime w c in
  let x := clot_x c + vx c in
  radius c <= clot_x c' /\ clot_x c' <= w - radius c /\
  clot_y c' = clot_y c + speed c /\
  radius c' = radius c /\ baseRadius c' = baseRadius c /\
  minRadius c' = minRadius c /\ shrinkAmount c' = shrinkAmount c /\
  residenceTime c' = residenceTime c + deltaTime /\
  (radius c <= x -> x <= w - radius c -> clot_x c' == x /\ vx c' = vx c) /\
  (x < radius c \/ w - radius c < x -> vx c' = vx c * -1).
Proof.
  intros Hw. cbv zeta. unfold clot_update. cbv zeta.
  cbn [clot_x clot_y radius baseRadius minRadius shrinkAmount residenceTime vx].
  set (x := clot_x c + vx c). set (r := radius c) in *.
  assert (Hclamp : r <= Qmax r (Qmin (w - r) x) /\ Qmax r (Qmin (w - r) x) <= w - r).
  { destruct (Qmax_cases r (Qmin (w - r) x)) as [[? E] | [? E]]; rewrite E;
      destruct (Qmin_cases (w - r) x) as [[? E'] | [? E']];
      try rewrite E'; try rewrite E' in *; split; lra. }
  destruct Hclamp as [Hlo Hhi].
  repeat split; try assumption.
  - destruct (Qmax_cases r (Qmin (w - r) x)) as [[? E] | [? E]]; rewrite E;
      destruct (Qmin_cases (w - r) x) as [[? E'] | [? E']];
      try rewrite E'; try rewrite E' in *; lra.
  - unfold Qgtb.
    assert (E1 : Qltb x r = false) by (apply Qltb_ge; assumption).
    assert (E2 : Qltb (w - r) x = false) by (apply Qltb_ge; assumption).
    rewrite E1, E2. reflexivity.
  - intros [H | H]; unfold Qgtb.
    + apply Qltb_lt in H. rewrite H. reflexivity.
    + apply Qltb_lt in H. rewrite H, orb_true_r. reflexivity.
Qed.

Lemma clot_update_bounces_off_walls_witness :
  let c := sampleClot 30 100 in
  let c' := clot_update 16 800 c in
  2 * radius c <= 800 /\ radius c <= clot_x c' /\ clot_x c' <= 800 - radius c /\
  vx c' = vx c * -1.
Proof.
  intros c c'.
  assert (Hw : 2 * radius c <= 800) by discriminate.
  destruct (clot_update_bounces_off_walls 16 800 c Hw)
    as (H1 & H2 & _ & _ & _ & _ & _ & _ & _ & Hflip).
  split; [exact Hw |]. split; [exact H1 |]. split; [exact H2 |].
  apply Hflip. left. reflexivity.
Defined.

Lemma pulse_update_spec p :
  pulse_update p
  = ({| pulse_x := pulse_x p; pulse_y := pulse_y p - 12 |},
     Qltb (-8) (pulse_y p - 12)).
Proof. reflexivity. Qed.

Lemma pulses_after_nil n : pulses_after n [] = [].
Proof.
  unfold pulses_after. induction n as [| n IH]; [reflexivity |].
  rewrite Nat.iter_succ, IH. reflexivity.
Qed.

Lemma pulses_after_S n ps :
  pulses_after (S n) ps = pulses_after n (filter_update pulse_update ps).
Proof. unfold pulses_after. apply Nat.iter_succ_r. Qed.

Lemma pulses_after_one n :
  forall p,
    pulses_after n [p]
    = if Qltb (-8) (pulse_y p - 12 * inject_Z (Z.of_nat n)) || (n =? 0)%nat
      then [{| pulse_x := pulse_x p;
               pulse_y := Nat.iter n (fun y => y - 12) (pulse_y p) |}]
      else [].
Proof.
  induction n as [| n IH]; intros p.
  - cbn [Nat.eqb]. rewrite orb_true_r. destruct p. reflexivity.
  - rewrite pulses_after_S. cbn [filter_update Nat.eqb].
    rewrite pulse_update_spec, orb_false_r.
    assert (Hn : inject_Z (Z.of_nat (S n)) == inject_Z (Z.of_nat n) + 1).
    { rewrite Nat2Z.inj_succ, <- Z.add_1_r, inject_Z_plus. reflexivity. }
    assert (H0 : 0 <= inject_Z (Z.of_nat n)).
    { change 0 with (inject_Z 0). rewrite <- Zle_Qle. lia. }
    destruct (Qltb (-8) (pulse_y p - 12)) eqn:E.
    + rewrite IH. cbn [pulse_x pulse_y]. rewrite Nat.iter_succ_r.
      assert (Hc : Qltb (-8) (pulse_y p - 12 - 12 * inject_Z (Z.of_nat n))
                   = Qltb (-8) (pulse_y p - 12 * inject_Z (Z.of_nat (S n)))).
      { apply Qltb_iff_compat. rewrite Hn. split; intros; lra. }
      rewrite Hc.
      destruct (Qltb (-8) (pulse_y p - 12 * inject_Z (Z.of_nat (S n)))) eqn:E2;
        [reflexivity |].
      destruct n; [| reflexivity].
      apply Qltb_lt in E. apply Qltb_ge in E2.
      change (inject_Z (Z.of_nat 1)) with 1 in E2. exfalso. lra.
    + rewrite pulses_after_nil.
      assert (E2 : Qltb (-8) (pulse_y p - 12 * inject_Z (Z.of_nat (S n))) = false).
      { apply Qltb_ge. apply Qltb_ge in E. rewrite Hn. lra. }
      rewrite E2. reflexivity.
Qed.

(** Pulses fly straight up, 12 per frame, and are dropped on leaving the
    top: every pulse kept by the pulse update is above [y = -8]; a lone
    pulse is still there after [n >= 1] frames, with the same [x], exactly
    when [y - 12 n > -8]. *)
Theorem pulse_leaves_at_the_top :
  (forall g, Forall (fun p => -8 < pulse_y p) (pulses (updatePulses g))) /\
  (forall n p, (1 <= n)%nat ->
     (- 8 < pulse_y p - 12 * inject_Z (Z.of_nat n) ->
        exists p', pulses_after n [p] = [p'] /\ pulse_x p' = pulse_x p /\
                   pulse_y p' == pulse_y p - 12 * inject_Z (Z.of_nat n)) /\
     (pulse_y p - 12 * inject_Z (Z.of_nat n) <= -8 -> pulses_after n [p] = [])).
Proof.
  split.
  - intros g. unfold updatePulses. fields.
    induction (pulses g) as [| p ps IH]; cbn [filter_update]; [constructor |].
    rewrite pulse_update_spec.
    destruct (Qltb (-8) (pulse_y p - 12)) eqn:E; [| exact IH].
    constructor; [| exact IH]. apply Qltb_lt in E. exact E.
  - intros n p Hn. rewrite pulses_after_one.
    assert (E0 : (n =? 0)%nat = false) by (apply Nat.eqb_neq; lia).
    rewrite E0, orb_false_r. split; intros H.
    + apply Qltb_lt in H. rewrite H. eexists. split; [reflexivity |].
      split; [reflexivity |]. cbn [pulse_y]. clear.
      induction n as [| n IH].
      * change (inject_Z (Z.of_nat 0)) with 0.
        change (Nat.iter 0 (fun y => y - 12) (pulse_y p)) with (pulse_y p). lra.
      * rewrite Nat.iter_succ, IH, Nat2Z.inj_succ, <- Z.add_1_r, inject_Z_plus.
        change (inject_Z 1) with 1. lra.
    + apply Qltb_ge in H. rewrite H. reflexivity.
Qed.

Lemma pulse_leaves_at_the_top_witness :
  let p := newPulse 400 505 in
  (1 <= 43)%nat /\ pulse_y p - 12 * inject_Z (Z.of_nat 43) <= -8 /\
  pulses_after 43 [p] = [].
Proof.
  intros p. destruct pulse_leaves_at_the_top as [_ H].
  assert (Hn : (1 <= 43)%nat) by lia.
  assert (Hy : pulse_y p - 12 * inject_Z (Z.of_nat 43) <= -8) by discriminate.
  split; [exact Hn |]. split; [exact Hy |].
  exact (proj2 (H 43%nat p Hn) Hy).
Defined.

Lemma Qfloor_unit_times_4 r :
  0 <= r -> r < 1 -> (0 <= Qfloor (r * 4) < 4)%Z.
Proof.
  intros H0 H1.
  pose proof (Qfloor_le (r * 4)) as Hle.
  pose proof (Qlt_floor (r * 4)) as Hlt.
  rewrite inject_Z_plus in Hlt. change (inject_Z 1) with 1 in Hlt.
  split.
  - assert (H : -1 < inject_Z (Qfloor (r * 4))) by lra.
    change (-1) with (inject_Z (-1)) in H. rewrite <- Zlt_Qlt in H. lia.
  - assert (H : inject_Z (Qfloor (r * 4)) < 4) by lra.
    change 4 with (inject_Z 4) in H. rewrite <- Zlt_Qlt in H. exact H.
Qed.

(** A power-up built from a draw in [0, 1) always has one of the four
    kinds, each on its own quarter of the draw. *)
Theorem newPowerUp_has_a_kind (x y r : Q) :
  0 <= r -> r < 1 ->
  typeKey (newPowerUp x y r)
  = Some (if Qltb r 0.25 then RAPID_FIRE
          else if Qltb r 0.5 then HEAL
          else if Qltb r 0.75 then MULTI_SHOT
          else SHIELD).
Proof.
  intros H0 H1. unfold newPowerUp. cbn [typeKey].
  pose proof (Qfloor_unit_times_4 r H0 H1) as Hi.
  pose proof (Qfloor_le (r * 4)) as Hle.
  pose proof (Qlt_floor (r * 4)) as Hlt.
  rewrite inject_Z_plus in Hlt. change (inject_Z 1) with 1 in Hlt.
  destruct (0 <=? Qfloor (r * 4))%Z eqn:E; [| apply Z.leb_gt in E; lia].
  assert (Hcase : Qfloor (r * 4) = 0%Z \/ Qfloor (r * 4) = 1%Z \/
                  Qfloor (r * 4) = 2%Z \/ Qfloor (r * 4) = 3%Z) by lia.
  destruct Hcase as [Hc | [Hc | [Hc | Hc]]]; rewrite Hc in *;
    [change (inject_Z 0) with 0 in Hle, Hlt | change (inject_Z 1) with 1 in Hle, Hlt
    | change (inject_Z 2) with 2 in Hle, Hlt | change (inject_Z 3) with 3 in Hle, Hlt].
  - assert (Q1 : Qltb r 0.25 = true) by (apply Qltb_lt; lra).
    rewrite Q1. reflexivity.
  - assert (Q1 : Qltb r 0.25 = false) by (apply Qltb_ge; lra).
    assert (Q2 : Qltb r 0.5 = true) by (apply Qltb_lt; lra).
    rewrite Q1, Q2. reflexivity.
  - assert (Q1 : Qltb r 0.25 = false) by (apply Qltb_ge; lra).
    assert (Q2 : Qltb r 0.5 = false) by (apply Qltb_ge; lra).
    assert (Q3 : Qltb r 0.75 = true) by (apply Qltb_lt; lra).
    rewrite Q1, Q2, Q3. reflexivity.
  - assert (Q1 : Qltb r 0.25 = false) by (apply Qltb_ge; lra).
    assert (Q2 : Qltb r 0.5 = false) by (apply Qltb_ge; lra).
    assert (Q3 : Qltb r 0.75 = false) by (apply Qltb_ge; lra).
    rewrite Q1, Q2, Q3. reflexivity.
Qed.

Lemma newPowerUp_has_a_kind_witness :
  0 <= 0.6 /\ 0.6 < 1 /\ typeKey (newPowerUp 10 20 0.6) = Some MULTI_SHOT.
Proof.
  assert (H0 : 0 <= 0.6) by discriminate.
  assert (H1 : 0.6 < 1) by reflexivity.
  split; [exact H0 |]. split; [exact H1 |].
  exact (newPowerUp_has_a_kind 10 20 0.6 H0 H1).
Defined.

(** ** More of what the phases leave alone *)

Lemma updateDifficulty_score dt g : score (updateDifficulty dt g) = score g.
Proof. phase. Qed.
Lemma updateDifficulty_maxCombo dt g :
  maxCombo (updateDifficulty dt g) = maxCombo g.
Proof. phase. Qed.
Lemma updatePlayer_difficultyLevel dt g :
  difficultyLevel (updatePlayer dt g) = difficultyLevel g.
Proof. phase. Qed.
Lemma updatePlayer_difficultyMultiplier dt g :
  difficultyMultiplier (updatePlayer dt g) = difficultyMultiplier g.
Proof. phase. Qed.
Lemma updatePlayer_score dt g : score (updatePlayer dt g) = score g.
Proof. phase. Qed.
Lemma updatePlayer_maxCombo dt g : maxCombo (updatePlayer dt g) = maxCombo g.
Proof. phase. Qed.
Lemma autoFire_difficultyLevel dt g :
  difficultyLevel (autoFire dt g) = difficultyLevel g.
Proof. phase. Qed.
Lemma autoFire_difficultyMultiplier dt g :
  difficultyMultiplier (autoFire dt g) = difficultyMultiplier g.
Proof. phase. Qed.
Lemma autoFire_score dt g : score (autoFire dt g) = score g.
Proof. phase. Qed.
Lemma autoFire_maxCombo dt g : maxCombo (autoFire dt g) = maxCombo g.
Proof. phase. Qed.
Lemma updatePulses_difficultyLevel g :
  difficultyLevel (updatePulses g) = difficultyLevel g.
Proof. phase. Qed.
Lemma updatePulses_difficultyMultiplier g :
  difficultyMultiplier (updatePulses g) = difficultyMultiplier g.
Proof. phase. Qed.
Lemma updatePulses_score g : score (updatePulses g) = score g.
Proof. phase. Qed.
Lemma updatePulses_maxCombo g : maxCombo (updatePulses g) = maxCombo g.
Proof. phase. Qed.
Lemma spawnClots_difficultyLevel dt rnd g :
  difficultyLevel (spawnClots dt rnd g) = difficultyLevel g.
Proof. phase. Qed.
Lemma spawnClots_difficultyMultiplier dt rnd g :
  difficultyMultiplier (spawnClots dt rnd g) = difficultyMultiplier g.
Proof. phase. Qed.
Lemma spawnClots_score dt rnd g : score (spawnClots dt rnd g) = score g.
Proof. phase. Qed.
Lemma spawnClots_maxCombo dt rnd g :
  maxCombo (spawnClots dt rnd g) = maxCombo g.
Proof. phase. Qed.
Lemma updateClots_difficultyLevel dt g :
  difficultyLevel (updateClots dt g) = difficultyLevel g.
Proof. phase. Qed.
Lemma updateClots_difficultyMultiplier dt g :
  difficultyMultiplier (updateClots dt g) = difficultyMultiplier g.
Proof. phase. Qed.
Lemma updateClots_score dt g : score (updateClots dt g) = score g.
Proof. phase. Qed.
Lemma updateClots_maxCombo dt g : maxCombo (updateClots dt g) = maxCombo g.
Proof. phase. Qed.
Lemma removeEscaped_difficultyLevel g :
  difficultyLevel (removeEscaped g) = difficultyLevel g.
Proof. phase. Qed.
Lemma removeEscaped_difficultyMultiplier g :
  difficultyMultiplier (removeEscaped g) = difficultyMultiplier g.
Proof. phase. Qed.
Lemma removeEscaped_score g : score (removeEscaped g) = score g.
Proof. phase. Qed.
Lemma removeEscaped_maxCombo g : maxCombo (removeEscaped g) = maxCombo g.
Proof. phase. Qed.
Lemma updateCRS_difficultyLevel dt g :
  difficultyLevel (updateCRS dt g) = difficultyLevel g.
Proof. phase. Qed.
Lemma updateCRS_difficultyMultiplier dt g :
  difficultyMultiplier (updateCRS dt g) = difficultyMultiplier g.
Proof. phase. Qed.
Lemma updateCRS_score dt g : score (updateCRS dt g) = score g.
Proof. phase. Qed.
Lemma updateCRS_maxCombo dt g : maxCombo (updateCRS dt g) = maxCombo g.
Proof. phase. Qed.
Lemma checkCritical_difficultyLevel g :
  difficultyLevel (checkCritical g) = difficultyLevel g.
Proof. phase. Qed.
Lemma checkCritical_difficultyMultiplier g :
  difficultyMultiplier (checkCritical g) = difficultyMultiplier g.
Proof. phase. Qed.
Lemma checkCritical_score g : score (checkCritical g) = score g.
Proof. phase. Qed.
Lemma checkCritical_maxCombo g : maxCombo (checkCritical g) = maxCombo g.
Proof. phase. Qed.
Lemma checkGameOver_difficultyLevel g :
  difficultyLevel (checkGameOver g) = difficultyLevel g.
Proof. phase. Qed.
Lemma checkGameOver_difficultyMultiplier g :
  difficultyMultiplier (checkGameOver g) = difficultyMultiplier g.
Proof. phase. Qed.
Lemma checkGameOver_score g : score (checkGameOver g) = score g.
Proof. phase. Qed.
Lemma checkGameOver_maxCombo g : maxCombo (checkGameOver g) = maxCombo g.
Proof. phase. Qed.
Lemma updatePowerUps_difficultyLevel dt g :
  difficultyLevel (updatePowerUps dt g) = difficultyLevel g.
Proof. phase. Qed.
Lemma updatePowerUps_difficultyMultiplier dt g :
  difficultyMultiplier (updatePowerUps dt g) = difficultyMultiplier g.
Proof. phase. Qed.
Lemma updatePowerUps_score dt g : score (updatePowerUps dt g) = score g.
Proof. phase. Qed.
Lemma updatePowerUps_maxCombo dt g :
  maxCombo (updatePowerUps dt g) = maxCombo g.
Proof. phase. Qed.
Lemma updateComboTimer_difficultyLevel dt g :
  difficultyLevel (updateComboTimer dt g) = difficultyLevel g.
Proof. phase. Qed.
Lemma updateComboTimer_difficultyMultiplier dt g :
  difficultyMultiplier (updateComboTimer dt g) = difficultyMultiplier g.
Proof. phase. Qed.
Lemma updateComboTimer_score dt g : score (updateComboTimer dt g) = score g.
Proof. phase. Qed.
Lemma updateComboTimer_maxCombo dt g :
  maxCombo (updateComboTimer dt g) = maxCombo g.
Proof. phase. Qed.
Lemma updatePowerUpTimers_difficultyLevel dt g :
  difficultyLevel (updatePowerUpTimers dt g) = difficultyLevel g.
Proof. phase. Qed.
Lemma updatePowerUpTimers_difficultyMultiplier dt g :
  difficultyMultiplier (updatePowerUpTimers dt g) = difficultyMultiplier g.
Proof. phase. Qed.
Lemma updatePowerUpTimers_score dt g :
  score (updatePowerUpTimers dt g) = score g.
Proof. phase. Qed.
Lemma updatePowerUpTimers_maxCombo dt g :
  maxCombo (updatePowerUpTimers dt g) = maxCombo g.
Proof. phase. Qed.
Lemma updateDifficulty_clots dt g : clots (updateDifficulty dt g) = clots g.
Proof. phase. Qed.
Lemma updatePlayer_clots dt g : clots (updatePlayer dt g) = clots g.
Proof. phase. Qed.
Lemma autoFire_clots dt g : clots (autoFire dt g) = clots g.
Proof. phase. Qed.
Lemma updatePulses_clots g : clots (updatePulses g) = clots g.
Proof. phase. Qed.
Lemma updateDifficulty_powerUps dt g :
  powerUps (updateDifficulty dt g) = powerUps g.
Proof. phase. Qed.
Lemma updatePlayer_powerUps dt g : powerUps (updatePlayer dt g) = powerUps g.
Proof. phase. Qed.
Lemma autoFire_powerUps dt g : powerUps (autoFire dt g) = powerUps g.
Proof. phase. Qed.
Lemma updatePulses_powerUps g : powerUps (updatePulses g) = powerUps g.
Proof. phase. Qed.
Lemma spawnClots_powerUps dt rnd g :
  powerUps (spawnClots dt rnd g) = powerUps g.
Proof. phase. Qed.
Lemma updateClots_powerUps dt g : powerUps (updateClots dt g) = powerUps g.
Proof. phase. Qed.
Lemma removeEscaped_powerUps g : powerUps (removeEscaped g) = powerUps g.
Proof. phase. Qed.
Lemma updateCRS_powerUps dt g : powerUps (updateCRS dt g) = powerUps g.
Proof. phase. Qed.
Lemma checkCritical_powerUps g : powerUps (checkCritical g) = powerUps g.
Proof. phase. Qed.
Lemma checkGameOver_powerUps g : powerUps (checkGameOver g) = powerUps g.
Proof. phase. Qed.
Lemma updateComboTimer_powerUps dt g :
  powerUps (updateComboTimer dt g) = powerUps g.
Proof. phase. Qed.
Lemma updatePowerUpTimers_powerUps dt g :
  powerUps (updatePowerUpTimers dt g) = powerUps g.
Proof. phase. Qed.

#[local] Hint Rewrite
  updateDifficulty_score updateDifficulty_maxCombo
  updatePlayer_difficultyLevel updatePlayer_difficultyMultiplier
  updatePlayer_score updatePlayer_maxCombo autoFire_difficultyLevel
  autoFire_difficultyMultiplier autoFire_score autoFire_maxCombo
  updatePulses_difficultyLevel updatePulses_difficultyMultiplier
  updatePulses_score updatePulses_maxCombo spawnClots_difficultyLevel
  spawnClots_difficultyMultiplier spawnClots_score spawnClots_maxCombo
  updateClots_difficultyLevel updateClots_difficultyMultiplier
  updateClots_score updateClots_maxCombo removeEscaped_difficultyLevel
  removeEscaped_difficultyMultiplier removeEscaped_score
  removeEscaped_maxCombo updateCRS_difficultyLevel
  updateCRS_difficultyMultiplier updateCRS_score updateCRS_maxCombo
  checkCritical_difficultyLevel checkCritical_difficultyMultiplier
  checkCritical_score checkCritical_maxCombo checkGameOver_difficultyLevel
  checkGameOver_difficultyMultiplier checkGameOver_score
  checkGameOver_maxCombo updatePowerUps_difficultyLevel
  updatePowerUps_difficultyMultiplier updatePowerUps_score
  updatePowerUps_maxCombo updateComboTimer_difficultyLevel
  updateComboTimer_difficultyMultiplier updateComboTimer_score
  updateComboTimer_maxCombo updatePowerUpTimers_difficultyLevel
  updatePowerUpTimers_difficultyMultiplier updatePowerUpTimers_score
  updatePowerUpTimers_maxCombo updateDifficulty_clots updatePlayer_clots
  autoFire_clots updatePulses_clots updateDifficulty_powerUps
  updatePlayer_powerUps autoFire_powerUps updatePulses_powerUps
  spawnClots_powerUps updateClots_powerUps removeEscaped_powerUps
  updateCRS_powerUps checkCritical_powerUps checkGameOver_powerUps
  updateComboTimer_powerUps updatePowerUpTimers_powerUps
  : frame.

(** The pick-up filter touches the score, the CRS value and the active
    power-ups only. *)
Lemma applyPowerUp_frame key g :
  applyPowerUp key g
  = set_score (score (applyPowerUp key g))
      (set_crs (crs (applyPowerUp key g))
         (set_activePowerUps (activePowerUps (applyPowerUp key g)) g)).
Proof. destruct g. destruct key as [[] |]; reflexivity. Qed.

Lemma filterCollected_frame pus :
  forall g,
    let g' := snd (filterCollected pus g) in
    g' = set_score (score g') (set_crs (crs g')
           (set_activePowerUps (activePowerUps g') g)).
Proof.
  induction pus as [| pu pus IH]; intros g; cbn [filterCollected].
  - destruct g. reflexivity.
  - destruct (sqrt_lt _ _ _).
    + specialize (IH (applyPowerUp (typeKey pu) g)). cbv zeta in *.
      rewrite IH at 1. rewrite (applyPowerUp_frame (typeKey pu) g) at 4.
      reflexivity.
    + specialize (IH g). cbv zeta in *.
      destruct (filterCollected pus g) as [rest g']. exact IH.
Qed.

Lemma collectPowerUps_frame g :
  collectPowerUps g
  = set_powerUps (powerUps (collectPowerUps g))
      (set_score (score (collectPowerUps g))
         (set_crs (crs (collectPowerUps g))
            (set_activePowerUps (activePowerUps (collectPowerUps g)) g))).
Proof.
  unfold collectPowerUps.
  pose proof (filterCollected_frame (powerUps g) g) as H. cbv zeta in H.
  destruct (filterCollected (powerUps g) g) as [pus g']. cbn [snd] in H.
  rewrite H at 1. reflexivity.
Qed.

Lemma collectPowerUps_state g : state (collectPowerUps g) = state g.
Proof. rewrite collectPowerUps_frame. reflexivity. Qed.

Lemma collectPowerUps_difficultyLevel g :
  difficultyLevel (collectPowerUps g) = difficultyLevel g.
Proof. rewrite collectPowerUps_frame. reflexivity. Qed.

Lemma collectPowerUps_difficultyMultiplier g :
  difficultyMultiplier (collectPowerUps g) = difficultyMultiplier g.
Proof. rewrite collectPowerUps_frame. reflexivity. Qed.

Lemma collectPowerUps_maxCombo g : maxCombo (collectPowerUps g) = maxCombo g.
Proof. rewrite collectPowerUps_frame. reflexivity. Qed.

Lemma checkCollisions_difficultyLevel rnd g :
  difficultyLevel (checkCollisions rnd g) = difficultyLevel g.
Proof. unfold checkCollisions. destruct (collisionScan rnd g). reflexivity. Qed.

Lemma checkCollisions_difficultyMultiplier rnd g :
  difficultyMultiplier (checkCollisions rnd g) = difficultyMultiplier g.
Proof. unfold checkCollisions. destruct (collisionScan rnd g). reflexivity. Qed.

#[local] Hint Rewrite
  collectPowerUps_state collectPowerUps_difficultyLevel
  collectPowerUps_difficultyMultiplier collectPowerUps_maxCombo
  collectPowerUps_combo collectPowerUps_comboTimer collectPowerUps_clots
  collectPowerUps_pulses
  checkCollisions_difficultyLevel checkCollisions_difficultyMultiplier
  checkCollisions_state checkCollisions_activePowerUps
  checkCollisions_canvas_height
  : frame.

(** ** The states of the game *)

Lemma playing_iff g : playing g = true <-> state g = PLAYING.
Proof. unfold playing. destruct (state g); cbn; split; congruence. Qed.

Lemma afterScan_state dt rnd g : state (afterScan dt rnd g) = state g.
Proof. unfold afterScan. rewrite checkCollisions_state. apply beforeCollisions_state. Qed.

Lemma checkGameOver_wasCritical g : wasCritical (checkGameOver g) = wasCritical g.
Proof. phase. Qed.
Lemma updatePowerUps_wasCritical dt g :
  wasCritical (updatePowerUps dt g) = wasCritical g.
Proof. phase. Qed.
Lemma updateComboTimer_wasCritical dt g :
  wasCritical (updateComboTimer dt g) = wasCritical g.
Proof. phase. Qed.
Lemma updatePowerUpTimers_wasCritical dt g :
  wasCritical (updatePowerUpTimers dt g) = wasCritical g.
Proof. phase. Qed.
Lemma collectPowerUps_wasCritical g :
  wasCritical (collectPowerUps g) = wasCritical g.
Proof. rewrite collectPowerUps_frame. reflexivity. Qed.

Lemma checkCritical_wasCritical g :
  wasCritical (checkCritical g) = isCritical (crs g).
Proof.
  unfold checkCritical. destruct (isCritical (crs g)); [| reflexivity].
  destruct (wasCritical g) eqn:E; cbn [negb]; [exact E | reflexivity].
Qed.

Lemma isFailed_isCritical c : isFailed c = true -> isCritical c = true.
Proof.
  unfold isFailed, isCritical, Qgeb, maxCRS. rewrite !Qle_bool_iff. intros. lra.
Qed.

Lemma frame_ends_game_on_failed_crs_aux dt rnd g :
  playing g = true ->
  state (update dt rnd g) = state g \/ state (update dt rnd g) = GAME_OVER.
Proof.
  intros Hp. rewrite (update_playing _ _ _ Hp), afterCollisions_eq.
  rewrite updatePowerUpTimers_state, updateComboTimer_state,
    collectPowerUps_state, updatePowerUps_state.
  unfold checkGameOver. destruct (isFailed _); [right; reflexivity | left].
  rewrite checkCritical_state, updateCRS_state, removeEscaped_state.
  apply afterScan_state.
Qed.

(** A frame ends the game exactly when the CRS value has reached 100 at
    the CRS update of that frame, whatever a heal picked up later in the
    frame does to it; else the game goes on.  The critical latch is then
    what [isCritical] said at that point, and a failed CRS is critical. *)
Theorem frame_ends_game_on_failed_crs (deltaTime : Q) (rnd : FrameRand) (g : Game) :
  playing g = true ->
  let c := crs (updateCRS deltaTime (removeEscaped (afterScan deltaTime rnd g))) in
  state (update deltaTime rnd g) = (if isFailed c then GAME_OVER else PLAYING) /\
  wasCritical (update deltaTime rnd g) = isCritical c /\
  (isFailed c = true -> isCritical c = true) /\
  (state (update deltaTime rnd g) = GAME_OVER <-> 100 <= crsValue c).
Proof.
  intros Hp c.
  assert (Hstate : state (update deltaTime rnd g)
                   = (if isFailed c then GAME_OVER else PLAYING)).
  { rewrite (update_playing _ _ _ Hp), afterCollisions_eq.
    rewrite updatePowerUpTimers_state, updateComboTimer_state,
      collectPowerUps_state, updatePowerUps_state.
    unfold checkGameOver. rewrite checkCritical_crs. fold c.
    destruct (isFailed c); [reflexivity |].
    rewrite checkCritical_state, updateCRS_state, removeEscaped_state,
      afterScan_state. apply playing_iff, Hp. }
  split; [exact Hstate |]. split; [| split].
  - rewrite (update_playing _ _ _ Hp), afterCollisions_eq.
    rewrite updatePowerUpTimers_wasCritical, updateComboTimer_wasCritical,
      collectPowerUps_wasCritical, updatePowerUps_wasCritical,
      checkGameOver_wasCritical.
    apply checkCritical_wasCritical.
  - apply isFailed_isCritical.
  - rewrite Hstate. unfold isFailed, Qgeb, maxCRS.
    destruct (Qle_bool 100 (crsValue c)) eqn:E.
    + apply Qle_bool_iff in E. split; [intros _; exact E | reflexivity].
    + apply Qle_bool_gt in E. split; [discriminate | intros; lra].
Qed.

Lemma frame_ends_game_on_failed_crs_witness :
  let g := set_crs {| crsValue := 99.99 |} comboGame in
  playing g = true /\ state (update 16 sampleRand g) = GAME_OVER /\
  wasCritical (update 16 sampleRand g) = true.
Proof.
  intros g.
  assert (Hp : playing g = true) by reflexivity.
  destruct (frame_ends_game_on_failed_crs 16 sampleRand g Hp) as (Hs & Hw & _).
  split; [exact Hp |]. split.
  - rewrite Hs. vm_compute. reflexivity.
  - rewrite Hw. vm_compute. reflexivity.
Defined.

(** Outside the Playing state the game ignores its input: clicks, mouse
    moves and touches change nothing, and an animation frame only records
    its timestamp. *)
Theorem input_ignored_unless_playing (e : Event) (g : Game) :
  playing g = false ->
  match e with
  | Frame currentTime _ => step e g = set_lastTime currentTime g
  | Click | MouseMove _ | Touch _ _ => step e g = g
  | Resize _ _ | StartButton | NextLevelButton | CloseModalButton => True
  end.
Proof.
  intros Hp. destruct e; cbn [step]; try exact I.
  - unfold gameLoop. cbv zeta. apply update_not_playing. exact Hp.
  - unfold fire. rewrite Hp. reflexivity.
  - unfold handleMouse. rewrite Hp. reflexivity.
  - unfold handleTouch. rewrite Hp. reflexivity.
Qed.

Lemma input_ignored_unless_playing_witness :
  let g := newGame 800 600 in
  playing g = false /\ step Click g = g /\ step (Touch 10 true) g = g /\
  step (Frame 16 sampleRand) g = set_lastTime 16 g.
Proof.
  intros g.
  assert (Hp : playing g = false) by reflexivity.
  split; [exact Hp |].
  split; [exact (input_ignored_unless_playing Click g Hp) |].
  split; [exact (input_ignored_unless_playing (Touch 10 true) g Hp) |].
  exact (input_ignored_unless_playing (Frame 16 sampleRand) g Hp).
Defined.

Lemma update_state_cases dt rnd g :
  state (update dt rnd g) = state g \/ state (update dt rnd g) = GAME_OVER.
Proof.
  destruct (playing g) eqn:Hp.
  - destruct (frame_ends_game_on_failed_crs_aux dt rnd g Hp) as [H | H];
      [left | right]; exact H.
  - left. rewrite (update_not_playing _ _ _ Hp). reflexivity.
Qed.

Lemma step_liveState e g : liveState (state g) -> liveState (state (step e g)).
Proof.
  unfold liveState. intros H. destruct e; cbn [step].
  - unfold gameLoop. cbv zeta.
    destruct (update_state_cases (Qmin (currentTime - lastTime g) 32) rnd
                (set_lastTime currentTime g)) as [E | E]; rewrite E; [exact H | tauto].
  - unfold fire. case_ifs; exact H.
  - unfold handleMouse. case_ifs; exact H.
  - unfold handleTouch, fire. case_ifs; exact H.
  - exact H.
  - cbn. tauto.
  - unfold nextLevel. case_ifs; cbn; tauto.
  - cbn. tauto.
Qed.

(** The Paused and Level-complete states are dead: in every run from the
    constructor the game is in the Menu, Playing, Game-over or
    Science-modal state, and only a frame takes it to Game-over. *)
Theorem paused_and_level_complete_unreachable :
  (forall es width height,
     let st := state (run es (newGame width height)) in
     liveState st /\ st <> PAUSED /\ st <> LEVEL_COMPLETE) /\
  (forall e g, state g <> GAME_OVER -> state (step e g) = GAME_OVER ->
               exists currentTime rnd, e = Frame currentTime rnd).
Proof.
  split.
  - intros es width height.
    assert (H : liveState (state (run es (newGame width height)))).
    { unfold run. generalize (newGame width height) (or_introl eq_refl
        : liveState (state (newGame width height))).
      induction es as [| e es IH]; intros g Hg; cbn [fold_left]; [exact Hg |].
      apply IH, step_liveState, Hg. }
    cbv zeta. split; [exact H |].
    destruct H as [H | [H | [H | H]]]; rewrite H; split; discriminate.
  - intros e g Hne H. destruct e; cbn [step] in H.
    + eauto.
    + exfalso. revert H. unfold fire. case_ifs; exact Hne.
    + exfalso. revert H. unfold handleMouse. case_ifs; exact Hne.
    + exfalso. revert H. unfold handleTouch, fire. case_ifs; exact Hne.
    + exfalso. exact (Hne H).
    + discriminate H.
    + exfalso. revert H. unfold nextLevel. case_ifs; discriminate.
    + discriminate H.
Qed.

Lemma paused_and_level_complete_unreachable_witness :
  let g := set_crs {| crsValue := 99.99 |} comboGame in
  state g <> GAME_OVER /\ state (step (Frame 16 sampleRand) g) = GAME_OVER /\
  exists currentTime rnd, Frame 16 sampleRand = Frame currentTime rnd.
Proof.
  intros g. destruct paused_and_level_complete_unreachable as [_ H].
  assert (Hne : state g <> GAME_OVER) by discriminate.
  assert (Hgo : state (step (Frame 16 sampleRand) g) = GAME_OVER)
    by (vm_compute; reflexivity).
  split; [exact Hne |]. split; [exact Hgo |].
  exact (H (Frame 16 sampleRand) g Hne Hgo).
Defined.

(** ** Difficulty *)

Lemma updateDifficulty_ok dt g : difficultyOk g -> difficultyOk (updateDifficulty dt g).
Proof.
  unfold difficultyOk, updateDifficulty. intros [H0 Hm]. cbv zeta. fields.
  destruct (difficultyLevel g <? Qfloor ((difficultyTimer g + dt) / 5000))%Z eqn:E;
    fields; [| split; assumption].
  apply Z.ltb_lt in E. split; [lia |].
  set (m := inject_Z (Qfloor ((difficultyTimer g + dt) / 5000)) * 0.4).
  destruct (Qmin_cases (1.0 + m) 4.0) as [[? E1] | [? E1]]; rewrite E1;
    destruct (Qmin_cases (1 + m) 4) as [[? E2] | [? E2]]; rewrite E2; lra.
Qed.

Lemma update_difficultyOk dt rnd g : difficultyOk g -> difficultyOk (update dt rnd g).
Proof.
  intros H. destruct (playing g) eqn:Hp;
    [| rewrite (update_not_playing _ _ _ Hp); exact H].
  rewrite (update_playing _ _ _ Hp). unfold difficultyOk, afterScan.
  rewrite afterCollisions_eq, beforeCollisions_eq. autorewrite with frame.
  apply (updateDifficulty_ok dt (set_gameTime (gameTime g + dt) g)). exact H.
Qed.

Lemma step_difficultyOk e g : difficultyOk g -> difficultyOk (step e g).
Proof.
  intros H. destruct e; cbn [step].
  - unfold gameLoop. cbv zeta. apply update_difficultyOk. exact H.
  - unfold fire. case_ifs; exact H.
  - unfold handleMouse. case_ifs; exact H.
  - unfold handleTouch, fire. case_ifs; exact H.
  - exact H.
  - split; [discriminate | reflexivity].
  - unfold nextLevel. case_ifs; [exact H | split; [discriminate | reflexivity]].
  - exact H.
Qed.

(** In every run the difficulty multiplier is the one of the current
    level, [min(1 + 0.4 level, 4)], with a level that is not negative: it
    stays between 1 and 4, so the spawn interval [2500 / multiplier] stays
    between 625 and 2500 ms. *)
Theorem difficulty_multiplier_between_1_and_4 (es : list Event) (width height : Q) :
  let g := run es (newGame width height) in
  (0 <= difficultyLevel g)%Z /\
  difficultyMultiplier g == Qmin (1 + inject_Z (difficultyLevel g) * 0.4) 4 /\
  1 <= difficultyMultiplier g /\ difficultyMultiplier g <= 4 /\
  625 <= 2500 / difficultyMultiplier g /\ 2500 / difficultyMultiplier g <= 2500.
Proof.
  cbv zeta.
  assert (H : difficultyOk (run es (newGame width height))).
  { unfold run.
    assert (H0 : difficultyOk (newGame width height))
      by (split; [discriminate | reflexivity]).
    revert H0. generalize (newGame width height).
    induction es as [| e es IH]; intros g Hg; cbn [fold_left]; [exact Hg |].
    apply IH, step_difficultyOk, Hg. }
  destruct H as [H0 Hm]. set (g := run es (newGame width height)) in *.
  assert (Hl : 0 <= inject_Z (difficultyLevel g)).
  { change 0 with (inject_Z 0). rewrite <- Zle_Qle. exact H0. }
  assert (Hr : 1 <= difficultyMultiplier g /\ difficultyMultiplier g <= 4).
  { rewrite Hm.
    destruct (Qmin_cases (1 + inject_Z (difficultyLevel g) * 0.4) 4)
      as [[? E] | [? E]]; rewrite E; split; lra. }
  destruct Hr as [H1 H4].
  repeat split; try assumption.
  - apply Qle_shift_div_l; lra.
  - apply Qle_shift_div_r; lra.
Qed.

(** ** Picking up power-ups *)

Lemma applyPowerUp_effects key g :
  player (applyPowerUp key g) = player g /\
  score (applyPowerUp key g) = (score g + 100)%Z /\
  (0 <= crsValue (crs g) ->
   0 <= crsValue (crs (applyPowerUp key g)) /\
   crsValue (crs (applyPowerUp key g)) <= crsValue (crs g)).
Proof.
  destruct key as [[] |]; (split; [reflexivity |]); (split; [reflexivity |]);
    unfold applyPowerUp; fields; intros H; try (split; lra).
  cbn [crsValue].
  destruct (Qmax_cases 0 (crsValue (crs g) - 25)) as [[? E] | [? E]]; rewrite E;
    split; lra.
Qed.

Lemma filterCollected_effects pus :
  forall g,
    let r := filterCollected pus g in
    fst r = List.filter (fun pu => negb (inPickupRange (player g) pu)) pus /\
    player (snd r) = player g /\
    score (snd r)
      = (score g + 100 * Z.of_nat (length pus - length (fst r)))%Z /\
    (0 <= crsValue (crs g) ->
     0 <= crsValue (crs (snd r)) /\ crsValue (crs (snd r)) <= crsValue (crs g)).
Proof.
  induction pus as [| pu pus IH]; intros g; cbn [filterCollected List.filter].
  - cbn. repeat split; [lia | lra | lra].
  - change (sqrt_lt (powerup_x pu - player_x (player g))
                    (powerup_y pu - player_y (player g)) (powerup_radius + 30))
      with (inPickupRange (player g) pu).
    destruct (inPickupRange (player g) pu) eqn:E; cbn [negb].
    + destruct (applyPowerUp_effects (typeKey pu) g) as (Hp & Hs & Hc).
      destruct (IH (applyPowerUp (typeKey pu) g)) as (H1 & H2 & H3 & H4).
      cbv zeta in *. rewrite Hp in H1, H2. rewrite Hs in H3.
      split; [exact H1 |]. split; [exact H2 |]. split.
      * rewrite H3. cbn [length].
        assert (length (fst (filterCollected pus (applyPowerUp (typeKey pu) g)))
                <= length pus)%nat.
        { rewrite H1. apply List.filter_length_le. }
        lia.
      * intros H0. destruct (Hc H0) as [Ha Hb]. destruct (H4 Ha). split; lra.
    + destruct (IH g) as (H1 & H2 & H3 & H4). cbv zeta in *.
      destruct (filterCollected pus g) as [rest g']. cbn [fst snd length] in *.
      split; [rewrite H1; reflexivity |]. split; [exact H2 |].
      split; [| exact H4].
      assert (length rest <= length pus)%nat.
      { rewrite H1. apply List.filter_length_le. }
      rewrite H3. lia.
Qed.

(** The pick-up phase collects exactly the power-ups within range of the
    player's centre, whatever their kind, and keeps the others in order;
    each one collected adds 100 to the score; and the CRS value, when not
    negative, is not raised and stays non-negative.  The player is not
    moved. *)
Theorem pickups_score_100_each (g : Game) :
  let g' := collectPowerUps g in
  powerUps g' = List.filter (fun pu => negb (inPickupRange (player g) pu)) (powerUps g) /\
  score g' = (score g + 100 * Z.of_nat (length (powerUps g) - length (powerUps g')))%Z /\
  player g' = player g /\
  (0 <= crsValue (crs g) ->
   0 <= crsValue (crs g') /\ crsValue (crs g') <= crsValue (crs g)).
Proof.
  cbv zeta. unfold collectPowerUps.
  pose proof (filterCollected_effects (powerUps g) g) as H. cbv zeta in H.
  destruct (filterCollected (powerUps g) g) as [pus g']. cbn [fst snd] in H.
  destruct H as (H1 & H2 & H3 & H4). fields.
  split; [exact H1 |]. split; [exact H3 |]. split; [exact H2 | exact H4].
Qed.

Lemma pickups_score_100_each_witness :
  let pu := {| powerup_x := 400; powerup_y := 500; typeKey := Some HEAL |} in
  let far := {| powerup_x := 100; powerup_y := 100; typeKey := Some SHIELD |} in
  let g := set_crs {| crsValue := 10 |} (set_powerUps [far; pu; pu] comboGame) in
  let g' := collectPowerUps g in
  0 <= crsValue (crs g) /\ powerUps g' = [far] /\ score g' = (score g + 200)%Z /\
  0 <= crsValue (crs g') /\ crsValue (crs g') <= crsValue (crs g).
Proof.
  intros pu far g g'.
  assert (H0 : 0 <= crsValue (crs g)) by discriminate.
  destruct (pickups_score_100_each g) as (Hl & Hs & _ & Hc).
  fold g' in Hl, Hs, Hc.
  split; [exact H0 |]. split; [rewrite Hl; reflexivity |].
  split; [rewrite Hs, Hl; reflexivity | exact (Hc H0)].
Defined.

(** ** A scan without a hit *)

Lemma countHits_no_clots ps : countHits ps [] = 0%nat.
Proof. induction ps as [| p ps IH]; [reflexivity |]. cbn. exact IH. Qed.

Lemma scanClots_no_hit rnd pulse pi cs :
  forall ci s,
    List.filter (collides pulse) cs = [] ->
    scanClots rnd pulse pi ci cs s = (cs, s).
Proof.
  induction cs as [| clot rest IH]; intros ci s H; [reflexivity |].
  cbn [List.filter] in H. destruct (collides pulse clot) eqn:E; [discriminate |].
  rewrite scanClots_cons. unfold scanClot. rewrite E. cbn [fst snd].
  rewrite (IH (S ci) s H). reflexivity.
Qed.

Lemma scanPulses_no_hit rnd ps :
  forall pi cs s,
    countHits ps cs = 0%nat -> scanPulses rnd pi ps cs s = (cs, s).
Proof.
  induction ps as [| pulse rest IH]; intros pi cs s H; [reflexivity |].
  cbn [countHits] in H.
  assert (Hf : List.filter (collides pulse) cs = []).
  { destruct (List.filter (collides pulse) cs); [reflexivity | cbn in H; lia]. }
  rewrite Hf in H. cbn [length Nat.add] in H.
  pose proof (scanClots_clots rnd pulse pi cs 0%nat s) as Hm.
  rewrite (scanClots_no_hit rnd pulse pi cs 0%nat s Hf) in Hm. cbn [fst] in Hm.
  rewrite <- Hm in H.
  rewrite scanPulses_cons, (scanClots_no_hit rnd pulse pi cs 0%nat s Hf).
  cbn [fst snd]. apply IH, H.
Qed.

Lemma remove_indices_empty {A} (xs : list A) :
  forall i, remove_indices ∅ i xs = xs.
Proof.
  induction xs as [| x xs IH]; intros i; [reflexivity |].
  cbn [remove_indices]. rewrite bool_decide_eq_false_2 by apply not_elem_of_empty.
  rewrite IH. reflexivity.
Qed.

(** A scan in which no pulse intersects a clot changes nothing at all: no
    entity, counter or timer of the game.  That is so in particular when
    there are no pulses or no clots. *)
Theorem scan_without_hit_changes_nothing (rnd : nat -> nat -> Q) (g : Game) :
  (countHits (pulses g) (clots g) = 0%nat -> checkCollisions rnd g = g) /\
  (pulses g = [] -> checkCollisions rnd g = g) /\
  (clots g = [] -> checkCollisions rnd g = g).
Proof.
  assert (H : countHits (pulses g) (clots g) = 0%nat -> checkCollisions rnd g = g).
  { intros H0. unfold checkCollisions, collisionScan.
    rewrite (scanPulses_no_hit rnd (pulses g) 0%nat (clots g) (scan_start g) H0).
    cbn [scan_start s_combo s_comboTimer s_maxCombo s_score s_crs s_powerUps
         pulsesToRemove clotsToRemove].
    rewrite !remove_indices_empty. destruct g. reflexivity. }
  split; [exact H |]. split; intros E; apply H; rewrite E;
    [reflexivity | apply countHits_no_clots].
Qed.

Lemma scan_without_hit_changes_nothing_witness :
  let g := set_clots [sampleClot 400 430] comboGame in
  countHits (pulses g) (clots g) = 0%nat /\
  checkCollisions (fun _ _ => 0) g = g /\
  pulses (startGame g) = [] /\
  checkCollisions (fun _ _ => 0) (startGame g) = startGame g.
Proof.
  intros g.
  assert (H0 : countHits (pulses g) (clots g) = 0%nat) by reflexivity.
  assert (H1 : pulses (startGame g) = []) by reflexivity.
  destruct (scan_without_hit_changes_nothing (fun _ _ => 0) g) as (Ha & _ & _).
  destruct (scan_without_hit_changes_nothing (fun _ _ => 0) (startGame g))
    as (_ & Hb & _).
  split; [exact H0 |]. split; [exact (Ha H0) |]. split; [exact H1 | exact (Hb H1)].
Defined.

(** ** Combo, maximum combo and score *)

Lemma scanClot_comboOk rnd pulse pi ci clot s :
  (0 <= s_combo s)%Z -> (s_combo s <= s_maxCombo s)%Z ->
  let s' := snd (scanClot rnd pulse pi ci clot s) in
  (0 <= s_combo s')%Z /\ (s_combo s' <= s_maxCombo s')%Z /\
  (s_maxCombo s <= s_maxCombo s')%Z /\ (s_score s <= s_score s')%Z.
Proof.
  intros H0 H1. cbv zeta. unfold scanClot.
  destruct (collides pulse clot); [| cbn [snd]; lia].
  rewrite onCollision_eq. cbv zeta. cbn [snd s_combo s_maxCombo s_score].
  destruct (s_maxCombo s <? s_combo s + 1)%Z eqn:E;
    [apply Z.ltb_lt in E | apply Z.ltb_ge in E];
    destruct (snd (hit clot)); lia.
Qed.

Lemma scanClots_comboOk rnd pulse pi cs :
  forall ci s,
    (0 <= s_combo s)%Z -> (s_combo s <= s_maxCombo s)%Z ->
    let s' := snd (scanClots rnd pulse pi ci cs s) in
    (0 <= s_combo s')%Z /\ (s_combo s' <= s_maxCombo s')%Z /\
    (s_maxCombo s <= s_maxCombo s')%Z /\ (s_score s <= s_score s')%Z.
Proof.
  induction cs as [| clot rest IH]; intros ci s H0 H1; cbv zeta.
  - cbn [scanClots snd]. lia.
  - rewrite scanClots_cons. cbn [snd].
    destruct (scanClot_comboOk rnd pulse pi ci clot s H0 H1) as (A & B & C & D).
    cbv zeta in *. destruct (IH (S ci) _ A B) as (A' & B' & C' & D'). lia.
Qed.

Lemma scanPulses_comboOk rnd ps :
  forall pi cs s,
    (0 <= s_combo s)%Z -> (s_combo s <= s_maxCombo s)%Z ->
    let s' := snd (scanPulses rnd pi ps cs s) in
    (0 <= s_combo s')%Z /\ (s_combo s' <= s_maxCombo s')%Z /\
    (s_maxCombo s <= s_maxCombo s')%Z /\ (s_score s <= s_score s')%Z.
Proof.
  induction ps as [| pulse rest IH]; intros pi cs s H0 H1; cbv zeta.
  - cbn [scanPulses snd]. lia.
  - rewrite scanPulses_cons.
    destruct (scanClots_comboOk rnd pulse pi cs 0%nat s H0 H1) as (A & B & C & D).
    cbv zeta in *. destruct (IH (S pi) (fst (scanClots rnd pulse pi 0 cs s)) _ A B)
      as (A' & B' & C' & D'). lia.
Qed.

Lemma checkCollisions_comboOk rnd g :
  (0 <= combo g)%Z -> (combo g <= maxCombo g)%Z ->
  let g' := checkCollisions rnd g in
  (0 <= combo g')%Z /\ (combo g' <= maxCombo g')%Z /\
  (maxCombo g <= maxCombo g')%Z /\ (score g <= score g')%Z.
Proof.
  intros H0 H1. cbv zeta. unfold checkCollisions, collisionScan.
  pose proof (scanPulses_comboOk rnd (pulses g) 0%nat (clots g) (scan_start g) H0 H1)
    as H. cbv zeta in H.
  destruct (scanPulses _ _ _ _ _) as [cs s]. exact H.
Qed.

Lemma beforeCollisions_score dt rnd g : score (beforeCollisions dt rnd g) = score g.
Proof. rewrite beforeCollisions_eq. autorewrite with frame. reflexivity. Qed.

Lemma beforeCollisions_maxCombo dt rnd g :
  maxCombo (beforeCollisions dt rnd g) = maxCombo g.
Proof. rewrite beforeCollisions_eq. autorewrite with frame. reflexivity. Qed.

Lemma collectPowerUps_score_le g : (score g <= score (collectPowerUps g))%Z.
Proof.
  unfold collectPowerUps.
  destruct (filterCollected_effects (powerUps g) g) as (_ & _ & H & _).
  cbv zeta in H. destruct (filterCollected (powerUps g) g) as [pus g'].
  cbn [snd fst] in H. fields. rewrite H. lia.
Qed.

Lemma afterCollisions_score dt g : (score g <= score (afterCollisions dt g))%Z.
Proof.
  rewrite afterCollisions_eq, updatePowerUpTimers_score, updateComboTimer_score.
  etransitivity; [| apply collectPowerUps_score_le].
  autorewrite with frame. reflexivity.
Qed.

Lemma afterCollisions_maxCombo dt g : maxCombo (afterCollisions dt g) = maxCombo g.
Proof.
  rewrite afterCollisions_eq, updatePowerUpTimers_maxCombo, updateComboTimer_maxCombo,
    collectPowerUps_maxCombo.
  autorewrite with frame. reflexivity.
Qed.

Lemma afterScan_comboOk dt rnd g :
  (0 <= combo g)%Z -> (combo g <= maxCombo g)%Z ->
  let g' := afterScan dt rnd g in
  (0 <= combo g')%Z /\ (combo g' <= maxCombo g')%Z /\
  (maxCombo g <= maxCombo g')%Z /\ (score g <= score g')%Z.
Proof.
  intros H0 H1. cbv zeta. unfold afterScan.
  pose proof (checkCollisions_comboOk (rnd_powerUp rnd) (beforeCollisions dt rnd g))
    as H. cbv zeta in H.
  rewrite beforeCollisions_combo, beforeCollisions_maxCombo,
    beforeCollisions_score in H.
  exact (H H0 H1).
Qed.

Lemma update_comboOk dt rnd g :
  (0 <= combo g)%Z -> (combo g <= maxCombo g)%Z ->
  let g' := update dt rnd g in
  (0 <= combo g')%Z /\ (combo g' <= maxCombo g')%Z /\
  (maxCombo g <= maxCombo g')%Z /\ (score g <= score g')%Z.
Proof.
  intros H0 H1. cbv zeta. destruct (playing g) eqn:Hp;
    [| rewrite (update_not_playing _ _ _ Hp); lia].
  rewrite (update_playing _ _ _ Hp).
  destruct (afterScan_comboOk dt rnd g H0 H1) as (A & B & C & D).
  destruct (afterCollisions_combo dt (afterScan dt rnd g)) as [Hc _].
  pose proof (afterCollisions_score dt (afterScan dt rnd g)) as Hs.
  rewrite afterCollisions_maxCombo, Hc.
  destruct (0 <? combo (afterScan dt rnd g))%Z;
    [destruct (Qle_bool _ _) |]; lia.
Qed.

Lemma step_comboOk e g : comboOk g -> comboOk (step e g).
Proof.
  unfold comboOk. intros (H0 & H1 & H2). destruct e; cbn [step].
  - unfold gameLoop. cbv zeta.
    destruct (update_comboOk (Qmin (currentTime - lastTime g) 32) rnd
                (set_lastTime currentTime g) H0 H1) as (A & B & C & D).
    cbv zeta in *. cbn [score set_lastTime] in D. lia.
  - unfold fire. case_ifs; fields; lia.
  - unfold handleMouse. case_ifs; fields; lia.
  - unfold handleTouch, fire. case_ifs; fields; lia.
  - cbn. lia.
  - cbn. lia.
  - unfold nextLevel. case_ifs; fields; lia.
  - cbn. lia.
Qed.

(** A frame never lowers the score or the recorded maximum combo, and in
    every run the combo is between 0 and the recorded maximum and the
    score is not negative. *)
Theorem combo_within_its_maximum :
  (forall deltaTime rnd g,
     (0 <= combo g)%Z -> (combo g <= maxCombo g)%Z ->
     (score g <= score (update deltaTime rnd g))%Z /\
     (maxCombo g <= maxCombo (update deltaTime rnd g))%Z) /\
  (forall es width height,
     let g := run es (newGame width height) in
     (0 <= combo g)%Z /\ (combo g <= maxCombo g)%Z /\ (0 <= score g)%Z).
Proof.
  split.
  - intros dt rnd g H0 H1.
    destruct (update_comboOk dt rnd g H0 H1) as (_ & _ & C & D). split; assumption.
  - intros es width height. cbv zeta.
    change (comboOk (run es (newGame width height))). unfold run.
    assert (H0 : comboOk (newGame width height)) by (cbn; unfold comboOk; cbn; lia).
    revert H0. generalize (newGame width height).
    induction es as [| e es IH]; intros g Hg; cbn [fold_left]; [exact Hg |].
    apply IH, step_comboOk, Hg.
Qed.

Lemma combo_within_its_maximum_witness :
  let g := comboGame in
  (0 <= combo g)%Z /\ (combo g <= maxCombo g)%Z /\
  (score g <= score (update 16 sampleRand g))%Z /\
  (maxCombo g <= maxCombo (update 16 sampleRand g))%Z.
Proof.
  intros g. destruct combo_within_its_maximum as [H _].
  assert (H0 : (0 <= combo g)%Z) by discriminate.
  assert (H1 : (combo g <= maxCombo g)%Z) by discriminate.
  split; [exact H0 |]. split; [exact H1 |]. exact (H 16 sampleRand g H0 H1).
Defined.

(** ** Spawning *)

(** The spawn phase appends at most three clots to those in play (one
    below difficulty level 3, two below level 5), each at [y = -80] with
    its full radius and the current difficulty multiplier.  It spawns
    nothing, and lets the spawn timer run, while the timer is below
    [2500 / multiplier]; once it has reached it, it spawns at least one
    clot and restarts the timer. *)
Theorem spawn_adds_at_most_three_clots (deltaTime : Q) (rnd : FrameRand) (g : Game) :
  let g' := spawnClots deltaTime rnd g in
  let due := 2500 / difficultyMultiplier g in
  exists new,
    clots g' = clots g ++ new /\ (length new <= 3)%nat /\
    ((difficultyLevel g < 3)%Z -> (length new <= 1)%nat) /\
    ((difficultyLevel g < 5)%Z -> (length new <= 2)%nat) /\
    Forall (fun c => clot_y c = -80 /\ radius c = baseRadius c /\
                     clot_difficultyMultiplier c = difficultyMultiplier g) new /\
    (spawnTimer g + deltaTime < due ->
       new = [] /\ spawnTimer g' = spawnTimer g + deltaTime) /\
    (due <= spawnTimer g + deltaTime ->
       (1 <= length new)%nat /\ spawnTimer g' = 0).
Proof.
  cbv zeta. unfold spawnClots, spawnClot. cbv zeta. fields. unfold Qgeb.
  destruct (Qle_bool (2500 / difficultyMultiplier g) (spawnTimer g + deltaTime)) eqn:E.
  - apply Qle_bool_iff in E.
    destruct ((3 <=? difficultyLevel g)%Z && Qltb (rnd_extra1 rnd) 0.3) eqn:E1;
      destruct ((5 <=? difficultyLevel g)%Z && Qltb (rnd_extra2 rnd) 0.25) eqn:E2;
      fields; rewrite ?E1, ?E2; fields; rewrite ?E1, ?E2; fields;
      rewrite <- ?app_assoc; cbn [app];
      (eexists; split; [reflexivity |]);
      try (apply andb_true_iff in E1; destruct E1 as [E1 _]; apply Z.leb_le in E1);
      try (apply andb_true_iff in E2; destruct E2 as [E2 _]; apply Z.leb_le in E2);
      cbn [length];
      (split; [lia |]); (split; [intros; lia |]); (split; [intros; lia |]);
      (split; [repeat constructor |]);
      (split; [intros; exfalso; lra | intros _; split; [lia | reflexivity]]).
  - apply Qle_bool_gt in E. exists []. rewrite app_nil_r. cbn [length].
    split; [reflexivity |]. split; [lia |]. split; [intros; lia |].
    split; [intros; lia |]. split; [constructor |].
    split; [intros _; split; reflexivity | intros; exfalso; lra].
Qed.

Lemma spawn_adds_at_most_three_clots_witness :
  let g := set_spawnTimer 2490 comboGame in
  let g' := spawnClots 16 sampleRand g in
  2500 / difficultyMultiplier g <= spawnTimer g + 16 /\
  (difficultyLevel g < 3)%Z /\
  length (clots g') = 3%nat /\ spawnTimer g' = 0.
Proof.
  intros g g'.
  assert (Hdue : 2500 / difficultyMultiplier g <= spawnTimer g + 16) by discriminate.
  assert (Hlvl : (difficultyLevel g < 3)%Z) by reflexivity.
  destruct (spawn_adds_at_most_three_clots 16 sampleRand g)
    as (new & Hc & _ & H1 & _ & _ & _ & Hd).
  destruct (Hd Hdue) as [Hn Ht]. specialize (H1 Hlvl).
  split; [exact Hdue |]. split; [exact Hlvl |]. split; [| exact Ht].
  fold g' in Hc. rewrite Hc, length_app.
  change (length (clots g)) with 2%nat. lia.
Defined.

(** ** Clots in play and the CRS value, in every run *)

Lemma newClot_inPlay x y dm r : validClotRand r -> inPlay (newClot x y dm r).
Proof.
  intros (_ & [Hb0 Hb1] & [Hs0 Hs1] & _). unfold inPlay.
  cbn [newClot minRadius radius baseRadius shrinkAmount]. repeat split; lra.
Qed.

Lemma clot_update_inPlay dt w c : inPlay c -> inPlay (clot_update dt w c).
Proof. intros H. exact H. Qed.

Lemma inPlay_scale c : inPlay c -> 0 < getScale c /\ getScale c <= 1.
Proof.
  intros (H1 & H2 & H3 & _). unfold getScale.
  assert (Hb : 0 < baseRadius c) by lra.
  split.
  - apply Qlt_shift_div_l; [exact Hb | lra].
  - apply Qle_shift_div_r; [exact Hb | lra].
Qed.

Lemma scanClots_unstagedInPlay rnd pulse pi cs s :
  unstagedInPlay cs s ->
  unstagedInPlay (fst (scanClots rnd pulse pi 0 cs s))
                 (snd (scanClots rnd pulse pi 0 cs s)).
Proof.
  intros H ci c'. rewrite scanClots_clots, lookup_map.
  destruct (cs !! ci) as [c |] eqn:Hc; [| discriminate].
  cbn [option_map]. intros [= <-].
  destruct (H ci c Hc) as [(Hb & Hm & Hs) Hlive].
  split.
  - destruct (collides pulse c); [| repeat split; assumption].
    cbn [hit fst radius baseRadius minRadius shrinkAmount].
    repeat split; try assumption. lra.
  - intros Hci.
    assert (Hold : ci ∉ clotsToRemove s).
    { intros Hin. apply Hci. apply scanClots_clotsToRemove. left. exact Hin. }
    specialize (Hlive Hold).
    destruct (collides pulse c) eqn:Ecol; [| exact Hlive].
    destruct (snd (hit c)) eqn:Ehit.
    + exfalso. apply Hci. apply scanClots_clotsToRemove. right.
      exists ci, c. repeat split; try assumption.
    + cbn [hit snd] in Ehit. cbn [hit fst radius minRadius].
      destruct (Qlt_le_dec (minRadius c) (radius c - shrinkAmount c)) as [Hlt | Hle];
        [exact Hlt |].
      apply Qle_bool_iff in Hle. rewrite Hle in Ehit. discriminate.
Qed.

Lemma scanPulses_unstagedInPlay rnd ps :
  forall pi cs s,
    unstagedInPlay cs s ->
    unstagedInPlay (fst (scanPulses rnd pi ps cs s)) (snd (scanPulses rnd pi ps cs s)).
Proof.
  induction ps as [| pulse rest IH]; intros pi cs s H; [exact H |].
  rewrite scanPulses_cons. apply IH, scanClots_unstagedInPlay, H.
Qed.

Lemma remove_indices_elem {A} (R : gset nat) (xs : list A) x :
  forall i, x ∈ remove_indices R i xs ->
            exists k, xs !! k = Some x /\ (i + k)%nat ∉ R.
Proof.
  induction xs as [| y xs IH]; intros i Hx; cbn [remove_indices] in Hx.
  - apply elem_of_nil in Hx. contradiction.
  - destruct (bool_decide (i ∈ R)) eqn:E.
    + destruct (IH (S i) Hx) as (k & Hk & Hn). exists (S k).
      split; [exact Hk |]. replace (i + S k)%nat with (S i + k)%nat by lia. exact Hn.
    + apply elem_of_cons in Hx. destruct Hx as [-> | Hx].
      * exists 0%nat. split; [reflexivity |].
        apply bool_decide_eq_false in E. rewrite Nat.add_0_r. exact E.
      * destruct (IH (S i) Hx) as (k & Hk & Hn). exists (S k).
        split; [exact Hk |]. replace (i + S k)%nat with (S i + k)%nat by lia. exact Hn.
Qed.

Lemma checkCollisions_inPlay rnd g :
  Forall inPlay (clots g) -> Forall inPlay (clots (checkCollisions rnd g)).
Proof.
  intros H. rewrite checkCollisions_clots. unfold collisionScan.
  assert (H0 : unstagedInPlay (clots g) (scan_start g)).
  { intros ci c Hc. rewrite Forall_forall in H.
    destruct (H c (list_elem_of_lookup_2 _ _ _ Hc)) as (H1 & H2 & H3 & H4).
    split; [repeat split; assumption | intros _; exact H1]. }
  pose proof (scanPulses_unstagedInPlay rnd (pulses g) 0%nat (clots g) _ H0) as Hs.
  apply Forall_forall. intros c Hc.
  apply remove_indices_elem in Hc. destruct Hc as (k & Hk & Hn).
  destruct (Hs k c Hk) as [(H2 & H3 & H4) Hlive].
  repeat split; try assumption. apply Hlive. exact Hn.
Qed.

Lemma scanClot_crs_nonneg rnd pulse pi ci clot s :
  0 <= crsValue (s_crs s) ->
  0 <= crsValue (s_crs (snd (scanClot rnd pulse pi ci clot s))).
Proof.
  intros H. unfold scanClot. destruct (collides pulse clot); [| exact H].
  rewrite onCollision_eq. cbv zeta. cbn [snd s_crs].
  destruct (snd (hit clot)); [| exact H].
  unfold onClotDestroyed. cbn [crsValue]. apply Qmax_ge_l.
Qed.

Lemma scanClots_crs_nonneg rnd pulse pi cs :
  forall ci s,
    0 <= crsValue (s_crs s) ->
    0 <= crsValue (s_crs (snd (scanClots rnd pulse pi ci cs s))).
Proof.
  induction cs as [| clot rest IH]; intros ci s H; [exact H |].
  rewrite scanClots_cons. cbn [snd]. apply IH, scanClot_crs_nonneg, H.
Qed.

Lemma scanPulses_crs_nonneg rnd ps :
  forall pi cs s,
    0 <= crsValue (s_crs s) ->
    0 <= crsValue (s_crs (snd (scanPulses rnd pi ps cs s))).
Proof.
  induction ps as [| pulse rest IH]; intros pi cs s H; [exact H |].
  rewrite scanPulses_cons. apply IH, scanClots_crs_nonneg, H.
Qed.

Lemma checkCollisions_crs_nonneg rnd g :
  0 <= crsValue (crs g) -> 0 <= crsValue (crs (checkCollisions rnd g)).
Proof.
  intros H. unfold checkCollisions, collisionScan.
  pose proof (scanPulses_crs_nonneg rnd (pulses g) 0%nat (clots g) (scan_start g) H)
    as Hs.
  destruct (scanPulses _ _ _ _ _) as [cs s]. exact Hs.
Qed.

Lemma escapePenalties_nonneg cs :
  Forall inPlay cs -> 0 <= Qsum (map escapePenalty cs).
Proof.
  intros H. apply Qsum_nonneg, Forall_map.
  eapply Forall_impl; [exact H |]. intros c Hc.
  destruct (inPlay_scale c Hc) as [Hs _]. unfold escapePenalty. lra.
Qed.

Lemma removeEscaped_ok g :
  0 <= crsValue (crs g) -> Forall inPlay (clots g) ->
  0 <= crsValue (crs (removeEscaped g)) /\ Forall inPlay (clots (removeEscaped g)).
Proof.
  intros H0 Hc. destruct (removeEscaped_spec g) as [Hl Hv].
  rewrite Forall_forall in Hc. split.
  - rewrite Hv.
    assert (0 <= Qsum (map escapePenalty
                         (List.filter (escaped (canvas_height g)) (clots g)))).
    { apply escapePenalties_nonneg, Forall_forall. intros c Hin.
      apply Hc. apply list_elem_of_In in Hin. apply filter_In in Hin.
      apply list_elem_of_In. tauto. }
    lra.
  - rewrite Hl. apply Forall_forall. intros c Hin. apply Hc.
    apply list_elem_of_In in Hin. apply filter_In in Hin.
    apply list_elem_of_In. tauto.
Qed.

Lemma crs_update_from_nonneg clots dt c :
  0 <= dt -> 0 <= crsValue c -> crs_in_range (crs_update clots dt c).
Proof.
  intros Hdt H0. unfold crs_in_range, crs_update, maxCRS. cbn [crsValue].
  pose proof (crsIncrease_nonneg dt clots 0 Hdt (Qle_refl 0)) as Hinc.
  set (inc := fold_left _ clots 0) in *.
  destruct (Qmin_cases 100 (crsValue c + inc)) as [[? E] | [? E]]; rewrite E; lra.
Qed.

Lemma spawnClots_inPlay dt rnd g :
  validFrameRand rnd -> Forall inPlay (clots g) ->
  Forall inPlay (clots (spawnClots dt rnd g)).
Proof.
  intros (H1 & H2 & H3) Hc. unfold spawnClots, spawnClot. cbv zeta.
  case_ifs; fields; try exact Hc;
    repeat (apply Forall_app; split; [| repeat constructor; apply newClot_inPlay;
                                        assumption]);
    exact Hc.
Qed.

Lemma beforeCollisions_ok dt rnd g :
  validFrameRand rnd -> Forall inPlay (clots g) ->
  Forall inPlay (clots (beforeCollisions dt rnd g)) /\
  crs (beforeCollisions dt rnd g) = crs g.
Proof.
  intros Hr Hc. rewrite beforeCollisions_eq. split.
  - unfold updateClots at 1. fields. apply Forall_map.
    eapply Forall_impl; [| intros c H; apply clot_update_inPlay, H].
    apply spawnClots_inPlay; [exact Hr |].
    autorewrite with frame. exact Hc.
  - autorewrite with frame. reflexivity.
Qed.

Lemma afterCollisions_ok dt g :
  0 <= dt -> 0 <= crsValue (crs g) -> Forall inPlay (clots g) ->
  gameOk (afterCollisions dt g).
Proof.
  intros Hdt H0 Hc. destruct (removeEscaped_ok g H0 Hc) as [H1 H2].
  unfold gameOk. rewrite afterCollisions_eq. split.
  - rewrite updatePowerUpTimers_crs, updateComboTimer_crs.
    set (g1 := updatePowerUps dt _).
    assert (Hg1 : crs_in_range (crs g1)).
    { unfold g1. rewrite updatePowerUps_crs, checkGameOver_crs, checkCritical_crs.
      unfold updateCRS. fields. apply crs_update_from_nonneg; assumption. }
    destruct Hg1 as [Ha Hb].
    pose proof (filterCollected_effects (powerUps g1) g1) as He. cbv zeta in He.
    unfold collectPowerUps.
    destruct (filterCollected (powerUps g1) g1) as [pus g']. cbn [snd] in He.
    destruct He as (_ & _ & _ & He). destruct (He Ha) as [Hx Hy].
    fields. split; [exact Hx | lra].
  - rewrite updatePowerUpTimers_clots, updateComboTimer_clots, collectPowerUps_clots.
    autorewrite with frame. exact H2.
Qed.

Lemma update_gameOk dt rnd g :
  0 <= dt -> validFrameRand rnd -> gameOk g -> gameOk (update dt rnd g).
Proof.
  intros Hdt Hr [[H0 H100] Hc]. destruct (playing g) eqn:Hp;
    [| rewrite (update_not_playing _ _ _ Hp); split; [split |]; assumption].
  rewrite (update_playing _ _ _ Hp).
  destruct (beforeCollisions_ok dt rnd g Hr Hc) as [Hb1 Hb2].
  apply afterCollisions_ok; [exact Hdt | |]; unfold afterScan.
  - apply checkCollisions_crs_nonneg. rewrite Hb2. exact H0.
  - apply checkCollisions_inPlay, Hb1.
Qed.

Lemma step_gameOk e g : validEvent e g -> gameOk g -> gameOk (step e g).
Proof.
  intros Hv H. destruct e; cbn [step].
  - destruct Hv as [Ht Hr]. unfold gameLoop. cbv zeta.
    apply update_gameOk; [| exact Hr | exact H].
    destruct (Qmin_cases (currentTime - lastTime g) 32) as [[? E] | [? E]];
      rewrite E; lra.
  - unfold fire. case_ifs; exact H.
  - unfold handleMouse. case_ifs; exact H.
  - unfold handleTouch, fire. case_ifs; exact H.
  - exact H.
  - split; [split; cbn; lra | constructor].
  - destruct H as [Hc Hl]. unfold nextLevel. case_ifs;
      (split; [exact Hc | first [exact Hl | constructor]]).
  - exact H.
Qed.

Lemma run_gameOk es :
  forall g, validRun es g -> gameOk g -> gameOk (run es g).
Proof.
  unfold run. induction es as [| e es IH]; intros g Hv H; cbn [fold_left]; [exact H |].
  destruct Hv as [He Hrest]. apply IH; [exact Hrest | apply step_gameOk; assumption].
Qed.

Lemma newGame_gameOk w h : gameOk (newGame w h).
Proof. split; [split; cbn; lra | constructor]. Qed.

(** No destroyed clot stays in play.  A collision scan keeps only clots
    above their minimum radius, when the clots were in play before it; and
    in every run driven by non-decreasing timestamps and draws in [0, 1),
    every clot of the game is above its minimum radius and at most its
    base radius, so that its scale is in (0, 1]. *)
Theorem clots_in_play_are_above_min_radius :
  (forall rnd g,
     Forall inPlay (clots g) -> Forall inPlay (clots (checkCollisions rnd g))) /\
  (forall es width height,
     validRun es (newGame width height) ->
     Forall (fun c => minRadius c < radius c /\ radius c <= baseRadius c /\
                      0 < getScale c /\ getScale c <= 1)
            (clots (run es (newGame width height)))).
Proof.
  split; [exact checkCollisions_inPlay |].
  intros es width height Hv.
  destruct (run_gameOk es _ Hv (newGame_gameOk width height)) as [_ Hc].
  eapply Forall_impl; [exact Hc |]. intros c H.
  destruct (inPlay_scale c H) as [Hs0 Hs1]. destruct H as (H1 & H2 & _).
  repeat split; assumption.
Qed.

Lemma clots_in_play_are_above_min_radius_witness :
  let g := twoPulsesGame in
  let es := [StartButton; Frame 16 sampleRand; Click; Frame 32 sampleRand] in
  Forall inPlay (clots g) /\
  Forall inPlay (clots (checkCollisions (fun _ _ => 0) g)) /\
  validRun es (newGame 800 600) /\
  Forall (fun c => minRadius c < radius c /\ radius c <= baseRadius c /\
                   0 < getScale c /\ getScale c <= 1)
         (clots (run es (newGame 800 600))).
Proof.
  intros g es. destruct clots_in_play_are_above_min_radius as [H1 H2].
  assert (Hg : Forall inPlay (clots g)).
  { repeat constructor; vm_compute; first [reflexivity | discriminate]. }
  assert (Hv : validRun es (newGame 800 600)).
  { repeat split; vm_compute; first [reflexivity | discriminate]. }
  split; [exact Hg |]. split; [exact (H1 _ g Hg) |].
  split; [exact Hv | exact (H2 es 800 600 Hv)].
Defined.

(** In every run driven by non-decreasing timestamps and draws in [0, 1)
    the CRS value of the game is within [0, 100] between events,
    and so is the percentage the HUD shows. *)
Theorem game_crs_stays_in_range (es : list Event) (width height : Q) :
  validRun es (newGame width height) ->
  let g := run es (newGame width height) in
  0 <= crsValue (crs g) /\ crsValue (crs g) <= 100 /\
  0 <= getCRSPercentage (crs g) /\ getCRSPercentage (crs g) <= 100.
Proof.
  intros Hv g.
  destruct (run_gameOk es _ Hv (newGame_gameOk width height)) as [[H0 H100] _].
  fold g in H0, H100.
  assert (Hp : getCRSPercentage (crs g) == crsValue (crs g)).
  { unfold getCRSPercentage, maxCRS. rewrite Qdiv_100. lra. }
  rewrite Hp. repeat split; assumption.
Qed.

Lemma game_crs_stays_in_range_witness :
  let es := [StartButton; Frame 16 sampleRand; MouseMove 100;
             Frame 40 sampleRand; Frame 40 sampleRand] in
  validRun es (newGame 800 600) /\
  (let g := run es (newGame 800 600) in
   0 <= crsValue (crs g) /\ crsValue (crs g) <= 100 /\
   0 <= getCRSPercentage (crs g) /\ getCRSPercentage (crs g) <= 100).
Proof.
  intros es.
  assert (Hv : validRun es (newGame 800 600)).
  { repeat split; vm_compute; first [reflexivity | discriminate]. }
  split; [exact Hv | exact (game_crs_stays_in_range es 800 600 Hv)].
Defined.
